(** * DropShadow rendering (juce_graphics): a shallow embedding

    The development follows the second translation unit of
    [src/modules/juce_graphics/fonts/juce_Typeface.h]: the in-place
    single-channel blur ([blurDataTriplets], [blurSingleChannelImage]), the
    three [DropShadow] painters and [DropShadowEffect::applyEffect].

    Conventions.
    - [uint8] and [uint32] values are integers of [Z]; the wrap-around of a
      [uint32] sum and the narrowing of a [(uint8)] cast are written out.
    - [int] values are integers of [Z].  Signed overflow has no defined
      behaviour in C++.  The two [int] products of the blur, the pass count
      [2 * radius] and the row offset [lineStride * y], are wrapped to 32
      bits ([to_int32]), which is what a compiled build computes; the
      theorems that depend on them carry the bounds under which nothing
      wraps.  The other [int] operations are taken in [Z], and the
      embedding describes the executions in which they do not overflow.
    - A pixel buffer is a [list Z] addressed by byte offset; every load and
      store is bounds-checked and an access outside the buffer is a fault. *)

From Stdlib Require Import ZArith Lia List Bool QArith Lqa.
From Stdlib Require Import Floats.SpecFloat.
From stdpp Require Import base numbers list option gmap.

Local Open Scope Z_scope.

(** ** Faults and the memory monad *)

Inductive fault : Type :=
| OutOfBounds (offset : Z)   (* a load or store outside the buffer *)
| OutOfFuel                  (* the iteration bound of a loop model was hit *)
| NullImage.                 (* pixel access through a null image *)

Inductive result (A : Type) : Type :=
| Ok (a : A)
| Fault (f : fault).
Arguments Ok {A} a.
Arguments Fault {A} f.

(** The memory a blur works on: the bytes of the buffer, and a ghost flag
    that records whether some [(uint8)] cast changed its operand. *)
Record mem : Type := Mem { bytes : list Z; lossy : bool }.

(** Computations over a state [S] that may fault. *)
Definition St (S A : Type) : Type := S -> result (A * S).

Definition ret {S A} (a : A) : St S A := fun m => Ok (a, m).

Definition bind {S A B} (c : St S A) (k : A -> St S B) : St S B :=
  fun m => match c m with
           | Ok (a, m') => k a m'
           | Fault f => Fault f
           end.

Definition M (A : Type) : Type := St mem A.

Notation "'let*' x ':=' c 'in' k" := (bind c (fun x => k))
  (at level 10, x pattern, c at level 200, k at level 200,
   format "'[v' 'let*'  x  ':='  c  'in' '/' k ']'").
Notation "c ;; k" := (bind c (fun _ => k))
  (at level 100, k at level 200, right associativity).

Definition in_bounds (m : list Z) (i : Z) : bool :=
  (0 <=? i) && (i <? Z.of_nat (length m)).

(** [peek m i] is the byte at offset [i], and 0 outside the buffer. *)
Definition peek (m : list Z) (i : Z) : Z :=
  if in_bounds m i then default 0 (m !! Z.to_nat i) else 0.

Definition to_uint8 (v : Z) : Z := v mod 256.
Definition to_uint32 (v : Z) : Z := v mod 2 ^ 32.

(** An [int] result reduced to 32 bits, two's complement. *)
Definition to_int32 (v : Z) : Z := (v + 2 ^ 31) mod 2 ^ 32 - 2 ^ 31.

(** [d[i]] as an rvalue. *)
Definition load (i : Z) : M Z :=
  fun m => if in_bounds (bytes m) i
           then Ok (peek (bytes m) i, m)
           else Fault (OutOfBounds i).

(** [d[i] = (uint8) v]. *)
Definition store_u8 (i : Z) (v : Z) : M unit :=
  fun m => if in_bounds (bytes m) i
           then Ok (tt, {| bytes := <[Z.to_nat i := to_uint8 v]> (bytes m);
                          lossy := lossy m || negb (to_uint8 v =? v) |})
           else Fault (OutOfBounds i).

Fixpoint repeatM (n : nat) (c : M unit) : M unit :=
  match n with
  | O => ret tt
  | S n' => c ;; repeatM n' c
  end.

Fixpoint forM (l : list Z) (body : Z -> M unit) : M unit :=
  match l with
  | [] => ret tt
  | x :: l' => body x ;; forM l' body
  end.

(** ** The blur (lines 208-246) *)

(** The [do { ... } while (--num > 0)] loop of [blurDataTriplets].  The state
    is the cursor [d], the counter [num] and [last]; the result is the cursor
    and [last] on exit. *)
Fixpoint blur_loop (fuel : nat) (d num delta : Z) (last : Z) : M (Z * Z) :=
  match fuel with
  | O => fun _ => Fault OutOfFuel
  | S fuel' =>
      let* newLast := load d in
      let* a := load d in
      let* b := load (d + delta) in
      store_u8 d (to_uint32 (last + a + b + 1) ÷ 3);;
      let d := d + delta in
      let last := newLast in
      let num := num - 1 in
      if 0 <? num then blur_loop fuel' d num delta last else ret (d, last)
  end.

Definition blurDataTriplets (d num delta : Z) : M unit :=
  let* last := load d in
  let* a := load d in
  let* b := load (d + delta) in
  store_u8 d ((a + b + 1) ÷ 3);;
  let d := d + delta in
  let num := num - 2 in
  let* exit := blur_loop (S (Z.to_nat num)) d num delta last in
  let '(d, last) := exit in
  let* a := load d in
  store_u8 d (to_uint32 (last + a + 1) ÷ 3).

(** [blurSingleChannelImage (uint8*, int, int, int, int)]; [jassert] is
    compiled out of release builds and is no check.  The row offset
    [lineStride * y] is an [int] product, added to the pointer [data]. *)
Definition blurSingleChannelImage (data width height lineStride repetitions : Z)
  : M unit :=
  forM (seqZ 0 height) (fun y =>
    repeatM (Z.to_nat repetitions)
      (blurDataTriplets (data + to_int32 (lineStride * y)) width 1));;
  forM (seqZ 0 width) (fun x =>
    repeatM (Z.to_nat repetitions)
      (blurDataTriplets (data + x) height lineStride)).

(** ** Reference description of one pass *)

(** The three-tap average over a line of [n] samples given by [f]; a sample
    outside [0, n) counts as zero, the divisor is always 3. *)
Definition tap3 (n : Z) (f : Z -> Z) (i : Z) : Z :=
  let g j := if (0 <=? j) && (j <? n) then f j else 0 in
  if (0 <=? i) && (i <? n) then (g (i - 1) + g i + g (i + 1) + 1) / 3 else 0.

Definition bytes_ok (m : list Z) : Prop := Forall (fun b => 0 <= b < 256) m.

(** [partial m0 d delta n k mk]: [mk] is [m0] after the first [k] samples of
    the line at [d], step [delta], were replaced by their averages. *)
Definition partial (m0 : list Z) (d delta n : Z) (k : Z) (mk : list Z) : Prop :=
  length mk = length m0 /\
  (forall i, 0 <= i < k ->
     peek mk (d + i * delta) = tap3 n (fun j => peek m0 (d + j * delta)) i) /\
  (forall j, (forall i, 0 <= i < k -> j <> d + i * delta) -> peek mk j = peek m0 j).

(** [k] passes over a line. *)
Definition passes (k : nat) (n : Z) (f : Z -> Z) : Z -> Z :=
  Nat.iter k (tap3 n) f.

(** An image as a function of the column [x] and the row [y]. *)
Definition image : Type := Z -> Z -> Z.

(** One pass along every row, and one pass along every column. *)
Definition hpass (w : Z) (img : image) : image :=
  fun x y => tap3 w (fun x' => img x' y) x.

Definition vpass (h : Z) (img : image) : image :=
  fun x y => tap3 h (fun y' => img x y') y.

(** The blur as the specification words it: [k] passes over the rows,
    then [k] passes over the columns. *)
Definition blur_reference (w h : Z) (k : nat) (img : image) : image :=
  Nat.iter k (vpass h) (Nat.iter k (hpass w) img).

(** The pixels of a buffer with the given origin and line stride. *)
Definition pixels (m : list Z) (data lineStride : Z) : image :=
  fun x y => peek m (data + lineStride * y + x).

(** [lines_done m0 base delta n k s m]: in [m], each of the lines
    [0 .. s-1] (line [t] starts at [base t], has [n] samples [delta] apart)
    has received [k] passes, and every other byte is as in [m0]. *)
Definition lines_done (m0 : list Z) (base : Z -> Z) (delta n : Z) (k : nat)
    (s : Z) (m : list Z) : Prop :=
  length m = length m0 /\
  (forall t i, 0 <= t < s -> 0 <= i < n ->
     peek m (base t + i * delta)
     = passes k n (fun j => peek m0 (base t + j * delta)) i) /\
  (forall j, (forall t i, 0 <= t < s -> 0 <= i < n -> j <> base t + i * delta) ->
     peek m j = peek m0 j).

(** ** Numbers of the painters *)

(** [float] is IEEE 754 binary32 and [double] binary64, as specified by the
    standard library's [SpecFloat] (24 and 53 bits of precision, rounding to
    nearest, ties to even). *)
Definition float : Type := spec_float.
Definition double : Type := spec_float.

Definition f32_of_int (n : Z) : float := binary_normalize 24 128 n 0 false.
Definition f32_add : float -> float -> float := SFadd 24 128.
Definition f32_sub : float -> float -> float := SFsub 24 128.
Definition f32_mul : float -> float -> float := SFmul 24 128.
Definition f32_div : float -> float -> float := SFdiv 24 128.

(** A decimal literal [num/den] with suffix [f]: the binary32 nearest to the
    quotient of two small integers. *)
Definition f32_lit (num den : Z) : float :=
  f32_div (f32_of_int num) (f32_of_int den).

(** [(double) x] for a float [x] (exact), and double subtraction. *)
Definition f64_of_f32 (x : float) : double :=
  match x with
  | S754_finite s m e => binary_normalize 53 1024 (cond_Zopp s (Zpos m)) e s
  | _ => x
  end.
Definition f64_of_int (n : Z) : double := binary_normalize 53 1024 n 0 false.
Definition f64_sub : double -> double -> double := SFsub 53 1024.

(** The rational a finite float stands for (0 for the other values). *)
Definition F2Q (x : spec_float) : Q :=
  match x with
  | S754_finite s m e =>
      (inject_Z (cond_Zopp s (Zpos m)) * (if 0 <=? e then inject_Z (2 ^ e)
                                          else / inject_Z (2 ^ (- e))))%Q
  | _ => 0%Q
  end.

(** Rounding of [m / 2^k] to the nearest integer, ties to even. *)
Definition round_half_even (m : Z) (k : Z) : Z :=
  let q := m / 2 ^ k in
  let r := m mod 2 ^ k in
  match Z.compare (2 * r) (2 ^ k) with
  | Lt => q
  | Gt => q + 1
  | Eq => if Z.even q then q else q + 1
  end.

(** Modelled from the spec: [roundToInt] is not under src/; the spec has
    [applyEffect] rescale "radius and offset by a scaleFactor" into
    integers.  It is taken as rounding to the nearest [int], ties to even,
    which is what JUCE documents; values that are not finite give 0. *)
Definition roundToInt (x : spec_float) : Z :=
  match x with
  | S754_finite s m e =>
      to_int32 (if 0 <=? e then cond_Zopp s (Zpos m * 2 ^ e)
                else cond_Zopp s (round_half_even (Zpos m) (- e)))
  | _ => 0
  end.

(** The value type of a [Point] or [Rectangle]: [int] or [float]. *)
Class Num (V : Type) : Type := {
  num_of_int : Z -> V;
  num_add : V -> V -> V;
  num_sub : V -> V -> V;
  num_mul : V -> V -> V;
  num_opp : V -> V;
  num_ltb : V -> V -> bool;
  num_leb : V -> V -> bool
}.

#[export] Instance Num_int : Num Z := {|
  num_of_int n := n;
  num_add := Z.add;
  num_sub := Z.sub;
  num_mul := Z.mul;
  num_opp := Z.opp;
  num_ltb := Z.ltb;
  num_leb := Z.leb
|}.

#[export] Instance Num_float : Num float := {|
  num_of_int := f32_of_int;
  num_add := f32_add;
  num_sub := f32_sub;
  num_mul := f32_mul;
  num_opp := SFopp;
  num_ltb := SFltb;
  num_leb := SFleb
|}.

(** Modelled from the spec: [jmin] and [jmax] are not under src/; they are
    the smaller and the larger of two values, computed with [<] only. *)
Definition jmin {V} `{Num V} (a b : V) : V := if num_ltb b a then b else a.

(** Modelled from the spec: see [jmin]. *)
Definition jmax {V} `{Num V} (a b : V) : V := if num_ltb a b then b else a.

(** ** Geometry *)

Record Point (V : Type) : Type := mkPoint { pt_x : V; pt_y : V }.
Arguments mkPoint {V} _ _.
Arguments pt_x {V} _.
Arguments pt_y {V} _.

Record Rectangle (V : Type) : Type := mkRect { rx : V; ry : V; rw : V; rh : V }.
Arguments mkRect {V} _ _ _ _.
Arguments rx {V} _.
Arguments ry {V} _.
Arguments rw {V} _.
Arguments rh {V} _.

(** The [Rectangle<ValueType>] and [Point] templates are not under src/.
    The spec uses them as "expanded by [radius+1] on each side",
    "intersected with the context's current clip", "inset", "offset" and a
    partition into a 3 by 3 grid; the definitions of this section are the
    members of that name in JUCE's [juce_Rectangle.h], generic in the value
    type. *)
Section RectangleOps.
Context {V : Type} `{Num V}.

Local Notation "a + b" := (num_add a b).
Local Notation "a - b" := (num_sub a b).
Local Notation "a * b" := (num_mul a b).
Local Notation "0" := (num_of_int 0%Z).
Local Notation "2" := (num_of_int 2%Z).

(** Modelled from the spec: the accessors of [Rectangle], not under src/. *)
Definition getX (r : Rectangle V) : V := rx r.

(** Modelled from the spec: see [getX]. *)
Definition getY (r : Rectangle V) : V := ry r.

(** Modelled from the spec: see [getX]. *)
Definition getWidth (r : Rectangle V) : V := rw r.

(** Modelled from the spec: see [getX]. *)
Definition getHeight (r : Rectangle V) : V := rh r.

(** Modelled from the spec: [Rectangle::operator+ (Point)] is not under
    src/; the rectangle "offset" by a point keeps its extent. *)
Definition translated (r : Rectangle V) (p : Point V) : Rectangle V :=
  mkRect (rx r + pt_x p) (ry r + pt_y p) (rw r) (rh r).

(** Modelled from the spec: [Rectangle::expanded (deltaX, deltaY)] is not
    under src/; "expanded by [delta] on each side", the extent never
    negative. *)
Definition expanded2 (r : Rectangle V) (deltaX deltaY : V) : Rectangle V :=
  let nw := jmax 0 (rw r + deltaX * 2) in
  let nh := jmax 0 (rh r + deltaY * 2) in
  mkRect (rx r - deltaX) (ry r - deltaY) nw nh.

(** Modelled from the spec: [Rectangle::expanded (delta)], see
    [expanded2]. *)
Definition expanded (r : Rectangle V) (delta : V) : Rectangle V :=
  expanded2 r delta delta.

(** Modelled from the spec: [Rectangle::reduced (delta)] is not under
    src/; the "inset" is an expansion by the negated amount. *)
Definition reduced (r : Rectangle V) (delta : V) : Rectangle V :=
  expanded2 r (num_opp delta) (num_opp delta).

(** Modelled from the spec: [Rectangle::getIntersection] is not under
    src/; the common part of two rectangles, the empty rectangle at the
    origin when there is none. *)
Definition getIntersection (r other : Rectangle V) : Rectangle V :=
  let nx := jmax (rx r) (rx other) in
  let ny := jmax (ry r) (ry other) in
  let nw := jmin (rx r + rw r) (rx other + rw other) - nx in
  if num_leb 0 nw then
    let nh := jmin (ry r + rh r) (ry other + rh other) - ny in
    if num_leb 0 nh then mkRect nx ny nw nh
    else mkRect 0 0 0 0
  else mkRect 0 0 0 0.

(** Modelled from the spec: [Rectangle::removeFromTop] is not under src/.
    The four [removeFrom...] members return a strip of the given amount and
    leave the rest in the rectangle they are called on: the result is
    (strip, rest). *)
Definition removeFromTop (r : Rectangle V) (amount : V)
  : Rectangle V * Rectangle V :=
  let strip := mkRect (rx r) (ry r) (rw r) (jmin amount (rh r)) in
  (strip, mkRect (rx r) (ry r + rh strip) (rw r) (rh r - rh strip)).

(** Modelled from the spec: [Rectangle::removeFromLeft], see
    [removeFromTop]. *)
Definition removeFromLeft (r : Rectangle V) (amount : V)
  : Rectangle V * Rectangle V :=
  let strip := mkRect (rx r) (ry r) (jmin amount (rw r)) (rh r) in
  (strip, mkRect (rx r + rw strip) (ry r) (rw r - rw strip) (rh r)).

(** Modelled from the spec: [Rectangle::removeFromRight], see
    [removeFromTop]. *)
Definition removeFromRight (r : Rectangle V) (amount : V)
  : Rectangle V * Rectangle V :=
  let amount := jmin amount (rw r) in
  let strip := mkRect (rx r + rw r - amount) (ry r) amount (rh r) in
  (strip, mkRect (rx r) (ry r) (rw r - amount) (rh r)).

(** Modelled from the spec: [Rectangle::removeFromBottom], see
    [removeFromTop]. *)
Definition removeFromBottom (r : Rectangle V) (amount : V)
  : Rectangle V * Rectangle V :=
  let amount := jmin amount (rh r) in
  let strip := mkRect (rx r) (ry r + rh r - amount) (rw r) amount in
  (strip, mkRect (rx r) (ry r) (rw r) (rh r - amount)).

(** Modelled from the spec: [Rectangle::getRelativePoint] is not under
    src/; the point at the given proportions of the width and height, which
    the spec calls the "per-corner apex" and the direction "perpendicular
    to the edge". *)
Definition getRelativePoint (r : Rectangle V) (relX relY : V) : Point V :=
  mkPoint (rx r + rw r * relX) (ry r + rh r * relY).
End RectangleOps.

(** Modelled from the spec: [Rectangle<int>::toFloat] is not under src/;
    each field is converted to [float]. *)
Definition rect_toFloat (r : Rectangle Z) : Rectangle float :=
  mkRect (f32_of_int (rx r)) (f32_of_int (ry r))
         (f32_of_int (rw r)) (f32_of_int (rh r)).

(** Modelled from the spec: [Point<int>::toFloat], see [rect_toFloat]. *)
Definition point_toFloat (p : Point Z) : Point float :=
  mkPoint (f32_of_int (pt_x p)) (f32_of_int (pt_y p)).

(** The pixels of an integer rectangle, and the points of a float one:
    left and top edge included, right and bottom edge excluded. *)
Definition contains_px (r : Rectangle Z) (x y : Z) : Prop :=
  rx r <= x < rx r + rw r /\ ry r <= y < ry r + rh r.

Definition covers (r : Rectangle float) (x y : Q) : Prop :=
  (F2Q (rx r) <= x /\ x < F2Q (rx r) + F2Q (rw r) /\
   F2Q (ry r) <= y /\ y < F2Q (ry r) + F2Q (rh r))%Q.

(** ** Colours and gradients *)

(** A [Colour] is four [uint8] channels. *)
Record Colour : Type := mkColour { alpha : Z; red : Z; green : Z; blue : Z }.

(** Modelled from the spec: [Colours::white] is not under src/; the path
    is "filled white on transparent". *)
Definition white : Colour := mkColour 255 255 255 255.

Definition setAlpha (c : Colour) (a : Z) : Colour :=
  mkColour a (red c) (green c) (blue c).

(** Modelled from the spec: [Colour::withMultipliedAlpha] is not under
    src/; the spec names the weighting [colour.withMultipliedAlpha(i²)] and
    has [applyEffect] multiply "the shadow's alpha by an additional alpha
    factor".  The alpha channel is multiplied by the float, rounded and
    saturated at 255. *)
Definition withMultipliedAlpha (c : Colour) (alphaMultiplier : float) : Colour :=
  setAlpha c
    (to_uint8 (jmin 255 (roundToInt (f32_mul alphaMultiplier
                                             (f32_of_int (alpha c)))))).

(** Modelled from the spec: the conversion of a proportion in [0, 1] to a
    byte that [Colour::withAlpha] uses is not under src/. *)
Definition floatToUInt8 (n : float) : Z :=
  if SFleb n (f32_of_int 0) then 0
  else if SFleb (f32_of_int 1) n then 255
  else to_uint8 (roundToInt (f32_mul n (f32_of_int 255))).

(** Modelled from the spec: [Colour::withAlpha (float)] is not under src/;
    [colour.withAlpha (0.0f)] is the "fully transparent" end of the
    gradient. *)
Definition withAlpha (c : Colour) (newAlpha : float) : Colour :=
  setAlpha c (floatToUInt8 newAlpha).

(** [ColourGradient] is not under src/; the spec calls it a "two-point
    gradient descriptor with linear/radial mode and arbitrary colour
    stops". *)
Record ColourGradient : Type := mkGradient {
  point1 : Point float;
  point2 : Point float;
  isRadial : bool;
  colours : list (double * Colour)
}.

(** Modelled from the spec: the constructor of [ColourGradient] is not
    under src/; a gradient "[colour] → transparent" has its two colours at
    positions 0 and 1. *)
Definition newColourGradient (colour1 : Colour) (x1 y1 : float)
    (colour2 : Colour) (x2 y2 : float) (radial : bool) : ColourGradient :=
  mkGradient (mkPoint x1 y1) (mkPoint x2 y2) radial
    [(f64_of_int 0, colour1); (f64_of_int 1, colour2)].

(** Modelled from the spec: the ordered insertion behind
    [ColourGradient::addColour], not under src/: a stop goes before the
    first stop that lies further along. *)
Fixpoint insert_stop (pos : double) (c : Colour) (l : list (double * Colour))
  : list (double * Colour) :=
  match l with
  | [] => [(pos, c)]
  | stop :: l' =>
      if SFltb pos (fst stop) then (pos, c) :: stop :: l'
      else stop :: insert_stop pos c l'
  end.

(** Modelled from the spec: [ColourGradient::addColour] is not under src/;
    it adds one of the "arbitrary colour stops", a position of 0 or less
    replacing the first stop and a position above 1 counting as 1. *)
Definition addColour (cg : ColourGradient) (proportionAlongGradient : double)
    (c : Colour) : ColourGradient :=
  if SFleb proportionAlongGradient (f64_of_int 0) then
    mkGradient (point1 cg) (point2 cg) (isRadial cg)
      ((f64_of_int 0, c) :: tail (colours cg))
  else
    let pos := if SFltb proportionAlongGradient (f64_of_int 1)
               then proportionAlongGradient else f64_of_int 1 in
    mkGradient (point1 cg) (point2 cg) (isRadial cg)
      (insert_stop pos c (colours cg)).

(** ** Images *)

Inductive PixelFormat : Type := RGB | ARGB | SingleChannel.

(** The shared pixel data object behind an [Image]. *)
Record ImagePixelData : Type := mkPixelData {
  pixelFormat : PixelFormat;
  width : Z;
  height : Z;
  pixelStride : Z;
  lineStride : Z;
  imageData : list Z
}.

(** An [Image] is a counted reference to a pixel data object; [None] is
    the null (invalid) image.  The heap maps each live object to its data
    and its reference count. *)
Definition Image : Type := option nat.
Abbreviation Heap := (gmap nat (ImagePixelData * nat)).
Definition W (A : Type) : Type := St Heap A.

(** Modelled from the spec: [Image::isValid] is not under src/; an
    "invalid/empty" image is the null image. *)
Definition isValid (img : Image) : bool :=
  match img with Some _ => true | None => false end.

(** Modelled from the spec: the constructor of an image's pixel data is
    not under src/; the spec gives an image a "pixel buffer with width,
    height, stride, and channel format".  A new software image has rows
    padded to a multiple of four bytes and starts cleared. *)
Definition createPixelData (format : PixelFormat) (w h : Z) : ImagePixelData :=
  let ps := match format with RGB => 3 | ARGB => 4 | SingleChannel => 1 end in
  let ls := Z.land (ps * Z.max 1 w + 3) (Z.lnot 3) in
  mkPixelData format w h ps ls (replicate (Z.to_nat (ls * Z.max 1 h)) 0).

Definition withData (pd : ImagePixelData) (data : list Z) : ImagePixelData :=
  mkPixelData (pixelFormat pd) (width pd) (height pd) (pixelStride pd)
    (lineStride pd) data.

(** Modelled from the spec: construction of an [Image] that owns a new
    pixel data object (not under src/). *)
Definition newImage (pd : ImagePixelData) : W Image :=
  fun hp => let h := fresh (dom hp) in Ok (Some h, <[h := (pd, 1%nat)]> hp).

(** Modelled from the spec: copying an [Image] value (not under src/):
    "copy-on-write sharing" counts the owners of the pixel data. *)
Definition retain (img : Image) : W unit :=
  fun hp => match img with
            | None => Ok (tt, hp)
            | Some h => Ok (tt, alter (fun e => (fst e, S (snd e))) h hp)
            end.

(** Modelled from the spec: destroying an [Image] value (not under src/);
    the pixel data goes with its last owner. *)
Definition release (img : Image) : W unit :=
  fun hp => match img with
            | None => Ok (tt, hp)
            | Some h =>
                match hp !! h with
                | Some (pd, S (S n)) => Ok (tt, <[h := (pd, S n)]> hp)
                | _ => Ok (tt, delete h hp)
                end
            end.

(** The bytes of [w] by [h] pixels whose value at [(x, y)] is [f x y], in
    rows of [ls] bytes; padding bytes are 0. *)
Definition raster (w h ls : Z) (f : Z -> Z -> Z) : list Z :=
  map (fun k => let x := k mod ls in
                if x <? w then to_uint8 (f x (k / ls)) else 0)
      (seqZ 0 (ls * Z.max 1 h)).

(** Modelled from the spec: the pixel data behind
    [Image::convertedToFormat (Image::SingleChannel)], not under src/:
    "single-channel (alpha) form".  It is the alpha channel of an ARGB
    source (the fourth byte of each pixel) and full alpha for an RGB
    source. *)
Definition toSingleChannel (pd : ImagePixelData) : ImagePixelData :=
  let new := createPixelData SingleChannel (width pd) (height pd) in
  match pixelFormat pd with
  | SingleChannel => pd
  | RGB =>
      withData new
        (raster (width pd) (height pd) (lineStride new) (fun _ _ => 255))
  | ARGB =>
      withData new
        (raster (width pd) (height pd) (lineStride new)
           (fun x y => peek (imageData pd) (lineStride pd * y + 4 * x + 3)))
  end.

(** Modelled from the spec: [Image::convertedToFormat] at
    [Image::SingleChannel] is not under src/.  An image that already has
    the format is returned as it is, one more reference to the same
    object; otherwise the result is a new image. *)
Definition convertedToFormat_SingleChannel (img : Image) : W Image :=
  match img with
  | None => ret None
  | Some h =>
      fun hp =>
        match hp !! h with
        | None => Fault NullImage
        | Some (pd, _) =>
            match pixelFormat pd with
            | SingleChannel => (retain img;; ret img) hp
            | _ => newImage (toSingleChannel pd) hp
            end
        end
  end.

(** Modelled from the spec: [Image::duplicateIfShared] is not under src/;
    it "ensure[s] the buffer is not shared with another owner": a reference
    to an object that has other references is replaced by a reference to a
    private copy. *)
Definition duplicateIfShared (img : Image) : W Image :=
  match img with
  | None => ret None
  | Some h =>
      fun hp =>
        match hp !! h with
        | None => Fault NullImage
        | Some (pd, rc) =>
            if (1 <? rc)%nat
            then (let* copy := newImage pd in release img;; ret copy) hp
            else Ok (img, hp)
        end
  end.

(** [blurSingleChannelImage (Image&, int)]: the blur runs on the bytes the
    image refers to, with [2 * radius] repetitions, an [int] product. *)
Definition blurSingleChannelImage_Image (img : Image) (radius : Z) : W unit :=
  fun hp =>
    match img with
    | None => Fault NullImage
    | Some h =>
        match hp !! h with
        | None => Fault NullImage
        | Some (bm, rc) =>
            match blurSingleChannelImage 0 (width bm) (height bm) (lineStride bm)
                    (to_int32 (2 * radius)) (Mem (imageData bm) false) with
            | Ok (_, m') => Ok (tt, <[h := (withData bm (bytes m'), rc)]> hp)
            | Fault f => Fault f
            end
        end
    end.

(** ** The drawing context *)

(** [Graphics] is an opaque collaborator: the model keeps its clip bounds
    and the calls it receives, in order.  An image argument is recorded by
    the pixel data it refers to at the time of the call. *)
Inductive DrawCall : Type :=
| SetColour (c : Colour)
| SetGradientFill (cg : ColourGradient)
| SetOpacity (newOpacity : float)
| FillRect (area : Rectangle float)
| DrawImageAt (img : option ImagePixelData) (x y : Z)
              (fillAlphaChannelWithCurrentBrush : bool).

Record Graphics : Type := mkGraphics {
  clipBounds : Rectangle Z;
  calls : list DrawCall
}.

Definition issue (g : Graphics) (c : DrawCall) : Graphics :=
  mkGraphics (clipBounds g) (calls g ++ [c]).

(** Modelled from the spec: [Graphics::getClipBounds] is not under src/;
    "the context's current clip". *)
Definition getClipBounds (g : Graphics) : Rectangle Z := clipBounds g.

(** Modelled from the spec: [Graphics::setColour] (not under src/), recorded
    as a call. *)
Definition setColour (g : Graphics) (c : Colour) : Graphics :=
  issue g (SetColour c).

(** Modelled from the spec: [Graphics::setGradientFill] (not under src/),
    recorded as a call. *)
Definition setGradientFill (g : Graphics) (cg : ColourGradient) : Graphics :=
  issue g (SetGradientFill cg).

(** Modelled from the spec: [Graphics::setOpacity] (not under src/),
    recorded as a call. *)
Definition setOpacity (g : Graphics) (a : float) : Graphics :=
  issue g (SetOpacity a).

(** Modelled from the spec: [Graphics::fillRect] (not under src/), recorded
    as a call. *)
Definition fillRect (g : Graphics) (r : Rectangle float) : Graphics :=
  issue g (FillRect r).

(** Modelled from the spec: [Graphics::drawImageAt] (not under src/),
    recorded as a call with the pixel data the image refers to. *)
Definition drawImageAt (g : Graphics) (img : Image) (x y : Z) (fillAlpha : bool)
  : W Graphics :=
  fun hp =>
    let data := match img with
                | None => None
                | Some h => match hp !! h with
                            | Some (pd, _) => Some pd
                            | None => None
                            end
                end in
    Ok (issue g (DrawImageAt data x y fillAlpha), hp).

(** ** DropShadow (lines 249-337) *)

Record DropShadow : Type := mkDropShadow {
  colour : Colour;
  radius : Z;
  offset : Point Z
}.

(** [DropShadow::drawForImage] (lines 255-269).  [shadowImage] is a local
    [Image]: its reference is given back when the block ends. *)
Definition drawForImage (s : DropShadow) (g : Graphics) (srcImage : Image)
  : W Graphics :=
  if isValid srcImage then
    let* shadowImage := convertedToFormat_SingleChannel srcImage in
    let* shadowImage := duplicateIfShared shadowImage in
    blurSingleChannelImage_Image shadowImage (radius s);;
    let g := setColour g (colour s) in
    let* g := drawImageAt g shadowImage (pt_x (offset s)) (pt_y (offset s)) true in
    release shadowImage;;
    ret g
  else ret g.

(** [Path] is opaque.  [pathIntegerBounds p] stands for
    [p.getBounds().getSmallestIntegerContainer()], and [rasterise p tx ty]
    for the coverage that filling [p], translated by the [float]s
    [(tx, ty)], in white leaves in each pixel of a cleared single-channel
    image. *)
Section WithPath.
Context {Path : Type}.
Variable pathIntegerBounds : Path -> Rectangle Z.
Variable rasterise : Path -> float -> float -> Z -> Z -> Z.

(** The scratch area of [drawForPath] (lines 275-277). *)
Definition drawForPath_area (s : DropShadow) (g : Graphics) (path : Path)
  : Rectangle Z :=
  getIntersection
    (expanded (translated (pathIntegerBounds path) (offset s)) (radius s + 1))
    (expanded (getClipBounds g) (radius s + 1)).

(** [DropShadow::drawForPath] (lines 271-295).  [renderedPath] is created
    cleared and filled through the local context [g2] before anything reads
    it, so it enters the heap with the rasterised bytes.  The translation
    of the fill is [(float) (offset.x - area.getX())] and
    [(float) (offset.y - area.getY())]. *)
Definition drawForPath (s : DropShadow) (g : Graphics) (path : Path)
  : W Graphics :=
  let area := drawForPath_area s g path in
  if (2 <? getWidth area) && (2 <? getHeight area) then
    let blank := createPixelData SingleChannel (getWidth area) (getHeight area) in
    let* renderedPath :=
      newImage (withData blank
                  (raster (getWidth area) (getHeight area) (lineStride blank)
                     (rasterise path
                        (f32_of_int (pt_x (offset s) - getX area))
                        (f32_of_int (pt_y (offset s) - getY area))))) in
    blurSingleChannelImage_Image renderedPath (radius s);;
    let g := setColour g (colour s) in
    let* g := drawImageAt g renderedPath (getX area) (getY area) true in
    release renderedPath;;
    ret g
  else ret g.
End WithPath.

(** [drawShadowSection] (lines 297-306); the gradient is passed by
    reference, so the changed gradient is returned with the context. *)
Definition drawShadowSection (g : Graphics) (cg : ColourGradient)
    (area : Rectangle float) (isCorner : bool)
    (centreX centreY edgeX edgeY : float) : Graphics * ColourGradient :=
  let cg := mkGradient (getRelativePoint area centreX centreY)
                       (getRelativePoint area edgeX edgeY)
                       isCorner (colours cg) in
  let g := setGradientFill g cg in
  (fillRect g area, cg).

(** The loop [for (float i = 0.05f; i < 1.0f; i += 0.1f)] of
    [drawForRectangle]. *)
Fixpoint falloff_loop (fuel : nat) (c : Colour) (i : float) (cg : ColourGradient)
  : option ColourGradient :=
  match fuel with
  | O => None
  | S fuel' =>
      if SFltb i (f32_of_int 1) then
        let cg := addColour cg (f64_sub (f64_of_int 1) (f64_of_f32 i))
                    (withMultipliedAlpha c (f32_mul i i)) in
        falloff_loop fuel' c (f32_add i (f32_lit 1 10)) cg
      else Some cg
  end.

(** The gradient of lines 310-313. *)
Definition falloff_gradient (fuel : nat) (c : Colour) : option ColourGradient :=
  let zero := f32_of_int 0 in
  falloff_loop fuel c (f32_lit 5 100)
    (newColourGradient c zero zero (withAlpha c zero) zero zero false).

(** The nine areas of lines 315-336, in the order in which they are
    filled; the last one is the solid centre. *)
Record ShadowSections : Type := mkSections {
  topLeft : Rectangle float; topRight : Rectangle float; topEdge : Rectangle float;
  bottomLeft : Rectangle float; bottomRight : Rectangle float;
  bottomEdge : Rectangle float;
  leftEdge : Rectangle float; rightEdge : Rectangle float;
  centre : Rectangle float;
  outer : Rectangle float      (* [area.expanded (expandedRadius)] *)
}.

(** Lines 315-333: the rectangles that [drawForRectangle] cuts out of the
    expanded area. *)
Definition shadow_sections (s : DropShadow) (targetArea : Rectangle Z)
  : ShadowSections :=
  let radiusInset := f32_div (f32_of_int (radius s)) (f32_of_int 2) in
  let expandedRadius := f32_add (f32_of_int (radius s)) radiusInset in
  let area := translated (reduced (rect_toFloat targetArea) radiusInset)
                         (point_toFloat (offset s)) in
  let r := expanded area expandedRadius in
  let '(top, r1) := removeFromTop r expandedRadius in
  let '(bottom, r2) := removeFromBottom r1 expandedRadius in
  let '(tl, top1) := removeFromLeft top expandedRadius in
  let '(tr, top2) := removeFromRight top1 expandedRadius in
  let '(bl, bottom1) := removeFromLeft bottom expandedRadius in
  let '(br, bottom2) := removeFromRight bottom1 expandedRadius in
  let '(le, r3) := removeFromLeft r2 expandedRadius in
  let '(re, r4) := removeFromRight r3 expandedRadius in
  mkSections tl tr top2 bl br bottom2 le re area r.

(** Lines 324-336: the eight gradient fills and the solid fill of the
    centre. *)
Definition fill_sections (g : Graphics) (cg : ColourGradient)
    (sec : ShadowSections) (c : Colour) : Graphics :=
  let zero := f32_of_int 0 in
  let one := f32_of_int 1 in
  let '(g, cg) := drawShadowSection g cg (topLeft sec) true one one zero one in
  let '(g, cg) := drawShadowSection g cg (topRight sec) true zero one one one in
  let '(g, cg) := drawShadowSection g cg (topEdge sec) false zero one zero zero in
  let '(g, cg) := drawShadowSection g cg (bottomLeft sec) true one zero zero zero in
  let '(g, cg) := drawShadowSection g cg (bottomRight sec) true zero zero one zero in
  let '(g, cg) := drawShadowSection g cg (bottomEdge sec) false zero zero zero one in
  let '(g, cg) := drawShadowSection g cg (leftEdge sec) false one zero zero zero in
  let '(g, cg) := drawShadowSection g cg (rightEdge sec) false zero zero one zero in
  let g := setColour g c in
  fillRect g (centre sec).

(** [DropShadow::drawForRectangle] (lines 308-337): the gradient, the
    areas, the fills. *)
Definition drawForRectangle (s : DropShadow) (g : Graphics)
    (targetArea : Rectangle Z) : result Graphics :=
  match falloff_gradient 64 (colour s) with
  | None => Fault OutOfFuel
  | Some cg =>
      Ok (fill_sections g cg (shadow_sections s targetArea) (colour s))
  end.

(** ** DropShadowEffect (lines 340-360) *)

Record DropShadowEffect : Type := mkEffect { shadow : DropShadow }.

Definition setShadowProperties (e : DropShadowEffect) (newShadow : DropShadow)
  : DropShadowEffect := mkEffect newShadow.

(** [DropShadowEffect::applyEffect] (lines 348-360): the four assignments
    to the copy [s], then the two draws. *)
Definition applyEffect (e : DropShadowEffect) (image : Image) (g : Graphics)
    (scaleFactor alpha : float) : W Graphics :=
  let s := shadow e in
  let s := mkDropShadow (colour s)
             (roundToInt (f32_mul (f32_of_int (radius s)) scaleFactor))
             (offset s) in
  let s := mkDropShadow (withMultipliedAlpha (colour s) alpha)
             (radius s) (offset s) in
  let s := mkDropShadow (colour s) (radius s)
             (mkPoint (roundToInt (f32_mul (f32_of_int (pt_x (offset s))) scaleFactor))
                      (pt_y (offset s))) in
  let s := mkDropShadow (colour s) (radius s)
             (mkPoint (pt_x (offset s))
                      (roundToInt (f32_mul (f32_of_int (pt_y (offset s))) scaleFactor))) in
  let* g := drawForImage s g image in
  let g := setOpacity g alpha in
  drawImageAt g image 0 0 false.

(** A valid two by two single-channel image, alone in the heap. *)
Definition two_by_two : Heap :=
  {[ 0%nat := (createPixelData SingleChannel 2 2, 1%nat) ]}.

(** A three by three single-channel image with one lit pixel in the
    middle, and a heap in which it has two owners. *)
Definition dot_image : ImagePixelData :=
  withData (createPixelData SingleChannel 3 3)
    [0; 0; 0; 0;  0; 90; 0; 0;  0; 0; 0; 0].

Definition dot_heap : Heap := {[ 0%nat := (dot_image, 2%nat) ]}.

(** The scratch area as the specification words it: the clip bounds enter
    the intersection as they are. *)
Definition claimed_area {Path : Type} (pathIntegerBounds : Path -> Rectangle Z)
    (s : DropShadow) (g : Graphics) (path : Path) : Rectangle Z :=
  getIntersection
    (expanded (translated (pathIntegerBounds path) (offset s)) (radius s + 1))
    (getClipBounds g).

(** The value of the loop variable [i] of lines 312-313 in iteration [k],
    counted from 0, and the stops the loop leaves between the two end
    stops of the constructor. *)
Definition falloff_step (k : nat) : float :=
  Nat.iter k (fun i => f32_add i (f32_lit 1 10)) (f32_lit 5 100).

Definition falloff_stops (c : Colour) : list (double * Colour) :=
  (f64_of_int 0, c)
  :: map (fun k => (f64_sub (f64_of_int 1) (f64_of_f32 (falloff_step k)),
                    withMultipliedAlpha c
                      (f32_mul (falloff_step k) (falloff_step k))))
         [9; 8; 7; 6; 5; 4; 3; 2; 1; 0]%nat
  ++ [(f64_of_int 1, withAlpha c (f32_of_int 0))].

Definition is_gradient_with (stops : list (double * Colour)) (c : DrawCall)
  : Prop :=
  match c with
  | SetGradientFill cg => colours cg = stops
  | _ => True
  end.

(** ** Floats that are exact *)

(** [canon K e] is the binary32 value of [K * 2^e] for an integer [K] of
    fewer than 24 bits: the mantissa is [K] shifted to 24 bits. *)
Definition canon (K e : Z) : float :=
  if K =? 0 then S754_zero false
  else
    let d := Z.log2 (Z.abs K) + 1 in
    S754_finite (K <? 0) (Z.to_pos (Z.abs K * 2 ^ (24 - d))) (d + e - 24).

(** The float of the half-integer [K / 2]. *)
Definition half (K : Z) : float := canon K (-1).

(** What the specification compares [applyEffect] with: [drawForImage] with
    the stored shadow, then the source image at the origin at full
    opacity. *)
Definition shadow_then_image (s : DropShadow) (image : Image) (g : Graphics)
  : W Graphics :=
  let* g := drawForImage s g image in
  let g := setOpacity g (f32_of_int 1) in
  drawImageAt g image 0 0 false.

(** The calls a run has issued, if it returned. *)
Definition issued (r : result (Graphics * Heap)) : option (list DrawCall) :=
  match r with
  | Ok (g, _) => Some (calls g)
  | Fault _ => None
  end.

(** A float rectangle given in half units. *)
Definition hrect (r : Rectangle Z) : Rectangle float :=
  mkRect (half (rx r)) (half (ry r)) (half (rw r)) (half (rh r)).

(** The nine areas of [drawForRectangle] in exact arithmetic, in half
    units, for a target area [t], radius [r] and offset [(ox, oy)]. *)
Definition sections_exact (t : Rectangle Z) (r ox oy : Z) : ShadowSections :=
  let X0 := 2 * rx t + 2 * ox - 2 * r in
  let Y0 := 2 * ry t + 2 * oy - 2 * r in
  let W0 := 2 * rw t + 4 * r in
  let H0 := 2 * rh t + 4 * r in
  let e := 3 * r in
  mkSections
    (hrect (mkRect X0 Y0 e e))
    (hrect (mkRect (X0 + W0 - e) Y0 e e))
    (hrect (mkRect (X0 + e) Y0 (W0 - 2 * e) e))
    (hrect (mkRect X0 (Y0 + H0 - e) e e))
    (hrect (mkRect (X0 + W0 - e) (Y0 + H0 - e) e e))
    (hrect (mkRect (X0 + e) (Y0 + H0 - e) (W0 - 2 * e) e))
    (hrect (mkRect X0 (Y0 + e) e (H0 - 2 * e)))
    (hrect (mkRect (X0 + W0 - e) (Y0 + e) e (H0 - 2 * e)))
    (hrect (mkRect (X0 + e) (Y0 + e) (W0 - 2 * e) (H0 - 2 * e)))
    (hrect (mkRect X0 Y0 W0 H0)).

(** The areas in filling order. *)
Definition regions (sec : ShadowSections) : list (Rectangle float) :=
  [topLeft sec; topRight sec; topEdge sec;
   bottomLeft sec; bottomRight sec; bottomEdge sec;
   leftEdge sec; rightEdge sec; centre sec].

(** The nine areas tile the outer rectangle: a point lies in the outer
    rectangle exactly when some area covers it, and no point is covered by
    two of them. *)
Definition tiles (sec : ShadowSections) : Prop :=
  forall x y : Q,
    (covers (outer sec) x y <->
       exists i r, regions sec !! i = Some r /\ covers r x y)
    /\ (forall (i j : nat) r1 r2,
          regions sec !! i = Some r1 -> regions sec !! j = Some r2 ->
          covers r1 x y -> covers r2 x y -> i = j).

(** The rectangles a context was asked to fill, in order. *)
Definition filled (cs : list DrawCall) : list (Rectangle float) :=
  omap (fun c => match c with FillRect r => Some r | _ => None end) cs.

(** ** Auxiliary notions of the further properties *)

(** A computation keeps the length of the buffer when every run of it that
    returns does. *)
Definition keeps_length {A} (c : M A) : Prop :=
  forall m a m', c m = Ok (a, m') -> length (bytes m') = length (bytes m).

(** A buffer of bytes holds an image of [h > 2] rows of [w > 2] pixels,
    the rows [stride >= w] apart from offset [data] on, and the offset of
    the last row is an [int]. *)
Definition image_in_buffer (m : list Z) (data w h stride : Z) : Prop :=
  2 < w /\ 2 < h /\ w <= stride /\ 0 <= data
  /\ stride * (h - 1) < 2 ^ 31
  /\ data + stride * (h - 1) + w <= Z.of_nat (length m)
  /\ bytes_ok m.



(** The gradients a context was asked to fill with, in order. *)
Definition gradient_fills (cs : list DrawCall) : list ColourGradient :=
  omap (fun c => match c with SetGradientFill cg => Some cg | _ => None end) cs.

(** A gradient runs outwards from [inner] over [len]: it starts on a
    corner of [inner] and ends [len] further out, straight to the left, to
    the right, up or down. *)
Definition runs_outwards (inner : Rectangle float) (len : Q)
    (cg : ColourGradient) : Prop :=
  let x1 := F2Q (pt_x (point1 cg)) in
  let y1 := F2Q (pt_y (point1 cg)) in
  let x2 := F2Q (pt_x (point2 cg)) in
  let y2 := F2Q (pt_y (point2 cg)) in
  let l := F2Q (rx inner) in
  let r := (F2Q (rx inner) + F2Q (rw inner))%Q in
  let t := F2Q (ry inner) in
  let b := (F2Q (ry inner) + F2Q (rh inner))%Q in
  ((x1 == l \/ x1 == r) /\ (y1 == t \/ y1 == b)
   /\ ((y2 == y1 /\ (x1 == l /\ x2 == l - len \/ x1 == r /\ x2 == r + len))
       \/ (x2 == x1 /\ (y1 == t /\ y2 == t - len \/ y1 == b /\ y2 == b + len))))%Q.

(** The alpha that [withMultipliedAlpha] leaves in a colour of alpha [a]. *)
Definition multiplied_alpha (a : Z) (m : float) : Z :=
  alpha (withMultipliedAlpha (mkColour a 0 0 0) m).

(** The weights [i * i] of the ten passes through the loop of lines
    312-313, the first pass first. *)
Definition falloff_weights : list float :=
  map (fun k => f32_mul (falloff_step k) (falloff_step k)) (seq 0 10).

(** The position and the alpha of every stop of the falloff gradient, for
    a shadow colour of alpha [a] and the given weights. *)
Definition stop_profile (weights : list float) (a : Z) : list (double * Z) :=
  (f64_of_int 0, a)
  :: reverse (imap (fun k m => (f64_sub (f64_of_int 1)
                                  (f64_of_f32 (falloff_step k)),
                                multiplied_alpha a m)) weights)
  ++ [(f64_of_int 1, 0)].

(** [R] holds from every element of the list to every later one. *)
Fixpoint pairwiseb {A} (R : A -> A -> bool) (l : list A) : bool :=
  match l with
  | [] => true
  | x :: l' => forallb (R x) l' && pairwiseb R l'
  end.

(** A later stop lies further along and is no more opaque. *)
Definition fadesb (p q : double * Z) : bool :=
  match Qcompare (F2Q (fst p)) (F2Q (fst q)) with
  | Lt => snd q <=? snd p
  | _ => false
  end.

(** The alpha of pass [k] is [i * i * a] for [i = 0.05 + 0.1 k], rounded
    to the nearest integer. *)
Definition quadraticb (a : Z) (k : nat) (m : float) : bool :=
  Z.abs (10000 * multiplied_alpha a m - (5 + 10 * Z.of_nat k) ^ 2 * a) <=? 5000.

(** * Properties *)

Lemma in_bounds_spec (m : list Z) (i : Z) :
  in_bounds m i = true <-> 0 <= i < Z.of_nat (length m).
Proof. unfold in_bounds. rewrite andb_true_iff, Z.leb_le, Z.ltb_lt. tauto. Qed.

Lemma peek_insert (m : list Z) (i j v : Z) :
  in_bounds m i = true ->
  peek (<[Z.to_nat i := v]> m) j = if j =? i then v else peek m j.
Proof.
  intros Hi. apply in_bounds_spec in Hi.
  unfold peek, in_bounds. rewrite length_insert.
  destruct (Z.eqb_spec j i) as [->|Hne].
  - replace ((0 <=? i) && (i <? Z.of_nat (length m))) with true
      by (symmetry; apply andb_true_iff; split; [apply Z.leb_le | apply Z.ltb_lt]; lia).
    rewrite list_lookup_insert_eq by lia. reflexivity.
  - destruct ((0 <=? j) && (j <? Z.of_nat (length m))) eqn:Hj; [|reflexivity].
    apply andb_true_iff in Hj as [Hj1 Hj2].
    apply Z.leb_le in Hj1. apply Z.ltb_lt in Hj2.
    rewrite list_lookup_insert_ne by lia. reflexivity.
Qed.

Lemma peek_range (m : list Z) (i : Z) : bytes_ok m -> 0 <= peek m i < 256.
Proof.
  intros Hm. unfold peek. destruct (in_bounds m i) eqn:Hi; [|lia].
  apply in_bounds_spec in Hi.
  destruct (m !! Z.to_nat i) as [b|] eqn:Hb; simpl; [|lia].
  unfold bytes_ok in Hm. rewrite Forall_lookup in Hm. exact (Hm _ _ Hb).
Qed.

Lemma bytes_ok_insert (m : list Z) (n : nat) (v : Z) :
  bytes_ok m -> 0 <= v < 256 -> bytes_ok (<[n := v]> m).
Proof. intros Hm Hv. apply Forall_insert; assumption. Qed.

(** *** Arithmetic of the averages *)

Lemma avg3_exact (a b c : Z) :
  0 <= a < 256 -> 0 <= b < 256 -> 0 <= c < 256 ->
  to_uint32 (a + b + c + 1) ÷ 3 = (a + b + c + 1) / 3 /\
  0 <= (a + b + c + 1) / 3 < 256.
Proof.
  intros Ha Hb Hc. unfold to_uint32.
  rewrite Z.mod_small by lia.
  rewrite Z.quot_div_nonneg by lia.
  split; [reflexivity|].
  split; [apply Z.div_pos; lia | apply Z.div_lt_upper_bound; lia].
Qed.

Lemma avg2_exact (a b : Z) :
  0 <= a < 256 -> 0 <= b < 256 ->
  (a + b + 1) ÷ 3 = (a + b + 1) / 3 /\
  to_uint32 (a + b + 1) ÷ 3 = (a + b + 1) / 3 /\
  0 <= (a + b + 1) / 3 < 256.
Proof.
  intros Ha Hb. unfold to_uint32.
  rewrite Z.mod_small by lia.
  rewrite Z.quot_div_nonneg by lia.
  repeat split; try reflexivity;
    [apply Z.div_pos; lia | apply Z.div_lt_upper_bound; lia].
Qed.

Lemma to_uint8_small (v : Z) : 0 <= v < 256 -> to_uint8 v = v.
Proof. intros Hv. unfold to_uint8. apply Z.mod_small; lia. Qed.

Lemma to_int32_small (v : Z) : - 2 ^ 31 <= v < 2 ^ 31 -> to_int32 v = v.
Proof. intros Hv. unfold to_int32. rewrite Z.mod_small by lia. lia. Qed.

(** The offset of a row is an [int] when the offset of the last row is. *)
Lemma row_offset (stride h y : Z) :
  0 <= stride -> stride * (h - 1) < 2 ^ 31 -> 0 <= y < h ->
  to_int32 (stride * y) = stride * y.
Proof.
  intros Hs Hlast Hy. apply to_int32_small.
  assert (0 <= stride * y <= stride * (h - 1)) by nia. lia.
Qed.

(** *** Single loads and stores *)

Lemma load_ok (m : list Z) (l : bool) (i : Z) :
  in_bounds m i = true -> load i (Mem m l) = Ok (peek m i, Mem m l).
Proof. intros Hi. unfold load. simpl. rewrite Hi. reflexivity. Qed.

Lemma store_ok (m : list Z) (l : bool) (i v : Z) :
  in_bounds m i = true -> 0 <= v < 256 ->
  store_u8 i v (Mem m l) = Ok (tt, Mem (<[Z.to_nat i := v]> m) l).
Proof.
  intros Hi Hv. unfold store_u8. simpl. rewrite Hi.
  rewrite to_uint8_small by assumption.
  rewrite Z.eqb_refl. simpl. rewrite orb_false_r. reflexivity.
Qed.

Lemma in_bounds_length (m1 m2 : list Z) (i : Z) :
  length m1 = length m2 -> in_bounds m1 i = in_bounds m2 i.
Proof. intros H. unfold in_bounds. rewrite H. reflexivity. Qed.

(** Replacing sample [k] by its average extends a partial result. *)
Lemma partial_step (m0 : list Z) (d delta n k : Z) (mk : list Z) :
  delta <> 0 -> 0 <= k < n ->
  in_bounds m0 (d + k * delta) = true ->
  partial m0 d delta n k mk ->
  partial m0 d delta n (k + 1)
    (<[Z.to_nat (d + k * delta) :=
         tap3 n (fun j => peek m0 (d + j * delta)) k]> mk).
Proof.
  intros Hdelta Hk Hin (Hlen & Hdone & Hrest).
  assert (Hin' : in_bounds mk (d + k * delta) = true)
    by (rewrite (in_bounds_length mk m0) by assumption; assumption).
  split; [rewrite length_insert; assumption|]. split.
  - intros i Hi. rewrite peek_insert by assumption.
    destruct (Z.eqb_spec (d + i * delta) (d + k * delta)) as [Heq|Hne].
    + assert (i = k) by nia. subst i. reflexivity.
    + apply Hdone. assert (i <> k) by (intros ->; lia). lia.
  - intros j Hj. rewrite peek_insert by assumption.
    destruct (Z.eqb_spec j (d + k * delta)) as [->|Hne].
    + exfalso. apply (Hj k); [lia | reflexivity].
    + apply Hrest. intros i Hi. apply Hj. lia.
Qed.

Lemma partial_peek_todo (m0 : list Z) (d delta n k : Z) (mk : list Z) (i : Z) :
  delta <> 0 -> partial m0 d delta n k mk -> k <= i ->
  peek mk (d + i * delta) = peek m0 (d + i * delta).
Proof.
  intros Hdelta (_ & _ & Hrest) Hi. apply Hrest.
  intros i' Hi' Heq. assert (i = i') by nia. lia.
Qed.

Lemma tap3_interior (n : Z) (f : Z -> Z) (i : Z) :
  1 <= i <= n - 2 -> tap3 n f i = (f (i - 1) + f i + f (i + 1) + 1) / 3.
Proof.
  intros Hi. unfold tap3.
  repeat match goal with
  | |- context [(0 <=? ?x) && (?x <? n)] =>
      replace ((0 <=? x) && (x <? n)) with true
        by (symmetry; apply andb_true_iff; split;
            [apply Z.leb_le | apply Z.ltb_lt]; lia)
  end.
  reflexivity.
Qed.

Lemma tap3_first (n : Z) (f : Z -> Z) :
  2 <= n -> tap3 n f 0 = (f 0 + f 1 + 1) / 3.
Proof.
  intros Hn. unfold tap3.
  replace (0 <=? 0 - 1) with false by reflexivity.
  replace (0 <=? 0) with true by reflexivity.
  replace (0 <=? 0 + 1) with true by reflexivity.
  replace (0 <? n) with true by (symmetry; apply Z.ltb_lt; lia).
  replace (0 + 1 <? n) with true by (symmetry; apply Z.ltb_lt; lia).
  reflexivity.
Qed.

Lemma tap3_last (n : Z) (f : Z -> Z) :
  2 <= n -> tap3 n f (n - 1) = (f (n - 2) + f (n - 1) + 1) / 3.
Proof.
  intros Hn. unfold tap3.
  replace (n - 1 - 1) with (n - 2) by lia.
  replace (n - 1 + 1) with n by lia.
  replace (0 <=? n - 1) with true by (symmetry; apply Z.leb_le; lia).
  replace (n - 1 <? n) with true by (symmetry; apply Z.ltb_lt; lia).
  replace (0 <=? n - 2) with true by (symmetry; apply Z.leb_le; lia).
  replace (n - 2 <? n) with true by (symmetry; apply Z.ltb_lt; lia).
  rewrite Z.ltb_irrefl, andb_false_r. simpl. f_equal. lia.
Qed.

Lemma tap3_range (n : Z) (f : Z -> Z) (i : Z) :
  (forall j, 0 <= f j < 256) -> 0 <= tap3 n f i < 256.
Proof.
  intros Hf. unfold tap3.
  destruct ((0 <=? i) && (i <? n)); [|lia].
  assert (Hg : forall j, 0 <= (if (0 <=? j) && (j <? n) then f j else 0) < 256).
  { intros j. destruct ((0 <=? j) && (j <? n)); [apply Hf | lia]. }
  assert (Hdiv : forall a b c, 0 <= a < 256 -> 0 <= b < 256 -> 0 <= c < 256 ->
                               0 <= (a + b + c + 1) / 3 < 256).
  { intros a b c Ha Hb Hc.
    split; [apply Z.div_pos; lia | apply Z.div_lt_upper_bound; lia]. }
  apply Hdiv; first [apply Hg | apply Hf].
Qed.

(** *** The do-while loop *)

Lemma blur_loop_spec (m0 : list Z) (l : bool) (d n delta : Z) :
  3 <= n -> delta <> 0 ->
  (forall i, 0 <= i < n -> in_bounds m0 (d + i * delta) = true) ->
  bytes_ok m0 ->
  forall (fuel : nat) (k : Z) (mk : list Z),
    1 <= k <= n - 2 -> n - 1 - k <= Z.of_nat fuel ->
    partial m0 d delta n k mk -> bytes_ok mk ->
    exists m',
      blur_loop fuel (d + k * delta) (n - 1 - k) delta
        (peek m0 (d + (k - 1) * delta)) (Mem mk l)
      = Ok ((d + (n - 1) * delta, peek m0 (d + (n - 2) * delta)), Mem m' l)
      /\ partial m0 d delta n (n - 1) m' /\ bytes_ok m'.
Proof.
  intros Hn Hdelta Hin Hm0.
  induction fuel as [|fuel IH]; intros k mk Hk Hfuel Hpart Hmk; [lia|].
  pose proof Hpart as (Hlen & _ & _).
  assert (Hink : in_bounds mk (d + k * delta) = true)
    by (rewrite (in_bounds_length mk m0) by assumption; apply Hin; lia).
  assert (Hink1 : in_bounds mk (d + k * delta + delta) = true).
  { rewrite (in_bounds_length mk m0) by assumption.
    replace (d + k * delta + delta) with (d + (k + 1) * delta) by lia.
    apply Hin; lia. }
  assert (Hcur : peek mk (d + k * delta) = peek m0 (d + k * delta))
    by (apply (partial_peek_todo m0 d delta n k); [assumption..|lia]).
  assert (Hnext : peek mk (d + k * delta + delta) = peek m0 (d + (k + 1) * delta)).
  { replace (d + k * delta + delta) with (d + (k + 1) * delta) by lia.
    apply (partial_peek_todo m0 d delta n k); [assumption..|lia]. }
  pose proof (peek_range m0 (d + (k - 1) * delta) Hm0) as Ha.
  pose proof (peek_range m0 (d + k * delta) Hm0) as Hb.
  pose proof (peek_range m0 (d + (k + 1) * delta) Hm0) as Hc.
  destruct (avg3_exact _ _ _ Ha Hb Hc) as [Havg Hrange].
  cbn [blur_loop]. unfold bind at 1. rewrite (load_ok _ _ _ Hink).
  unfold bind at 1. rewrite (load_ok _ _ _ Hink).
  unfold bind at 1. rewrite (load_ok _ _ _ Hink1).
  rewrite Hcur, Hnext, Havg.
  unfold bind at 1. rewrite (store_ok _ _ _ _ Hink Hrange).
  assert (Htap : (peek m0 (d + (k - 1) * delta) + peek m0 (d + k * delta)
                  + peek m0 (d + (k + 1) * delta) + 1) / 3
                 = tap3 n (fun j => peek m0 (d + j * delta)) k)
    by (rewrite tap3_interior by lia; reflexivity).
  rewrite Htap.
  assert (Hpart' := partial_step m0 d delta n k mk Hdelta ltac:(lia)
                      (Hin k ltac:(lia)) Hpart).
  assert (Hmk' : bytes_ok (<[Z.to_nat (d + k * delta) :=
                   tap3 n (fun j => peek m0 (d + j * delta)) k]> mk))
    by (apply bytes_ok_insert; [assumption | rewrite <- Htap; assumption]).
  destruct (Z.ltb_spec 0 (n - 1 - k - 1)) as [Hmore|Hdone].
  - replace (d + k * delta + delta) with (d + (k + 1) * delta) by lia.
    replace (n - 1 - k - 1) with (n - 1 - (k + 1)) by lia.
    replace (peek m0 (d + k * delta))
      with (peek m0 (d + (k + 1 - 1) * delta)) by (f_equal; lia).
    apply IH; [lia | lia | assumption | assumption].
  - assert (k = n - 2) by lia. subst k.
    eexists. split; [|split; [|eassumption]].
    + unfold ret.
      replace (d + (n - 2) * delta + delta) with (d + (n - 1) * delta) by lia.
      reflexivity.
    + replace (n - 1) with (n - 2 + 1) by lia. exact Hpart'.
Qed.

Lemma partial_zero (m0 : list Z) (d delta n : Z) : partial m0 d delta n 0 m0.
Proof.
  split; [reflexivity|]. split; [intros i Hi; lia | intros j _; reflexivity].
Qed.

(** *** One call of [blurDataTriplets] *)

Lemma blurDataTriplets_line (m : list Z) (l : bool) (d n delta : Z) :
  3 <= n -> delta <> 0 ->
  (forall i, 0 <= i < n -> in_bounds m (d + i * delta) = true) ->
  bytes_ok m ->
  exists m',
    blurDataTriplets d n delta (Mem m l) = Ok (tt, Mem m' l)
    /\ partial m d delta n n m' /\ bytes_ok m'.
Proof.
  intros Hn Hdelta Hin Hm.
  assert (Hin0 : in_bounds m d = true)
    by (replace d with (d + 0 * delta) by lia; apply Hin; lia).
  assert (Hin1 : in_bounds m (d + delta) = true)
    by (replace (d + delta) with (d + 1 * delta) by lia; apply Hin; lia).
  pose proof (peek_range m d Hm) as Ha.
  pose proof (peek_range m (d + delta) Hm) as Hb.
  destruct (avg2_exact _ _ Ha Hb) as (Havg & _ & Hrange).
  unfold blurDataTriplets.
  unfold bind at 1. rewrite (load_ok _ _ _ Hin0).
  unfold bind at 1. rewrite (load_ok _ _ _ Hin0).
  unfold bind at 1. rewrite (load_ok _ _ _ Hin1).
  rewrite Havg.
  unfold bind at 1. rewrite (store_ok _ _ _ _ Hin0 Hrange).
  assert (Htap0 : (peek m d + peek m (d + delta) + 1) / 3
                  = tap3 n (fun j => peek m (d + j * delta)) 0).
  { rewrite tap3_first by lia.
    replace (d + 0 * delta) with d by lia.
    replace (d + 1 * delta) with (d + delta) by lia. reflexivity. }
  assert (Hpart1 : partial m d delta n 1
                     (<[Z.to_nat d := (peek m d + peek m (d + delta) + 1) / 3]> m)).
  { rewrite Htap0.
    pose proof (partial_step m d delta n 0 m Hdelta ltac:(lia)
                  (Hin 0 ltac:(lia)) (partial_zero m d delta n)) as H.
    replace (d + 0 * delta) with d in H by lia. exact H. }
  assert (Hm1 : bytes_ok (<[Z.to_nat d := (peek m d + peek m (d + delta) + 1) / 3]> m))
    by (apply bytes_ok_insert; assumption).
  destruct (blur_loop_spec m l d n delta Hn Hdelta Hin Hm
              (S (Z.to_nat (n - 2))) 1 _ ltac:(lia) ltac:(lia) Hpart1 Hm1)
    as (m2 & Hloop & Hpart2 & Hm2).
  replace (d + 1 * delta) with (d + delta) in Hloop by lia.
  replace (n - 1 - 1) with (n - 2) in Hloop by lia.
  replace (d + (1 - 1) * delta) with d in Hloop by lia.
  unfold bind at 1. rewrite Hloop.
  pose proof Hpart2 as (Hlen2 & _ & _).
  assert (Hinl : in_bounds m2 (d + (n - 1) * delta) = true)
    by (rewrite (in_bounds_length m2 m) by assumption; apply Hin; lia).
  assert (Hlast : peek m2 (d + (n - 1) * delta) = peek m (d + (n - 1) * delta))
    by (apply (partial_peek_todo m d delta n (n - 1)); [assumption..|lia]).
  pose proof (peek_range m (d + (n - 2) * delta) Hm) as Hy.
  pose proof (peek_range m (d + (n - 1) * delta) Hm) as Hz.
  destruct (avg2_exact _ _ Hy Hz) as (_ & Havg2 & Hrange2).
  unfold bind at 1. rewrite (load_ok _ _ _ Hinl).
  rewrite Hlast, Havg2, (store_ok _ _ _ _ Hinl Hrange2).
  assert (Htapn : (peek m (d + (n - 2) * delta) + peek m (d + (n - 1) * delta) + 1) / 3
                  = tap3 n (fun j => peek m (d + j * delta)) (n - 1))
    by (rewrite tap3_last by lia; reflexivity).
  eexists. split; [reflexivity|]. split.
  - rewrite Htapn.
    pose proof (partial_step m d delta n (n - 1) m2 Hdelta ltac:(lia)
                  (Hin (n - 1) ltac:(lia)) Hpart2) as H.
    replace (n - 1 + 1) with n in H by lia. exact H.
  - apply bytes_ok_insert; assumption.
Qed.

(** *** Repeated passes over one line *)

Lemma tap3_ext (n : Z) (f f' : Z -> Z) (i : Z) :
  (forall j, 0 <= j < n -> f j = f' j) -> tap3 n f i = tap3 n f' i.
Proof.
  intros H. unfold tap3.
  assert (Hg : forall j, (if (0 <=? j) && (j <? n) then f j else 0)
                         = (if (0 <=? j) && (j <? n) then f' j else 0)).
  { intros j. destruct ((0 <=? j) && (j <? n)) eqn:Hj; [|reflexivity].
    apply andb_true_iff in Hj as [H1 H2].
    apply Z.leb_le in H1. apply Z.ltb_lt in H2. apply H; lia. }
  rewrite !Hg. reflexivity.
Qed.

Lemma passes_ext (k : nat) (n : Z) (f f' : Z -> Z) (i : Z) :
  0 <= i < n ->
  (forall j, 0 <= j < n -> f j = f' j) -> passes k n f i = passes k n f' i.
Proof.
  intros Hi H. revert i Hi. induction k as [|k IH]; intros i Hi.
  - apply H; assumption.
  - unfold passes in *. simpl. apply tap3_ext. exact IH.
Qed.

Lemma passes_succ_r (k : nat) (n : Z) (f : Z -> Z) :
  passes (S k) n f = passes k n (tap3 n f).
Proof. unfold passes. apply Nat.iter_succ_r. Qed.

Lemma repeat_line (m : list Z) (l : bool) (d n delta : Z) (k : nat) :
  3 <= n -> delta <> 0 ->
  (forall i, 0 <= i < n -> in_bounds m (d + i * delta) = true) ->
  bytes_ok m ->
  exists m',
    repeatM k (blurDataTriplets d n delta) (Mem m l) = Ok (tt, Mem m' l)
    /\ length m' = length m
    /\ (forall i, 0 <= i < n ->
          peek m' (d + i * delta)
          = passes k n (fun j => peek m (d + j * delta)) i)
    /\ (forall j, (forall i, 0 <= i < n -> j <> d + i * delta) ->
          peek m' j = peek m j)
    /\ bytes_ok m'.
Proof.
  intros Hn Hdelta. revert m.
  induction k as [|k IH]; intros m Hin Hm.
  - exists m. repeat split; try reflexivity; assumption.
  - destruct (blurDataTriplets_line m l d n delta Hn Hdelta Hin Hm)
      as (m1 & Hrun1 & (Hlen1 & Hline1 & Hrest1) & Hm1).
    assert (Hin1 : forall i, 0 <= i < n -> in_bounds m1 (d + i * delta) = true)
      by (intros i Hi; rewrite (in_bounds_length m1 m) by assumption;
          apply Hin; assumption).
    destruct (IH m1 Hin1 Hm1) as (m2 & Hrun2 & Hlen2 & Hline2 & Hrest2 & Hm2).
    exists m2. split; [|split; [|split; [|split]]].
    + cbn [repeatM]. unfold bind. rewrite Hrun1. exact Hrun2.
    + congruence.
    + intros i Hi. rewrite Hline2 by assumption.
      rewrite passes_succ_r. apply passes_ext; [assumption|].
      intros j Hj. apply Hline1. assumption.
    + intros j Hj. rewrite Hrest2 by assumption. apply Hrest1. assumption.
    + assumption.
Qed.

(** *** A family of disjoint lines *)

Lemma lines_done_zero (m0 : list Z) (base : Z -> Z) (delta n : Z) (k : nat) :
  lines_done m0 base delta n k 0 m0.
Proof.
  split; [reflexivity|]. split; [intros t i Ht; lia | intros j _; reflexivity].
Qed.

Lemma lines_loop (m0 : list Z) (l : bool) (base : Z -> Z) (delta n : Z)
    (k : nat) (total : Z) :
  3 <= n -> delta <> 0 ->
  (forall t i, 0 <= t < total -> 0 <= i < n ->
     in_bounds m0 (base t + i * delta) = true) ->
  (forall t i t' i', 0 <= t < total -> 0 <= i < n ->
     0 <= t' < total -> 0 <= i' < n ->
     base t + i * delta = base t' + i' * delta -> t = t') ->
  forall (c : nat) (s : Z) (m : list Z),
    0 <= s -> s + Z.of_nat c = total ->
    lines_done m0 base delta n k s m -> bytes_ok m ->
    exists m',
      forM (seqZ s (Z.of_nat c))
        (fun t => repeatM k (blurDataTriplets (base t) n delta)) (Mem m l)
      = Ok (tt, Mem m' l)
      /\ lines_done m0 base delta n k total m' /\ bytes_ok m'.
Proof.
  intros Hn Hdelta Hin Hinj.
  induction c as [|c IH]; intros s m Hs Htotal Hdone Hm.
  - exists m. simpl. replace total with s by lia. auto.
  - rewrite Nat2Z.inj_succ, seqZ_cons by lia.
    replace (Z.pred (Z.succ (Z.of_nat c))) with (Z.of_nat c) by lia.
    pose proof Hdone as (Hlen & Hold & Hrest).
    assert (Hins : forall i, 0 <= i < n -> in_bounds m (base s + i * delta) = true)
      by (intros i Hi; rewrite (in_bounds_length m m0) by assumption;
          apply Hin; lia).
    destruct (repeat_line m l (base s) n delta k Hn Hdelta Hins Hm)
      as (m1 & Hrun1 & Hlen1 & Hline1 & Hrest1 & Hm1).
    assert (Hdone1 : lines_done m0 base delta n k (Z.succ s) m1).
    { split; [congruence|]. split.
      - intros t i Ht Hi.
        destruct (Z.eq_dec t s) as [->|Hts].
        + rewrite Hline1 by assumption. apply passes_ext; [assumption|].
          intros j Hj. apply Hrest. intros t' i' Ht' Hi' Heq.
          assert (s = t') by (apply (Hinj s j t' i'); [lia..|assumption]). lia.
        + rewrite Hrest1.
          * apply Hold; lia.
          * intros i' Hi' Heq.
            apply Hts. apply (Hinj t i s i'); [lia..|assumption].
      - intros j Hj. rewrite Hrest1.
        + apply Hrest. intros t i Ht Hi. apply Hj; lia.
        + intros i Hi. apply Hj; lia. }
    destruct (IH (Z.succ s) m1 ltac:(lia) ltac:(lia) Hdone1 Hm1)
      as (m2 & Hrun2 & Hdone2 & Hm2).
    exists m2. split; [|split; assumption].
    cbn [forM]. unfold bind. rewrite Hrun1. exact Hrun2.
Qed.

(** *** Rows, then columns *)

Lemma forM_ext (l : list Z) (f g : Z -> M unit) :
  (forall x, x ∈ l -> f x = g x) -> forM l f = forM l g.
Proof.
  induction l as [|x l IH]; intros H; [reflexivity|].
  cbn [forM]. rewrite (H x) by (left).
  rewrite IH by (intros y Hy; apply H; right; exact Hy). reflexivity.
Qed.

Lemma hpass_iter (k : nat) (w : Z) (img : image) (x y : Z) :
  Nat.iter k (hpass w) img x y = passes k w (fun x' => img x' y) x.
Proof.
  revert x. induction k as [|k IH]; intros x; [reflexivity|].
  unfold passes in *. simpl. unfold hpass at 1.
  apply tap3_ext. intros j _. apply IH.
Qed.

Lemma vpass_iter (k : nat) (h : Z) (img : image) (x y : Z) :
  Nat.iter k (vpass h) img x y = passes k h (fun y' => img x y') y.
Proof.
  revert y. induction k as [|k IH]; intros y; [reflexivity|].
  unfold passes in *. simpl. unfold vpass at 1.
  apply tap3_ext. intros j _. apply IH.
Qed.

Lemma blurSingleChannelImage_spec (m : list Z) (l : bool)
    (data w h stride reps : Z) :
  3 <= w -> 3 <= h -> w <= stride -> 0 <= data ->
  stride * (h - 1) < 2 ^ 31 ->
  data + stride * (h - 1) + w <= Z.of_nat (length m) ->
  bytes_ok m ->
  exists m',
    blurSingleChannelImage data w h stride reps (Mem m l) = Ok (tt, Mem m' l)
    /\ length m' = length m
    /\ (forall x y, 0 <= x < w -> 0 <= y < h ->
          pixels m' data stride x y
          = blur_reference w h (Z.to_nat reps) (pixels m data stride) x y)
    /\ (forall j, (forall x y, 0 <= x < w -> 0 <= y < h ->
                     j <> data + stride * y + x) ->
          peek m' j = peek m j)
    /\ bytes_ok m'.
Proof.
  intros Hw Hh Hstride Hdata Hlast Hlen Hm.
  set (k := Z.to_nat reps).
  (* the rows *)
  destruct (lines_loop m l (fun t => data + stride * t) 1 w k h
              Hw ltac:(lia)) with (c := Z.to_nat h) (s := 0) (m := m)
    as (m1 & Hrun1 & (Hlen1 & Hrows & Hrest1) & Hm1).
  { intros t i Ht Hi. apply in_bounds_spec.
    assert (0 <= stride * t <= stride * (h - 1)) by nia. lia. }
  { intros t i t' i' Ht Hi Ht' Hi' Heq. nia. }
  { lia. }
  { lia. }
  { apply lines_done_zero. }
  { assumption. }
  (* the columns *)
  destruct (lines_loop m1 l (fun t => data + t) stride h k w
              Hh ltac:(lia)) with (c := Z.to_nat w) (s := 0) (m := m1)
    as (m2 & Hrun2 & (Hlen2 & Hcols & Hrest2) & Hm2).
  { intros t i Ht Hi. apply in_bounds_spec. rewrite Hlen1.
    assert (0 <= i * stride <= (h - 1) * stride) by nia. lia. }
  { intros t i t' i' Ht Hi Ht' Hi' Heq.
    assert (i = i') by nia. subst i'. lia. }
  { lia. }
  { lia. }
  { apply lines_done_zero. }
  { assumption. }
  exists m2. split; [|split; [|split; [|split]]].
  - unfold blurSingleChannelImage. fold k.
    rewrite (forM_ext (seqZ 0 h) _
               (fun t => repeatM k (blurDataTriplets (data + stride * t) w 1))).
    2:{ intros y Hy. apply elem_of_seqZ in Hy.
        rewrite (row_offset stride h y) by lia. reflexivity. }
    unfold bind.
    rewrite Z2Nat.id in Hrun1 by lia. rewrite Z2Nat.id in Hrun2 by lia.
    rewrite Hrun1. exact Hrun2.
  - congruence.
  - intros x y Hx Hy. unfold blur_reference, pixels. fold k.
    rewrite vpass_iter.
    replace (data + stride * y + x) with (data + x + y * stride) by lia.
    rewrite Hcols by lia. apply passes_ext; [lia|].
    intros j Hj. rewrite hpass_iter.
    replace (data + x + j * stride) with (data + stride * j + x * 1) by lia.
    rewrite Hrows by lia. apply passes_ext; [lia|].
    intros i Hi. f_equal. lia.
  - intros j Hj. rewrite Hrest2.
    + apply Hrest1. intros t i Ht Hi Heq. apply (Hj i t); lia.
    + intros t i Ht Hi Heq. apply (Hj t i); lia.
  - assumption.
Qed.

(** A line that starts and ends inside the buffer lies inside it. *)
Lemma line_in_bounds (m : list Z) (d n delta : Z) :
  in_bounds m d = true -> in_bounds m (d + (n - 1) * delta) = true ->
  forall i, 0 <= i < n -> in_bounds m (d + i * delta) = true.
Proof.
  intros H0 H1 i Hi. apply in_bounds_spec in H0, H1. apply in_bounds_spec.
  destruct (Z_le_gt_dec 0 delta).
  - assert (0 <= i * delta <= (n - 1) * delta) by nia. lia.
  - assert ((n - 1) * delta <= i * delta <= 0) by nia. lia.
Qed.

(** ** C10: what one pass computes *)

(** C10.  For a line of [n >= 3] samples ([d] the first, [delta] apart)
    inside a buffer of bytes, one call of [blurDataTriplets] returns, and
    from the values before the call it leaves
    [(in[i-1] + in[i] + in[i+1] + 1) / 3] in every interior sample,
    [(in[0] + in[1] + 1) / 3] in the first and
    [(in[n-2] + in[n-1] + 1) / 3] in the last; every sample is the three-tap
    average with a zero beyond either end ([tap3]), bytes off the line are
    untouched, and on a line of constant value [v] the interior keeps [v]
    while both ends drop to [(2v + 1) / 3], which is below [v] once
    [v >= 2]. *)
Theorem blurDataTriplets_three_tap (m : list Z) (l : bool) (d n delta : Z) :
  3 <= n -> delta <> 0 ->
  in_bounds m d = true -> in_bounds m (d + (n - 1) * delta) = true ->
  bytes_ok m ->
  exists m',
    blurDataTriplets d n delta (Mem m l) = Ok (tt, Mem m' l)
    /\ length m' = length m
    /\ (forall i, 1 <= i <= n - 2 ->
          peek m' (d + i * delta)
          = (peek m (d + (i - 1) * delta) + peek m (d + i * delta)
             + peek m (d + (i + 1) * delta) + 1) / 3)
    /\ peek m' d = (peek m d + peek m (d + delta) + 1) / 3
    /\ peek m' (d + (n - 1) * delta)
       = (peek m (d + (n - 2) * delta) + peek m (d + (n - 1) * delta) + 1) / 3
    /\ (forall i, 0 <= i < n ->
          peek m' (d + i * delta) = tap3 n (fun j => peek m (d + j * delta)) i)
    /\ (forall j, (forall i, 0 <= i < n -> j <> d + i * delta) ->
          peek m' j = peek m j)
    /\ (forall v, (forall i, 0 <= i < n -> peek m (d + i * delta) = v) ->
          (forall i, 1 <= i <= n - 2 -> peek m' (d + i * delta) = v)
          /\ peek m' d = (2 * v + 1) / 3
          /\ peek m' (d + (n - 1) * delta) = (2 * v + 1) / 3
          /\ (2 <= v -> (2 * v + 1) / 3 < v)).
Proof.
  intros Hn Hdelta Hfirst Hlast Hm.
  pose proof (line_in_bounds m d n delta Hfirst Hlast) as Hin.
  destruct (blurDataTriplets_line m l d n delta Hn Hdelta Hin Hm)
    as (m' & Hrun & (Hlen & Hline & Hrest) & _).
  assert (Hint : forall i, 1 <= i <= n - 2 ->
            peek m' (d + i * delta)
            = (peek m (d + (i - 1) * delta) + peek m (d + i * delta)
               + peek m (d + (i + 1) * delta) + 1) / 3).
  { intros i Hi. rewrite Hline by lia. apply tap3_interior. assumption. }
  assert (H0 : peek m' d = (peek m d + peek m (d + delta) + 1) / 3).
  { replace d with (d + 0 * delta) at 1 by lia. rewrite Hline by lia.
    rewrite tap3_first by lia.
    replace (d + 0 * delta) with d by lia.
    replace (d + 1 * delta) with (d + delta) by lia. reflexivity. }
  assert (Hn1 : peek m' (d + (n - 1) * delta)
                = (peek m (d + (n - 2) * delta)
                   + peek m (d + (n - 1) * delta) + 1) / 3).
  { rewrite Hline by lia. apply tap3_last. lia. }
  exists m'. repeat (split; [assumption|]).
  intros v Hv. split; [|split; [|split]].
  - intros i Hi. rewrite Hint by assumption. rewrite !Hv by lia.
    replace (v + v + v + 1) with (1 + v * 3) by lia.
    rewrite Z.div_add by lia. reflexivity.
  - rewrite H0. replace (d + delta) with (d + 1 * delta) by lia.
    replace d with (d + 0 * delta) at 1 by lia. rewrite !Hv by lia.
    f_equal. lia.
  - rewrite Hn1, !Hv by lia. f_equal. lia.
  - intros Hv2. apply Z.div_lt_upper_bound; lia.
Qed.

Lemma blurDataTriplets_three_tap_witness :
  exists m',
    blurDataTriplets 0 3 1 (Mem [3; 6; 9] false) = Ok (tt, Mem m' false)
    /\ peek m' 0 = (3 + 6 + 1) / 3
    /\ peek m' 1 = (3 + 6 + 9 + 1) / 3
    /\ peek m' 2 = (6 + 9 + 1) / 3.
Proof.
  destruct (blurDataTriplets_three_tap [3; 6; 9] false 0 3 1)
    as (m' & Hrun & _ & Hint & H0 & H2 & _).
  - lia.
  - lia.
  - reflexivity.
  - reflexivity.
  - repeat constructor; lia.
  - exists m'. split; [exact Hrun|]. split; [exact H0|]. split.
    + exact (Hint 1 ltac:(lia)).
    + exact H2.
Defined.

(** ** C9: memory safety of the blur *)

Lemma repeatM_fixed (c : M unit) (m : mem) (k : nat) :
  c m = Ok (tt, m) -> repeatM k c m = Ok (tt, m).
Proof.
  intros Hc. induction k as [|k IH]; [reflexivity|].
  cbn [repeatM]. unfold bind. rewrite Hc. exact IH.
Qed.

Lemma repeatM_fault (c : M unit) (m : mem) (k : nat) (f : fault) :
  c m = Fault f -> repeatM (S k) c m = Fault f.
Proof. intros Hc. cbn [repeatM]. unfold bind. rewrite Hc. reflexivity. Qed.

(** On the padded rows of a two by two image the row passes stay inside
    the buffer, and the first column pass leaves it. *)
Lemma blur_two_by_two (reps : Z) :
  0 < reps ->
  blurSingleChannelImage 0 2 2 4 reps (Mem (replicate 8 0) false)
  = Fault (OutOfBounds 8).
Proof.
  intros Hreps. unfold blurSingleChannelImage.
  destruct (Z.to_nat reps) as [|k] eqn:Hk; [lia|].
  change (seqZ 0 2) with [0; 1].
  cbn [forM]. unfold bind at 1. unfold bind at 1.
  rewrite (repeatM_fixed _ (Mem (replicate 8 0) false)) by reflexivity.
  unfold bind at 1.
  rewrite (repeatM_fixed _ (Mem (replicate 8 0) false)) by reflexivity.
  unfold ret at 1. unfold bind at 1.
  rewrite (repeatM_fault _ _ _ (OutOfBounds 8)) by reflexivity.
  reflexivity.
Qed.

Lemma bind_ok {A B} (c : M A) (k : A -> M B) (m m' : mem) (a : A) :
  c m = Ok (a, m') -> bind c k m = k a m'.
Proof. intros H. unfold bind. rewrite H. reflexivity. Qed.

Lemma bind_fault {A B} (c : M A) (k : A -> M B) (m : mem) (f : fault) :
  c m = Fault f -> bind c k m = Fault f.
Proof. intros H. unfold bind. rewrite H. reflexivity. Qed.

(** Three rows that lie 2^30 bytes apart: the offset of the third row is
    2^31, which is no [int]; as an [int] it is -2^31, before the buffer. *)
Lemma blur_third_row_wraps (m : list Z) :
  Z.of_nat (length m) = 2 ^ 31 + 3 -> bytes_ok m ->
  blurSingleChannelImage 0 3 3 (2 ^ 30) 1 (Mem m false)
  = Fault (OutOfBounds (- 2 ^ 31)).
Proof.
  intros Hlen Hm. unfold blurSingleChannelImage.
  change (seqZ 0 3) with [0; 1; 2]. change (Z.to_nat 1) with 1%nat.
  cbn [forM repeatM].
  change (to_int32 (2 ^ 30 * 0)) with 0.
  change (to_int32 (2 ^ 30 * 1)) with (2 ^ 30).
  change (to_int32 (2 ^ 30 * 2)) with (- 2 ^ 31).
  destruct (blurDataTriplets_line m false (0 + 0) 3 1 ltac:(lia) ltac:(lia))
    as (m1 & Hrun1 & (Hlen1 & _) & Hm1).
  { intros i Hi. apply in_bounds_spec. lia. }
  { assumption. }
  destruct (blurDataTriplets_line m1 false (0 + 2 ^ 30) 3 1 ltac:(lia) ltac:(lia))
    as (m2 & Hrun2 & (Hlen2 & _) & Hm2).
  { intros i Hi. apply in_bounds_spec. lia. }
  { assumption. }
  apply bind_fault.
  rewrite (bind_ok _ _ _ (Mem m1 false) tt)
    by (rewrite (bind_ok _ _ _ (Mem m1 false) tt) by exact Hrun1; reflexivity).
  rewrite (bind_ok _ _ _ (Mem m2 false) tt)
    by (rewrite (bind_ok _ _ _ (Mem m2 false) tt) by exact Hrun2; reflexivity).
  apply bind_fault, bind_fault. unfold blurDataTriplets. apply bind_fault.
  unfold load, in_bounds. cbn [bytes].
  replace (0 <=? 0 + - 2 ^ 31) with false by reflexivity.
  reflexivity.
Qed.

(** The blur leaves a buffer that meets every condition of the claim:
    three rows of three pixels, 2^30 bytes apart, in a buffer of
    2^31 + 3 bytes. *)
Lemma blur_row_offset_wraps :
  2 < 3 /\ 3 <= 2 ^ 30
  /\ 0 + 2 ^ 30 * (3 - 1) + 3
     <= Z.of_nat (length (replicate (Z.to_nat (2 ^ 31 + 3)) 0))
  /\ bytes_ok (replicate (Z.to_nat (2 ^ 31 + 3)) 0)
  /\ blurSingleChannelImage 0 3 3 (2 ^ 30) 1
       (Mem (replicate (Z.to_nat (2 ^ 31 + 3)) 0) false)
     = Fault (OutOfBounds (- 2 ^ 31)).
Proof.
  assert (Hlen : Z.of_nat (length (replicate (Z.to_nat (2 ^ 31 + 3)) 0))
                 = 2 ^ 31 + 3)
    by (rewrite length_replicate; apply Z2Nat.id; lia).
  assert (Hm : bytes_ok (replicate (Z.to_nat (2 ^ 31 + 3)) 0))
    by (apply Forall_replicate; lia).
  split; [lia|]. split; [lia|]. split; [rewrite Hlen; lia|].
  split; [exact Hm|]. apply blur_third_row_wraps; assumption.
Qed.

(** C9 (amended).  For a buffer of bytes that holds [h > 2] rows of
    [w > 2] pixels, [stride >= w] apart, the offset [stride * (h - 1)] of
    the last row being an [int], the blur returns without a fault, so
    every load and store was inside the buffer, and with the ghost flag
    still clear, so no [(uint8)] cast changed the average it was given;
    the result is again a buffer of bytes of the same length.  The same
    holds for one call of [blurDataTriplets] on a line of at least three
    samples inside the buffer.  [drawForImage] checks no dimension: on a
    valid two by two image, for a radius whose double is an [int], it runs
    the blur, which leaves the buffer at offset 8. *)
Theorem blur_memory_safe (m : list Z) (data w h stride reps : Z) :
  2 < w -> 2 < h -> w <= stride -> 0 <= data ->
  stride * (h - 1) < 2 ^ 31 ->
  data + stride * (h - 1) + w <= Z.of_nat (length m) ->
  bytes_ok m ->
  (exists m',
     blurSingleChannelImage data w h stride reps (Mem m false)
     = Ok (tt, Mem m' false)
     /\ length m' = length m /\ bytes_ok m')
  /\ (forall d n delta,
        3 <= n -> delta <> 0 ->
        in_bounds m d = true -> in_bounds m (d + (n - 1) * delta) = true ->
        exists m',
          blurDataTriplets d n delta (Mem m false) = Ok (tt, Mem m' false)
          /\ length m' = length m /\ bytes_ok m')
  /\ (forall (s : DropShadow) (g : Graphics),
        0 < radius s < 2 ^ 30 ->
        isValid (Some 0%nat) = true /\
        drawForImage s g (Some 0%nat) two_by_two = Fault (OutOfBounds 8)).
Proof.
  intros Hw Hh Hstride Hdata Hoff Hlen Hm. split; [|split].
  - destruct (blurSingleChannelImage_spec m false data w h stride
                reps ltac:(lia) ltac:(lia) Hstride Hdata Hoff Hlen Hm)
      as (m' & Hrun & Hlen' & _ & _ & Hm').
    exists m'. auto.
  - intros d n delta Hn Hdelta Hfirst Hlast.
    destruct (blurDataTriplets_line m false d n delta Hn Hdelta
                (line_in_bounds m d n delta Hfirst Hlast) Hm)
      as (m' & Hrun & (Hlen' & _ & _) & Hm').
    exists m'. auto.
  - intros s g Hr. split; [reflexivity|].
    unfold drawForImage. cbn [isValid].
    unfold bind at 1.
    replace (convertedToFormat_SingleChannel (Some 0%nat) two_by_two)
      with (Ok (Some 0%nat,
                ({[ 0%nat := (createPixelData SingleChannel 2 2, 2%nat) ]} : Heap)))
      by reflexivity.
    unfold bind at 1.
    replace (duplicateIfShared (Some 0%nat)
               ({[ 0%nat := (createPixelData SingleChannel 2 2, 2%nat) ]} : Heap))
      with (Ok (Some 1%nat,
                (<[ 1%nat := (createPixelData SingleChannel 2 2, 1%nat) ]>
                   two_by_two : Heap)))
      by reflexivity.
    unfold bind at 1. unfold blurSingleChannelImage_Image.
    replace ((<[ 1%nat := (createPixelData SingleChannel 2 2, 1%nat) ]>
                two_by_two : Heap) !! 1%nat)
      with (Some (createPixelData SingleChannel 2 2, 1%nat)) by reflexivity.
    change (width (createPixelData SingleChannel 2 2)) with 2.
    change (height (createPixelData SingleChannel 2 2)) with 2.
    change (lineStride (createPixelData SingleChannel 2 2)) with 4.
    change (imageData (createPixelData SingleChannel 2 2)) with (replicate 8 0).
    rewrite to_int32_small by lia.
    rewrite blur_two_by_two by lia. reflexivity.
Qed.

Lemma blur_memory_safe_witness :
  (exists m',
     blurSingleChannelImage 0 3 3 4 2
       (Mem [0; 0; 0; 0; 0; 90; 0; 0; 0; 0; 0; 0] false)
     = Ok (tt, Mem m' false)
     /\ length m' = 12%nat /\ bytes_ok m').
Proof.
  destruct (blur_memory_safe [0; 0; 0; 0; 0; 90; 0; 0; 0; 0; 0; 0] 0 3 3 4 2)
    as [Hblur _].
  - lia.
  - lia.
  - lia.
  - lia.
  - reflexivity.
  - simpl. lia.
  - repeat constructor; lia.
  - exact Hblur.
Defined.

(** ** C1: rows first, then columns, [2 * radius] passes each *)

(** C1 (amended).  For a radius with [0 < radius < 2^30], so that the
    [int] product [2 * radius] is the double of the radius, and an image
    of more than two rows and columns whose rows lie [lineStride >= width]
    apart inside its bytes, the last of them at an offset that is an
    [int], the blur that [drawForImage] and [drawForPath] apply returns,
    and every pixel of the result is the pixel of the reference blur:
    [2 * radius] three-tap passes along every row ([hpass]), followed by
    [2 * radius] three-tap passes along every column ([vpass]).  The bytes
    between the rows are untouched.  The radius only sets the number of
    passes; the kernel of a pass has three taps whatever the radius. *)
Theorem blur_is_rows_then_columns (hp : Heap) (h : nat) (bm : ImagePixelData)
    (rc : nat) (r : Z) :
  0 < r < 2 ^ 30 ->
  hp !! h = Some (bm, rc) ->
  2 < width bm -> 2 < height bm -> width bm <= lineStride bm ->
  lineStride bm * (height bm - 1) < 2 ^ 31 ->
  lineStride bm * (height bm - 1) + width bm <= Z.of_nat (length (imageData bm)) ->
  bytes_ok (imageData bm) ->
  exists data',
    blurSingleChannelImage_Image (Some h) r hp
    = Ok (tt, <[h := (withData bm data', rc)]> hp)
    /\ length data' = length (imageData bm)
    /\ (forall x y, 0 <= x < width bm -> 0 <= y < height bm ->
          pixels data' 0 (lineStride bm) x y
          = Nat.iter (2 * Z.to_nat r) (vpass (height bm))
              (Nat.iter (2 * Z.to_nat r) (hpass (width bm))
                 (pixels (imageData bm) 0 (lineStride bm))) x y)
    /\ (forall j, (forall x y, 0 <= x < width bm -> 0 <= y < height bm ->
                     j <> lineStride bm * y + x) ->
          peek data' j = peek (imageData bm) j).
Proof.
  intros Hr Hlook Hw Hh Hstride Hoff Hlen Hm.
  destruct (blurSingleChannelImage_spec (imageData bm) false 0 (width bm)
              (height bm) (lineStride bm) (2 * r)
              ltac:(lia) ltac:(lia) Hstride ltac:(lia) Hoff ltac:(lia) Hm)
    as (data' & Hrun & Hlen' & Hpix & Hrest & _).
  exists data'. split; [|split; [assumption|split]].
  - unfold blurSingleChannelImage_Image.
    rewrite Hlook, to_int32_small, Hrun by lia. reflexivity.
  - intros x y Hx Hy. rewrite (Hpix x y Hx Hy). unfold blur_reference.
    replace (Z.to_nat (2 * r)) with (2 * Z.to_nat r)%nat by lia. reflexivity.
  - intros j Hj. apply Hrest. intros x y Hx Hy. specialize (Hj x y Hx Hy). lia.
Qed.

Lemma blur_is_rows_then_columns_witness :
  exists data',
    blurSingleChannelImage_Image (Some 0%nat) 1 dot_heap
    = Ok (tt, <[0%nat := (withData dot_image data', 2%nat)]> dot_heap)
    /\ length data' = 12%nat
    /\ (forall x y, 0 <= x < 3 -> 0 <= y < 3 ->
          pixels data' 0 4 x y
          = Nat.iter 2 (vpass 3) (Nat.iter 2 (hpass 3) (pixels (imageData dot_image) 0 4))
              x y).
Proof.
  destruct (blur_is_rows_then_columns dot_heap 0%nat dot_image 2%nat 1)
    as (data' & Hrun & Hlen & Hpix & _).
  - lia.
  - reflexivity.
  - reflexivity.
  - reflexivity.
  - vm_compute. discriminate.
  - reflexivity.
  - vm_compute. discriminate.
  - repeat constructor; lia.
  - exists data'. split; [exact Hrun|]. split; [exact Hlen|]. exact Hpix.
Defined.

Example blur_dot :
  blurSingleChannelImage 0 3 3 4 2 (Mem (imageData dot_image) false)
  = Ok (tt, Mem [5; 7; 5; 0;  7; 10; 7; 0;  5; 7; 5; 0] false).
Proof. reflexivity. Qed.

(** ** The heap of images *)

Lemma fresh_not_live (hp : Heap) : hp !! fresh (dom hp) = None.
Proof. apply not_elem_of_dom. apply is_fresh. Qed.

(** A scratch object that is created, rewritten and destroyed leaves the
    heap as it was. *)
Lemma scratch_gone (hp : Heap) (h2 : nat) (e1 e2 : ImagePixelData * nat) :
  hp !! h2 = None ->
  delete h2 (<[h2 := e2]> (<[h2 := e1]> hp)) = hp.
Proof.
  intros Hfresh. rewrite insert_insert_eq, delete_insert_eq.
  apply delete_id. assumption.
Qed.

(** The same when, in between, a reference to another object was taken and
    given back. *)
Lemma scratch_gone_shared (hp : Heap) (h h2 : nat) (pd : ImagePixelData)
    (rc : nat) (e1 e2 : ImagePixelData * nat) :
  hp !! h = Some (pd, rc) ->
  alter (fun e => (fst e, S (snd e))) h hp !! h2 = None ->
  delete h2 (<[h2 := e2]> (<[h := (pd, rc)]>
     (<[h2 := e1]> (alter (fun e => (fst e, S (snd e))) h hp)))) = hp.
Proof.
  intros Hh Hfresh.
  assert (Hne : h <> h2).
  { intros ->. rewrite lookup_alter_eq, Hh in Hfresh. discriminate. }
  apply map_eq. intros k.
  destruct (decide (k = h2)) as [->|Hk2].
  - rewrite lookup_delete_eq. rewrite lookup_alter_ne in Hfresh by assumption.
    symmetry. assumption.
  - rewrite lookup_delete_ne, lookup_insert_ne by congruence.
    destruct (decide (k = h)) as [->|Hk].
    + rewrite lookup_insert_eq. symmetry. assumption.
    + rewrite !lookup_insert_ne by congruence.
      rewrite lookup_alter_ne by congruence. reflexivity.
Qed.

(** What [drawForImage] does with a valid image: the blur runs on a
    private single-channel copy, the copy is drawn, and the heap is left as
    it was. *)
Lemma drawForImage_run (s : DropShadow) (g : Graphics) (hp : Heap) (h : nat)
    (pd : ImagePixelData) (rc : nat) :
  hp !! h = Some (pd, rc) -> (1 <= rc)%nat ->
  drawForImage s g (Some h) hp
  = match blurSingleChannelImage 0 (width (toSingleChannel pd))
            (height (toSingleChannel pd)) (lineStride (toSingleChannel pd))
            (to_int32 (2 * radius s))
            (Mem (imageData (toSingleChannel pd)) false) with
    | Ok (_, m') =>
        Ok (issue (setColour g (colour s))
              (DrawImageAt (Some (withData (toSingleChannel pd) (bytes m')))
                 (pt_x (offset s)) (pt_y (offset s)) true), hp)
    | Fault f => Fault f
    end.
Proof.
  intros Hh Hrc.
  unfold drawForImage. cbn [isValid].
  unfold bind at 1. unfold convertedToFormat_SingleChannel. rewrite Hh.
  destruct (pixelFormat pd) eqn:Hfmt.
  - (* RGB: a new image *)
    unfold newImage at 1. set (h2 := fresh (dom hp)).
    pose proof (fresh_not_live hp) as Hfresh. fold h2 in Hfresh.
    unfold bind at 1. unfold duplicateIfShared.
    rewrite lookup_insert_eq. cbn [Nat.ltb Nat.leb].
    unfold bind at 1. unfold blurSingleChannelImage_Image.
    rewrite lookup_insert_eq.
    destruct (blurSingleChannelImage _ _ _ _ _ _) as [[[] m']|f]; [|reflexivity].
    unfold bind at 1. unfold drawImageAt. cbv zeta.
    rewrite lookup_insert_eq.
    unfold bind at 1. unfold release. rewrite lookup_insert_eq.
    unfold ret. rewrite scratch_gone by assumption. reflexivity.
  - (* ARGB: a new image *)
    unfold newImage at 1. set (h2 := fresh (dom hp)).
    pose proof (fresh_not_live hp) as Hfresh. fold h2 in Hfresh.
    unfold bind at 1. unfold duplicateIfShared.
    rewrite lookup_insert_eq. cbn [Nat.ltb Nat.leb].
    unfold bind at 1. unfold blurSingleChannelImage_Image.
    rewrite lookup_insert_eq.
    destruct (blurSingleChannelImage _ _ _ _ _ _) as [[[] m']|f]; [|reflexivity].
    unfold bind at 1. unfold drawImageAt. cbv zeta.
    rewrite lookup_insert_eq.
    unfold bind at 1. unfold release. rewrite lookup_insert_eq.
    unfold ret. rewrite scratch_gone by assumption. reflexivity.
  - (* SingleChannel: the same object, then a private copy *)
    assert (Hto : toSingleChannel pd = pd)
      by (unfold toSingleChannel; rewrite Hfmt; reflexivity).
    rewrite Hto.
    unfold bind at 1. unfold retain, ret.
    set (hp1 := alter (fun e => (fst e, S (snd e))) h hp).
    assert (Hh1 : hp1 !! h = Some (pd, S rc))
      by (unfold hp1; rewrite lookup_alter_eq, Hh; reflexivity).
    unfold bind at 1. unfold duplicateIfShared. rewrite Hh1.
    destruct rc as [|n]; [lia|]. cbn [Nat.ltb Nat.leb].
    unfold bind at 1. unfold newImage at 1. set (h2 := fresh (dom hp1)).
    pose proof (fresh_not_live hp1) as Hfresh. fold h2 in Hfresh.
    assert (Hne : h <> h2) by (intros Heq; rewrite <- Heq, Hh1 in Hfresh; discriminate).
    unfold bind at 1. unfold release at 1.
    rewrite lookup_insert_ne by congruence. rewrite Hh1. unfold ret.
    unfold bind at 1. unfold blurSingleChannelImage_Image.
    rewrite lookup_insert_ne by congruence. rewrite lookup_insert_eq.
    destruct (blurSingleChannelImage _ _ _ _ _ _) as [[[] m']|f]; [|reflexivity].
    unfold bind at 1. unfold drawImageAt. cbv zeta.
    rewrite lookup_insert_eq.
    unfold bind at 1. unfold release. rewrite lookup_insert_eq.
    unfold hp1. rewrite (scratch_gone_shared hp h h2 pd (S n)) by assumption.
    reflexivity.
Qed.

Lemma land_lnot_3 (a : Z) : 0 <= a -> Z.land a (Z.lnot 3) = 4 * (a / 4).
Proof.
  intros Ha. rewrite <- Z.ldiff_land.
  change 3 with (Z.ones 2). rewrite Z.ldiff_ones_r by lia.
  rewrite Z.shiftl_mul_pow2, Z.shiftr_div_pow2 by lia.
  change (2 ^ 2) with 4. lia.
Qed.

Lemma createPixelData_stride (w h : Z) :
  1 <= w ->
  w <= lineStride (createPixelData SingleChannel w h)
  /\ 0 <= lineStride (createPixelData SingleChannel w h).
Proof.
  intros Hw. cbn [createPixelData lineStride].
  rewrite Z.max_r by lia. rewrite land_lnot_3 by lia.
  pose proof (Z.div_mod (1 * w + 3) 4 ltac:(lia)).
  pose proof (Z.mod_pos_bound (1 * w + 3) 4 ltac:(lia)). lia.
Qed.

Lemma raster_length (w h ls : Z) (f : Z -> Z -> Z) :
  length (raster w h ls f) = Z.to_nat (ls * Z.max 1 h).
Proof. unfold raster. rewrite length_map, length_seqZ. reflexivity. Qed.

Lemma raster_bytes_ok (w h ls : Z) (f : Z -> Z -> Z) : bytes_ok (raster w h ls f).
Proof.
  unfold raster, bytes_ok. apply Forall_map, Forall_forall. intros k _. cbv beta zeta.
  destruct (k mod ls <? w); [|lia].
  unfold to_uint8. apply Z.mod_pos_bound. lia.
Qed.

(** An image is ready for the blur when it has more than two rows and
    columns and, if it is single-channel already, rows of bytes that lie
    inside its data. *)
Lemma toSingleChannel_ready (pd : ImagePixelData) :
  2 < width pd -> 2 < height pd ->
  (pixelFormat pd = SingleChannel ->
     width pd <= lineStride pd
     /\ lineStride pd * (height pd - 1) + width pd
        <= Z.of_nat (length (imageData pd))
     /\ bytes_ok (imageData pd)) ->
  let sc := toSingleChannel pd in
  width sc = width pd /\ height sc = height pd
  /\ width sc <= lineStride sc
  /\ lineStride sc * (height sc - 1) + width sc <= Z.of_nat (length (imageData sc))
  /\ bytes_ok (imageData sc).
Proof.
  intros Hw Hh Hsc. unfold toSingleChannel.
  destruct (createPixelData_stride (width pd) (height pd) ltac:(lia)) as [Hs Hs0].
  destruct (pixelFormat pd) eqn:Hfmt; cbv zeta.
  1,2: cbn [withData width height lineStride imageData];
       cbn [createPixelData width height];
       split; [reflexivity|]; split; [reflexivity|]; split; [exact Hs|];
       split; [|apply raster_bytes_ok];
       rewrite raster_length, Z2Nat.id by nia; nia.
  destruct (Hsc eq_refl) as (H1 & H2 & H3). auto.
Qed.

(** ** C7: an invalid source image *)

(** C7.  When the source image is invalid, [drawForImage] returns the
    drawing context and the heap of images as they were: no scratch image
    was created, no blur ran and the context received no call. *)
Theorem drawForImage_invalid_noop (s : DropShadow) (g : Graphics)
    (srcImage : Image) (hp : Heap) :
  0 < radius s -> isValid srcImage = false ->
  drawForImage s g srcImage hp = Ok (g, hp).
Proof.
  intros _ Hinv. unfold drawForImage. rewrite Hinv. reflexivity.
Qed.

Lemma drawForImage_invalid_noop_witness :
  drawForImage (mkDropShadow white 3 (mkPoint 1 1))
    (mkGraphics (mkRect 0 0 10 10) []) None dot_heap
  = Ok (mkGraphics (mkRect 0 0 10 10) [], dot_heap).
Proof.
  apply (drawForImage_invalid_noop (mkDropShadow white 3 (mkPoint 1 1))
           (mkGraphics (mkRect 0 0 10 10) []) None dot_heap).
  - reflexivity.
  - reflexivity.
Defined.

(** ** C8: the source image is not written *)




(** ** C6: a degenerate scratch area *)

(** C6.  When the scratch area of [drawForPath] is at most two pixels wide
    or at most two pixels high, [drawForPath] returns the drawing context
    and the heap of images as they were: nothing was rasterised, blurred or
    drawn. *)
Theorem drawForPath_degenerate_noop {Path : Type}
    (pathIntegerBounds : Path -> Rectangle Z)
    (rasterise : Path -> float -> float -> Z -> Z -> Z)
    (s : DropShadow) (g : Graphics) (path : Path) (hp : Heap) :
  0 < radius s ->
  getWidth (drawForPath_area pathIntegerBounds s g path) <= 2
  \/ getHeight (drawForPath_area pathIntegerBounds s g path) <= 2 ->
  drawForPath pathIntegerBounds rasterise s g path hp = Ok (g, hp).
Proof.
  intros _ Hdeg. unfold drawForPath. cbv zeta.
  replace ((2 <? getWidth (drawForPath_area pathIntegerBounds s g path))
           && (2 <? getHeight (drawForPath_area pathIntegerBounds s g path)))
    with false; [reflexivity|].
  symmetry. apply andb_false_iff.
  destruct Hdeg as [Hw|Hh]; [left | right]; apply Z.ltb_ge; assumption.
Qed.

Lemma drawForPath_degenerate_noop_witness :
  getWidth (drawForPath_area (fun p : Rectangle Z => p)
              (mkDropShadow white 1 (mkPoint 0 0))
              (mkGraphics (mkRect 4 0 10 10) []) (mkRect 0 0 1 1)) = 1
  /\ drawForPath (fun p : Rectangle Z => p) (fun _ _ _ _ _ => 255)
       (mkDropShadow white 1 (mkPoint 0 0))
       (mkGraphics (mkRect 4 0 10 10) []) (mkRect 0 0 1 1) dot_heap
     = Ok (mkGraphics (mkRect 4 0 10 10) [], dot_heap).
Proof.
  split; [reflexivity|].
  apply (drawForPath_degenerate_noop (fun p : Rectangle Z => p)
           (fun _ _ _ _ _ => 255) (mkDropShadow white 1 (mkPoint 0 0))
           (mkGraphics (mkRect 4 0 10 10) []) (mkRect 0 0 1 1) dot_heap).
  - reflexivity.
  - left. vm_compute. discriminate.
Defined.

(** ** C2: the scratch area of [drawForPath] *)

Lemma jmax_int (a b : Z) : jmax a b = Z.max a b.
Proof. unfold jmax. cbn [num_ltb Num_int]. destruct (Z.ltb_spec a b); lia. Qed.

Lemma jmin_int (a b : Z) : jmin a b = Z.min a b.
Proof. unfold jmin. cbn [num_ltb Num_int]. destruct (Z.ltb_spec b a); lia. Qed.

(** The clip bounds are expanded before the intersection, so the scratch
    area is not the one the claim describes: with a clip of 10 by 10 at the
    origin, a path bounded by the same square and radius 1, the code takes
    the square from -2 to 12 and the claim the clip itself. *)
Lemma drawForPath_area_not_claimed :
  drawForPath_area (fun p : Rectangle Z => p)
    (mkDropShadow white 1 (mkPoint 0 0))
    (mkGraphics (mkRect 0 0 10 10) []) (mkRect 0 0 10 10)
  = mkRect (-2) (-2) 14 14
  /\ claimed_area (fun p : Rectangle Z => p)
       (mkDropShadow white 1 (mkPoint 0 0))
       (mkGraphics (mkRect 0 0 10 10) []) (mkRect 0 0 10 10)
     = mkRect 0 0 10 10
  /\ drawForPath_area (fun p : Rectangle Z => p)
       (mkDropShadow white 1 (mkPoint 0 0))
       (mkGraphics (mkRect 0 0 10 10) []) (mkRect 0 0 10 10)
     <> claimed_area (fun p : Rectangle Z => p)
          (mkDropShadow white 1 (mkPoint 0 0))
          (mkGraphics (mkRect 0 0 10 10) []) (mkRect 0 0 10 10).
Proof. split; [reflexivity|]. split; [reflexivity|]. vm_compute. discriminate. Qed.

(** C2 (amended).  For [radius > 0], a path whose integer bounding box has
    no negative extent and a clip with no negative extent, a pixel lies in
    the scratch area of [drawForPath] exactly when it lies in the bounding
    box translated by [offset] and grown by [radius + 1] on each side, and
    in the clip bounds grown by [radius + 1] on each side. *)
Theorem drawForPath_area_pixels {Path : Type}
    (pathIntegerBounds : Path -> Rectangle Z)
    (s : DropShadow) (g : Graphics) (path : Path) (x y : Z) :
  0 < radius s ->
  0 <= rw (pathIntegerBounds path) -> 0 <= rh (pathIntegerBounds path) ->
  0 <= rw (getClipBounds g) -> 0 <= rh (getClipBounds g) ->
  let b := pathIntegerBounds path in
  let c := getClipBounds g in
  let d := radius s + 1 in
  contains_px (drawForPath_area pathIntegerBounds s g path) x y
  <-> (rx b + pt_x (offset s) - d <= x < rx b + pt_x (offset s) + rw b + d
       /\ ry b + pt_y (offset s) - d <= y < ry b + pt_y (offset s) + rh b + d)
      /\ (rx c - d <= x < rx c + rw c + d /\ ry c - d <= y < ry c + rh c + d).
Proof.
  intros Hr Hbw Hbh Hcw Hch. cbv zeta.
  unfold drawForPath_area, getIntersection, expanded, expanded2, translated,
    contains_px.
  cbn [rx ry rw rh num_add num_sub num_mul num_of_int num_leb Num_int].
  rewrite !jmax_int, !jmin_int.
  destruct (Z.leb_spec 0 (Z.min
              (rx (pathIntegerBounds path) + pt_x (offset s) - (radius s + 1)
               + Z.max 0 (rw (pathIntegerBounds path) + (radius s + 1) * 2))
              (rx (getClipBounds g) - (radius s + 1)
               + Z.max 0 (rw (getClipBounds g) + (radius s + 1) * 2))
            - Z.max (rx (pathIntegerBounds path) + pt_x (offset s) - (radius s + 1))
                    (rx (getClipBounds g) - (radius s + 1)))) as [Hnw|Hnw].
  - destruct (Z.leb_spec 0 (Z.min
                (ry (pathIntegerBounds path) + pt_y (offset s) - (radius s + 1)
                 + Z.max 0 (rh (pathIntegerBounds path) + (radius s + 1) * 2))
                (ry (getClipBounds g) - (radius s + 1)
                 + Z.max 0 (rh (getClipBounds g) + (radius s + 1) * 2))
              - Z.max (ry (pathIntegerBounds path) + pt_y (offset s) - (radius s + 1))
                      (ry (getClipBounds g) - (radius s + 1)))) as [Hnh|Hnh];
      cbn [rx ry rw rh]; lia.
  - cbn [rx ry rw rh]. lia.
Qed.

Lemma drawForPath_area_pixels_witness :
  contains_px
    (drawForPath_area (fun p : Rectangle Z => p)
       (mkDropShadow white 1 (mkPoint 0 0))
       (mkGraphics (mkRect 0 0 10 10) []) (mkRect 0 0 10 10)) (-2) 11
  <-> (0 + 0 - (1 + 1) <= -2 < 0 + 0 + 10 + (1 + 1)
       /\ 0 + 0 - (1 + 1) <= 11 < 0 + 0 + 10 + (1 + 1))
      /\ (0 - (1 + 1) <= -2 < 0 + 10 + (1 + 1)
          /\ 0 - (1 + 1) <= 11 < 0 + 10 + (1 + 1)).
Proof.
  apply (drawForPath_area_pixels (fun p : Rectangle Z => p)
           (mkDropShadow white 1 (mkPoint 0 0))
           (mkGraphics (mkRect 0 0 10 10) []) (mkRect 0 0 10 10) (-2) 11).
  - reflexivity.
  - vm_compute. discriminate.
  - vm_compute. discriminate.
  - vm_compute. discriminate.
  - vm_compute. discriminate.
Defined.

(** ** The fills of [drawForRectangle] *)

Lemma drawShadowSection_spec (g : Graphics) (cg : ColourGradient)
    (area : Rectangle float) (isCorner : bool) (x1 y1 x2 y2 : float)
    (g' : Graphics) (cg' : ColourGradient) :
  drawShadowSection g cg area isCorner x1 y1 x2 y2 = (g', cg') ->
  calls g' = calls g ++ [SetGradientFill cg'; FillRect area]
  /\ colours cg' = colours cg.
Proof.
  unfold drawShadowSection, setGradientFill, fillRect, issue.
  intros H. injection H as <- <-. cbn [calls colours].
  rewrite <- app_assoc. split; reflexivity.
Qed.

Lemma fill_sections_calls (g : Graphics) (cg : ColourGradient)
    (sec : ShadowSections) (c : Colour) :
  exists c1 c2 c3 c4 c5 c6 c7 c8,
    calls (fill_sections g cg sec c)
    = calls g
      ++ [SetGradientFill c1; FillRect (topLeft sec);
          SetGradientFill c2; FillRect (topRight sec);
          SetGradientFill c3; FillRect (topEdge sec);
          SetGradientFill c4; FillRect (bottomLeft sec);
          SetGradientFill c5; FillRect (bottomRight sec);
          SetGradientFill c6; FillRect (bottomEdge sec);
          SetGradientFill c7; FillRect (leftEdge sec);
          SetGradientFill c8; FillRect (rightEdge sec);
          SetColour c; FillRect (centre sec)]
    /\ Forall (fun x => colours x = colours cg)
         [c1; c2; c3; c4; c5; c6; c7; c8].
Proof.
  unfold fill_sections.
  repeat match goal with
  | |- context [drawShadowSection ?g0 ?cg0 ?a ?r ?x1 ?y1 ?x2 ?y2] =>
      let g1 := fresh "g" in
      let k := fresh "k" in
      let E := fresh "E" in
      destruct (drawShadowSection g0 cg0 a r x1 y1 x2 y2) as [g1 k] eqn:E;
      apply drawShadowSection_spec in E; destruct E as [? ?]
  end.
  exists k, k0, k1, k2, k3, k4, k5, k6. split.
  - unfold fillRect, setColour, issue. cbn [calls].
    repeat match goal with H : calls _ = _ |- _ => rewrite H; clear H end.
    rewrite <- !app_assoc. reflexivity.
  - repeat constructor; congruence.
Qed.

Lemma fill_sections_gradients (g : Graphics) (cg : ColourGradient)
    (sec : ShadowSections) (c : Colour) :
  exists issued,
    calls (fill_sections g cg sec c) = calls g ++ issued
    /\ Forall (is_gradient_with (colours cg)) issued.
Proof.
  destruct (fill_sections_calls g cg sec c)
    as (c1 & c2 & c3 & c4 & c5 & c6 & c7 & c8 & Hcalls & Hall).
  eexists. split; [exact Hcalls|].
  repeat match goal with
  | H : Forall _ (_ :: _) |- _ => apply Forall_cons in H; destruct H as [? H]
  end.
  repeat (constructor; [assumption || exact I|]). constructor.
Qed.

Lemma fill_sections_filled (g : Graphics) (cg : ColourGradient)
    (sec : ShadowSections) (c : Colour) :
  filled (calls (fill_sections g cg sec c)) = filled (calls g) ++ regions sec.
Proof.
  destruct (fill_sections_calls g cg sec c)
    as (c1 & c2 & c3 & c4 & c5 & c6 & c7 & c8 & Hcalls & _).
  rewrite Hcalls. unfold filled. rewrite omap_app. reflexivity.
Qed.

(** ** C4: the stops of the falloff gradient *)

Lemma falloff_gradient_eq (c : Colour) (n : nat) :
  exists cg,
    falloff_gradient (11 + n) c = Some cg /\ colours cg = falloff_stops c.
Proof.
  eexists. split.
  - cbv -[withMultipliedAlpha withAlpha]. reflexivity.
  - cbv -[withMultipliedAlpha withAlpha]. reflexivity.
Qed.

(** The gradient does not have eleven stops. *)
Lemma falloff_gradient_not_eleven :
  ~ (exists cg, falloff_gradient 64 white = Some cg
                /\ length (colours cg) = 11%nat).
Proof.
  intros (cg & Hcg & Hlen).
  vm_compute in Hcg. injection Hcg as <-. vm_compute in Hlen. discriminate.
Qed.

Lemma falloff_step_near (k : nat) :
  (k < 10)%nat ->
  ((5 + 10 * inject_Z (Z.of_nat k)) / 100 - 1 / 1000000 < F2Q (falloff_step k)
   /\ F2Q (falloff_step k) < (5 + 10 * inject_Z (Z.of_nat k)) / 100 + 1 / 1000000)%Q.
Proof.
  intros Hk.
  do 10 (destruct k as [|k]; [split; vm_compute; reflexivity|]).
  lia.
Qed.

(** C4 (amended).  The gradient that [drawForRectangle] builds has exactly
    twelve stops: the shadow colour at position 0, then ten stops at
    positions [1 - i] with colour [colour.withMultipliedAlpha (i * i)],
    where [i] starts at [0.05f] and grows by [0.1f] (so that it stays
    within a millionth of 0.05, 0.15, ..., 0.95, and the loop ends after the
    tenth), and a stop of alpha 0 at position 1.  The loop ends; every
    gradient fill that [drawForRectangle] sets has these stops. *)
Theorem falloff_gradient_twelve_stops (s : DropShadow) (g : Graphics)
    (targetArea : Rectangle Z) :
  (exists cg, falloff_gradient 64 (colour s) = Some cg
              /\ colours cg = falloff_stops (colour s))
  /\ length (falloff_stops (colour s)) = 12%nat
  /\ head (falloff_stops (colour s)) = Some (f64_of_int 0, colour s)
  /\ last (falloff_stops (colour s))
     = Some (f64_of_int 1, withAlpha (colour s) (f32_of_int 0))
  /\ alpha (withAlpha (colour s) (f32_of_int 0)) = 0
  /\ (forall k, (k < 10)%nat ->
        ((5 + 10 * inject_Z (Z.of_nat k)) / 100 - 1 / 1000000
           < F2Q (falloff_step k)
         /\ F2Q (falloff_step k)
            < (5 + 10 * inject_Z (Z.of_nat k)) / 100 + 1 / 1000000)%Q)
  /\ SFltb (falloff_step 9) (f32_of_int 1) = true
  /\ SFltb (falloff_step 10) (f32_of_int 1) = false
  /\ (exists g' issued,
        drawForRectangle s g targetArea = Ok g'
        /\ calls g' = calls g ++ issued
        /\ Forall (is_gradient_with (falloff_stops (colour s))) issued).
Proof.
  split; [exact (falloff_gradient_eq (colour s) 53)|].
  split; [reflexivity|].
  split; [reflexivity|].
  split; [reflexivity|].
  split; [reflexivity|].
  split; [exact falloff_step_near|].
  split; [reflexivity|].
  split; [reflexivity|].
  destruct (falloff_gradient_eq (colour s) 53) as (cg & Hcg & Hstops).
  unfold drawForRectangle.
  change (11 + 53)%nat with 64%nat in Hcg. rewrite Hcg.
  destruct (fill_sections_gradients g cg (shadow_sections s targetArea)
              (colour s)) as (issued & Hcalls & Hall).
  rewrite Hstops in Hall.
  eexists. exists issued. split; [reflexivity|]. split; assumption.
Qed.

(** ** Binary32 arithmetic on values that need no rounding *)

Lemma digits2_bounds (p : positive) :
  2 ^ (Zpos (digits2_pos p) - 1) <= Zpos p < 2 ^ Zpos (digits2_pos p).
Proof.
  induction p as [p IH|p IH|]; cbn [digits2_pos].
  - rewrite Pos2Z.inj_succ.
    replace (Z.succ (Zpos (digits2_pos p)) - 1) with (Zpos (digits2_pos p)) by lia.
    rewrite Z.pow_succ_r by lia.
    assert (2 ^ Zpos (digits2_pos p) = 2 * 2 ^ (Zpos (digits2_pos p) - 1)).
    { rewrite <- Z.pow_succ_r by lia. f_equal. lia. }
    lia.
  - rewrite Pos2Z.inj_succ.
    replace (Z.succ (Zpos (digits2_pos p)) - 1) with (Zpos (digits2_pos p)) by lia.
    rewrite Z.pow_succ_r by lia.
    assert (2 ^ Zpos (digits2_pos p) = 2 * 2 ^ (Zpos (digits2_pos p) - 1)).
    { rewrite <- Z.pow_succ_r by lia. f_equal. lia. }
    lia.
  - simpl. lia.
Qed.

Lemma Zdigits2_log2 (m : Z) : 0 < m -> Zdigits2 m = Z.log2 m + 1.
Proof.
  intros Hm. destruct m as [|p|p]; try lia. cbn [Zdigits2].
  pose proof (digits2_bounds p) as Hb.
  symmetry. apply Z.add_move_r. apply Z.log2_unique; [lia|].
  replace (Z.succ (Zpos (digits2_pos p) - 1)) with (Zpos (digits2_pos p)) by lia.
  exact Hb.
Qed.

Lemma digits2_pos_log2 (p : positive) :
  Zpos (digits2_pos p) = Z.log2 (Zpos p) + 1.
Proof. apply (Zdigits2_log2 (Zpos p)). lia. Qed.

Lemma log2_mul_pow2 (K j : Z) :
  0 < K -> 0 <= j -> Z.log2 (K * 2 ^ j) = Z.log2 K + j.
Proof. intros HK Hj. rewrite Z.log2_mul_pow2 by lia. lia. Qed.

Lemma iter_pos_nat {A} (f : A -> A) (p : positive) (x : A) :
  SpecFloat.iter_pos f p x = Nat.iter (Pos.to_nat p) f x.
Proof.
  revert x. induction p as [p IH|p IH|]; intros x; cbn [SpecFloat.iter_pos].
  - rewrite !IH. rewrite Pos2Nat.inj_xI.
    replace (S (2 * Pos.to_nat p)) with (Pos.to_nat p + Pos.to_nat p + 1)%nat by lia.
    rewrite !Nat.iter_add. reflexivity.
  - rewrite !IH. rewrite Pos2Nat.inj_xO.
    replace (2 * Pos.to_nat p)%nat with (Pos.to_nat p + Pos.to_nat p)%nat by lia.
    rewrite Nat.iter_add. reflexivity.
  - reflexivity.
Qed.

Lemma shr_1_even (m : Z) :
  shr_1 (Build_shr_record (2 * m) false false) = Build_shr_record m false false.
Proof. destruct m; reflexivity. Qed.

Lemma iter_shr_1_exact (k : nat) (m : Z) :
  Nat.iter k shr_1 (Build_shr_record (m * 2 ^ Z.of_nat k) false false)
  = Build_shr_record m false false.
Proof.
  revert m. induction k as [|k IH]; intros m.
  - simpl. f_equal. lia.
  - rewrite Nat.iter_succ_r.
    replace (m * 2 ^ Z.of_nat (S k)) with (2 * (m * 2 ^ Z.of_nat k))
      by (rewrite Nat2Z.inj_succ, Z.pow_succ_r by lia; lia).
    rewrite shr_1_even. apply IH.
Qed.

(** Shifting out [n] zero bits is exact. *)
Lemma shr_exact (m e n : Z) :
  0 <= n ->
  shr (Build_shr_record (m * 2 ^ n) false false) e n
  = (Build_shr_record m false false, e + n).
Proof.
  intros Hn. destruct n as [|p|p]; try lia.
  - simpl. rewrite Z.mul_1_r, Z.add_0_r. reflexivity.
  - cbn [shr]. rewrite iter_pos_nat.
    rewrite <- (positive_nat_Z p) at 1. rewrite iter_shr_1_exact. reflexivity.
Qed.

(** A 24-bit mantissa followed by [n] zero bits rounds to itself. *)
Lemma binary_round_aux_exact (s : bool) (q n t : Z) :
  2 ^ 23 <= q < 2 ^ 24 -> 0 <= n -> -149 <= t <= 104 ->
  binary_round_aux 24 128 s (q * 2 ^ n) (t - n) loc_Exact
  = S754_finite s (Z.to_pos q) t.
Proof.
  intros Hq Hn Ht. unfold binary_round_aux.
  assert (Hlog : Z.log2 q = 23) by (apply Z.log2_unique; lia).
  assert (Hdig : Zdigits2 (q * 2 ^ n) = 24 + n).
  { rewrite Zdigits2_log2 by (apply Z.mul_pos_pos; [lia | apply Z.pow_pos_nonneg; lia]).
    rewrite log2_mul_pow2 by lia. lia. }
  assert (Hfexp : forall e', -149 <= e' -> fexp 24 128 (24 + e') = e')
    by (intros e' He'; unfold fexp, emin; lia).
  unfold shr_fexp at 1. rewrite Hdig.
  replace (24 + n + (t - n)) with (24 + t) by lia. rewrite Hfexp by lia.
  replace (t - (t - n)) with n by lia.
  cbn [shr_record_of_loc]. rewrite shr_exact by lia.
  cbn [shr_m loc_of_shr_record round_nearest_even].
  replace (t - n + n) with t by lia.
  unfold shr_fexp. rewrite Zdigits2_log2 by lia. rewrite Hlog.
  replace (23 + 1 + t) with (24 + t) by lia. rewrite Hfexp by lia.
  rewrite Z.sub_diag. cbn [shr shr_record_of_loc shr_m].
  destruct q as [|qp|qp]; try lia.
  replace (t <=? 128 - 24) with true by (symmetry; apply Z.leb_le; lia).
  reflexivity.
Qed.

Lemma Zpos_iter_xO (p d : positive) :
  Zpos (Pos.iter xO p d) = Zpos p * 2 ^ Zpos d.
Proof.
  induction d as [|d IH] using Pos.peano_ind.
  - simpl. lia.
  - rewrite Pos.iter_succ, Pos2Z.inj_xO, IH.
    rewrite Pos2Z.inj_succ, Z.pow_succ_r by lia. lia.
Qed.

(** The 24-bit mantissa of a positive integer of at most 24 bits. *)
Lemma mantissa_range (K : Z) :
  0 < K < 2 ^ 24 ->
  2 ^ 23 <= K * 2 ^ (24 - (Z.log2 K + 1)) < 2 ^ 24.
Proof.
  intros HK.
  pose proof (Z.log2_spec K ltac:(lia)) as Hspec.
  pose proof (Z.log2_nonneg K) as Hnn.
  assert (Hlt : Z.log2 K < 24) by (apply Z.log2_lt_pow2; lia).
  set (d := Z.log2 K) in *.
  replace (24 - (d + 1)) with (23 - d) by lia.
  assert (H23 : 2 ^ 23 = 2 ^ d * 2 ^ (23 - d))
    by (rewrite <- Z.pow_add_r by lia; f_equal; lia).
  assert (H24 : 2 ^ 24 = 2 ^ Z.succ d * 2 ^ (23 - d))
    by (rewrite <- Z.pow_add_r by lia; f_equal; lia).
  assert (0 < 2 ^ (23 - d)) by (apply Z.pow_pos_nonneg; lia).
  rewrite H23, H24. nia.
Qed.

Lemma binary_round_exact (s : bool) (K j e : Z) :
  0 < K < 2 ^ 24 -> 0 <= j ->
  -149 <= Z.log2 K + 1 + e - 24 <= 104 ->
  binary_round 24 128 s (Z.to_pos (K * 2 ^ j)) (e - j)
  = S754_finite s (Z.to_pos (K * 2 ^ (24 - (Z.log2 K + 1))))
      (Z.log2 K + 1 + e - 24).
Proof.
  intros HK Hj Ht.
  pose proof (mantissa_range K HK) as HQ.
  pose proof (Z.log2_nonneg K) as Hnn.
  assert (Hlt : Z.log2 K < 24) by (apply Z.log2_lt_pow2; lia).
  set (d := Z.log2 K + 1) in *.
  set (Q := K * 2 ^ (24 - d)) in *.
  assert (Hpow : 0 < 2 ^ j) by (apply Z.pow_pos_nonneg; lia).
  assert (Hpp : Zpos (Z.to_pos (K * 2 ^ j)) = K * 2 ^ j)
    by (apply Z2Pos.id; nia).
  unfold binary_round.
  rewrite digits2_pos_log2, Hpp, log2_mul_pow2 by lia.
  replace (Z.log2 K + j + 1 + (e - j)) with (d + e) by lia.
  replace (fexp 24 128 (d + e)) with (d + e - 24) by (unfold fexp, emin; lia).
  unfold shl_align.
  destruct (d + e - 24 - (e - j)) as [|delta|delta] eqn:Hdelta.
  - (* already 24 bits *)
    rewrite Hpp.
    replace (K * 2 ^ j) with (Q * 2 ^ 0)
      by (unfold Q; replace j with (24 - d) by lia; lia).
    replace (e - j) with (d + e - 24 - 0) by lia.
    apply binary_round_aux_exact; lia.
  - (* more than 24 bits: the low ones are zero *)
    rewrite Hpp.
    assert (HQd : K * 2 ^ j = Q * 2 ^ Zpos delta).
    { unfold Q. rewrite <- Z.mul_assoc, <- Z.pow_add_r by lia.
      f_equal. f_equal. lia. }
    rewrite HQd.
    replace (e - j) with (d + e - 24 - Zpos delta) by lia.
    apply binary_round_aux_exact; lia.
  - (* fewer than 24 bits *)
    rewrite Zpos_iter_xO, Hpp.
    assert (HQd : K * 2 ^ j * 2 ^ Zpos delta = Q * 2 ^ 0).
    { unfold Q. rewrite Z.pow_0_r, Z.mul_1_r.
      rewrite <- Z.mul_assoc, <- Z.pow_add_r by lia.
      f_equal. f_equal. lia. }
    rewrite HQd.
    replace (d + e - 24) with (d + e - 24 - 0) at 1 by lia.
    apply binary_round_aux_exact; lia.
Qed.

Lemma binary_normalize_exact (K j e : Z) :
  Z.abs K < 2 ^ 24 -> 0 <= j ->
  -149 <= Z.log2 (Z.abs K) + 1 + e - 24 <= 104 ->
  binary_normalize 24 128 (K * 2 ^ j) (e - j) false = canon K e.
Proof.
  intros HK Hj Ht. unfold canon.
  assert (Hpow : 0 < 2 ^ j) by (apply Z.pow_pos_nonneg; lia).
  destruct (Z.eqb_spec K 0) as [->|HK0]; [reflexivity|].
  destruct (Z.ltb_spec K 0) as [Hneg|Hpos].
  - destruct (K * 2 ^ j) as [|p|p] eqn:Hp; try nia.
    cbn [binary_normalize].
    replace p with (Z.to_pos (Z.abs K * 2 ^ j)).
    2:{ replace (Z.abs K * 2 ^ j) with (Zpos p) by nia. reflexivity. }
    apply binary_round_exact; lia.
  - destruct (K * 2 ^ j) as [|p|p] eqn:Hp; try nia.
    cbn [binary_normalize].
    replace p with (Z.to_pos (Z.abs K * 2 ^ j)).
    2:{ replace (Z.abs K * 2 ^ j) with (Zpos p) by nia. reflexivity. }
    apply binary_round_exact; lia.
Qed.

(** *** [canon]: shape and invariance *)

Lemma canon_finite (K e : Z) :
  K <> 0 ->
  canon K e
  = S754_finite (K <? 0)
      (Z.to_pos (Z.abs K * 2 ^ (24 - (Z.log2 (Z.abs K) + 1))))
      (Z.log2 (Z.abs K) + 1 + e - 24).
Proof.
  intros HK. unfold canon.
  destruct (Z.eqb_spec K 0); [contradiction | reflexivity].
Qed.

Lemma canon_mantissa (K : Z) :
  K <> 0 -> Z.abs K < 2 ^ 24 ->
  Zpos (Z.to_pos (Z.abs K * 2 ^ (24 - (Z.log2 (Z.abs K) + 1))))
  = Z.abs K * 2 ^ (24 - (Z.log2 (Z.abs K) + 1)).
Proof.
  intros HK Hlt. apply Z2Pos.id.
  pose proof (mantissa_range (Z.abs K) ltac:(lia)). lia.
Qed.

Lemma log2_abs_bound (K : Z) :
  K <> 0 -> Z.abs K < 2 ^ 24 -> 0 <= Z.log2 (Z.abs K) < 24.
Proof.
  intros HK Hlt. split; [apply Z.log2_nonneg | apply Z.log2_lt_pow2; lia].
Qed.

Lemma f32_of_int_exact (n : Z) : Z.abs n < 2 ^ 24 -> f32_of_int n = canon n 0.
Proof.
  intros Hn. unfold f32_of_int.
  replace n with (n * 2 ^ 0) at 1 by lia.
  change 0 with (0 - 0) at 2.
  destruct (Z.eq_dec n 0) as [->|Hn0]; [reflexivity|].
  pose proof (log2_abs_bound n Hn0 Hn).
  apply binary_normalize_exact; lia.
Qed.

Lemma canon_shift (K j e : Z) :
  0 <= j -> Z.abs (K * 2 ^ j) < 2 ^ 24 ->
  canon (K * 2 ^ j) (e - j) = canon K e.
Proof.
  intros Hj Hlt. unfold canon.
  assert (Hpow : 0 < 2 ^ j) by (apply Z.pow_pos_nonneg; lia).
  destruct (Z.eqb_spec K 0) as [->|HK]; [reflexivity|].
  destruct (Z.eqb_spec (K * 2 ^ j) 0) as [H0|_]; [nia|].
  rewrite Z.abs_mul, (Z.abs_eq (2 ^ j)) in * by lia.
  rewrite log2_mul_pow2 by lia.
  assert (Hd : Z.log2 (Z.abs K) + j < 24).
  { rewrite <- log2_mul_pow2 by lia. apply Z.log2_lt_pow2; nia. }
  pose proof (Z.log2_nonneg (Z.abs K)).
  f_equal.
  - destruct (Z.ltb_spec K 0), (Z.ltb_spec (K * 2 ^ j) 0); try reflexivity; nia.
  - f_equal. rewrite <- Z.mul_assoc, <- Z.pow_add_r by lia. f_equal. f_equal. lia.
  - lia.
Qed.

Lemma shl_align_fst (m : positive) (t ez : Z) :
  ez <= t -> Zpos (fst (shl_align m t ez)) = Zpos m * 2 ^ (t - ez).
Proof.
  intros Hle. unfold shl_align.
  destruct (ez - t) as [|d|d] eqn:Hd; cbn [fst].
  - replace (t - ez) with 0 by lia. lia.
  - lia.
  - rewrite Zpos_iter_xO. f_equal. f_equal. lia.
Qed.

(** The signed mantissa of [canon K e], aligned to a smaller exponent. *)
Lemma canon_aligned (K e ez : Z) :
  K <> 0 -> Z.abs K < 2 ^ 24 ->
  ez <= Z.log2 (Z.abs K) + 1 + e - 24 ->
  cond_Zopp (K <? 0)
    (Zpos (fst (shl_align
                  (Z.to_pos (Z.abs K * 2 ^ (24 - (Z.log2 (Z.abs K) + 1))))
                  (Z.log2 (Z.abs K) + 1 + e - 24) ez)))
  = K * 2 ^ (e - ez).
Proof.
  intros HK Hlt Hez.
  pose proof (log2_abs_bound K HK Hlt) as Hd.
  rewrite shl_align_fst by assumption.
  rewrite canon_mantissa by assumption.
  rewrite <- Z.mul_assoc, <- Z.pow_add_r by lia.
  replace (24 - (Z.log2 (Z.abs K) + 1) + (Z.log2 (Z.abs K) + 1 + e - 24 - ez))
    with (e - ez) by lia.
  assert (0 < 2 ^ (e - ez)) by (apply Z.pow_pos_nonneg; lia).
  destruct (Z.ltb_spec K 0); cbn [cond_Zopp]; nia.
Qed.

Lemma canon_add (a b e : Z) :
  Z.abs a < 2 ^ 24 -> Z.abs b < 2 ^ 24 -> Z.abs (a + b) < 2 ^ 24 ->
  -126 <= e <= 104 ->
  f32_add (canon a e) (canon b e) = canon (a + b) e.
Proof.
  intros Ha Hb Hab He. unfold f32_add.
  destruct (Z.eq_dec a 0) as [->|Ha0].
  { rewrite Z.add_0_l. unfold canon at 1. cbn [Z.eqb].
    destruct (Z.eq_dec b 0) as [->|Hb0]; [reflexivity|].
    rewrite (canon_finite b) by assumption. reflexivity. }
  destruct (Z.eq_dec b 0) as [->|Hb0].
  { rewrite Z.add_0_r. unfold canon at 2. cbn [Z.eqb].
    rewrite (canon_finite a) by assumption. reflexivity. }
  pose proof (log2_abs_bound a Ha0 Ha) as Hda.
  pose proof (log2_abs_bound b Hb0 Hb) as Hdb.
  rewrite (canon_finite a), (canon_finite b) by assumption.
  cbn [SFadd].
  set (ta := Z.log2 (Z.abs a) + 1 + e - 24).
  set (tb := Z.log2 (Z.abs b) + 1 + e - 24).
  pose proof (canon_aligned a e (Z.min ta tb) Ha0 Ha ltac:(unfold ta; lia)) as Ea.
  pose proof (canon_aligned b e (Z.min ta tb) Hb0 Hb ltac:(unfold tb; lia)) as Eb.
  change (Z.log2 (Z.abs a) + 1 + e - 24) with ta in Ea.
  change (Z.log2 (Z.abs b) + 1 + e - 24) with tb in Eb.
  rewrite Ea, Eb.
  rewrite <- Z.mul_add_distr_r.
  destruct (Z.eq_dec (a + b) 0) as [Hab0|Hab0].
  - rewrite Hab0. reflexivity.
  - pose proof (log2_abs_bound (a + b) Hab0 Hab).
    transitivity (binary_normalize 24 128 ((a + b) * 2 ^ (e - Z.min ta tb))
                    (e - (e - Z.min ta tb)) false).
    + f_equal. lia.
    + apply binary_normalize_exact; unfold ta, tb; lia.
Qed.

Lemma canon_sub (a b e : Z) :
  Z.abs a < 2 ^ 24 -> Z.abs b < 2 ^ 24 -> Z.abs (a - b) < 2 ^ 24 ->
  -126 <= e <= 104 ->
  f32_sub (canon a e) (canon b e) = canon (a - b) e.
Proof.
  intros Ha Hb Hab He. unfold f32_sub.
  destruct (Z.eq_dec b 0) as [->|Hb0].
  { rewrite Z.sub_0_r. unfold canon at 2. cbn [Z.eqb].
    destruct (Z.eq_dec a 0) as [->|Ha0]; [reflexivity|].
    rewrite (canon_finite a) by assumption. reflexivity. }
  destruct (Z.eq_dec a 0) as [->|Ha0].
  { rewrite Z.sub_0_l. unfold canon at 1. cbn [Z.eqb].
    rewrite (canon_finite b), (canon_finite (- b)) by lia.
    cbn [SFsub]. rewrite Z.abs_opp. f_equal.
    destruct (Z.ltb_spec b 0), (Z.ltb_spec (- b) 0); try reflexivity; lia. }
  pose proof (log2_abs_bound a Ha0 Ha) as Hda.
  pose proof (log2_abs_bound b Hb0 Hb) as Hdb.
  rewrite (canon_finite a), (canon_finite b) by assumption.
  cbn [SFsub].
  set (ta := Z.log2 (Z.abs a) + 1 + e - 24).
  set (tb := Z.log2 (Z.abs b) + 1 + e - 24).
  pose proof (canon_aligned a e (Z.min ta tb) Ha0 Ha ltac:(unfold ta; lia)) as Ea.
  pose proof (canon_aligned b e (Z.min ta tb) Hb0 Hb ltac:(unfold tb; lia)) as Eb.
  change (Z.log2 (Z.abs a) + 1 + e - 24) with ta in Ea.
  change (Z.log2 (Z.abs b) + 1 + e - 24) with tb in Eb.
  rewrite Ea, Eb.
  rewrite <- Z.mul_sub_distr_r.
  destruct (Z.eq_dec (a - b) 0) as [Hab0|Hab0].
  - rewrite Hab0. reflexivity.
  - pose proof (log2_abs_bound (a - b) Hab0 Hab).
    transitivity (binary_normalize 24 128 ((a - b) * 2 ^ (e - Z.min ta tb))
                    (e - (e - Z.min ta tb)) false).
    + f_equal. lia.
    + apply binary_normalize_exact; unfold ta, tb; lia.
Qed.

Lemma log2_mul_lower (a b : Z) :
  0 < a -> 0 < b -> Z.log2 a + Z.log2 b <= Z.log2 (a * b).
Proof. intros Ha Hb. apply Z.log2_mul_below; assumption. Qed.

Lemma canon_mul (a b e1 e2 : Z) :
  a <> 0 -> b <> 0 -> Z.abs a < 2 ^ 24 -> Z.abs b < 2 ^ 24 ->
  Z.abs (a * b) < 2 ^ 24 ->
  -126 <= e1 + e2 <= 104 ->
  f32_mul (canon a e1) (canon b e2) = canon (a * b) (e1 + e2).
Proof.
  intros Ha0 Hb0 Ha Hb Hab He. unfold f32_mul.
  assert (Hab0 : a * b <> 0) by nia.
  pose proof (log2_abs_bound a Ha0 Ha) as Hda.
  pose proof (log2_abs_bound b Hb0 Hb) as Hdb.
  pose proof (log2_abs_bound (a * b) Hab0 Hab) as Hdab.
  pose proof (log2_mul_lower (Z.abs a) (Z.abs b) ltac:(lia) ltac:(lia)) as Hlow.
  rewrite <- Z.abs_mul in Hlow.
  rewrite (canon_finite a), (canon_finite b), (canon_finite (a * b)) by assumption.
  cbn [SFmul].
  rewrite Pos2Z.inj_mul, !canon_mantissa by assumption.
  set (da := Z.log2 (Z.abs a) + 1) in *.
  set (db := Z.log2 (Z.abs b) + 1) in *.
  set (dab := Z.log2 (Z.abs (a * b)) + 1) in *.
  replace (xorb (a <? 0) (b <? 0)) with (a * b <? 0)
    by (destruct (Z.ltb_spec a 0), (Z.ltb_spec b 0), (Z.ltb_spec (a * b) 0);
        try reflexivity; nia).
  pose proof (mantissa_range (Z.abs (a * b)) ltac:(lia)) as HQ. fold dab in HQ.
  assert (Hprod : Z.abs a * 2 ^ (24 - da) * (Z.abs b * 2 ^ (24 - db))
                  = Z.abs (a * b) * 2 ^ (24 - dab) * 2 ^ (24 - da - db + dab)).
  { rewrite Z.abs_mul.
    replace (Z.abs a * Z.abs b * 2 ^ (24 - dab) * 2 ^ (24 - da - db + dab))
      with (Z.abs a * Z.abs b * (2 ^ (24 - dab) * 2 ^ (24 - da - db + dab))) by lia.
    rewrite <- Z.pow_add_r by lia.
    replace (24 - dab + (24 - da - db + dab)) with ((24 - da) + (24 - db)) by lia.
    rewrite Z.pow_add_r by lia. lia. }
  rewrite Hprod.
  replace (da + e1 - 24 + (db + e2 - 24))
    with (dab + (e1 + e2) - 24 - (24 - da - db + dab)) by lia.
  apply binary_round_aux_exact; lia.
Qed.

Lemma canon_opp (a e : Z) : a <> 0 -> SFopp (canon a e) = canon (- a) e.
Proof.
  intros Ha. rewrite (canon_finite a), (canon_finite (- a)) by lia.
  cbn [SFopp]. rewrite Z.abs_opp. f_equal.
  destruct (Z.ltb_spec a 0), (Z.ltb_spec (- a) 0); try reflexivity; lia.
Qed.

Lemma f32_two : f32_of_int 2 = S754_finite false 8388608 (-22).
Proof. reflexivity. Qed.

(** Halving is exact. *)
Lemma canon_div2 (a e : Z) :
  a <> 0 -> Z.abs a < 2 ^ 24 -> -120 <= e <= 104 ->
  f32_div (canon a e) (f32_of_int 2) = canon a (e - 1).
Proof.
  intros Ha0 Ha He. unfold f32_div. rewrite f32_two.
  pose proof (log2_abs_bound a Ha0 Ha) as Hda.
  pose proof (mantissa_range (Z.abs a) ltac:(lia)) as HQ.
  rewrite !(canon_finite a) by assumption.
  cbn [SFdiv]. unfold SFdiv_core_binary.
  rewrite canon_mantissa by assumption.
  set (d := Z.log2 (Z.abs a) + 1) in *.
  set (Q := Z.abs a * 2 ^ (24 - d)) in *.
  assert (HlogQ : Z.log2 Q = 23) by (apply Z.log2_unique; lia).
  rewrite (Zdigits2_log2 Q) by lia. rewrite HlogQ.
  change (Zdigits2 8388608) with 24.
  replace (23 + 1 + (d + e - 24) - (24 + -22)) with (d + e - 24 + 22) by lia.
  replace (fexp 24 128 (d + e - 24 + 22)) with (d + e - 24 - 2)
    by (unfold fexp, emin; lia).
  replace (Z.min (d + e - 24 - 2) (d + e - 24 - -22)) with (d + e - 24 - 2) by lia.
  replace (d + e - 24 - -22 - (d + e - 24 - 2)) with 24 by lia.
  rewrite Z.shiftl_mul_pow2 by lia.
  assert (Hdiv : Z.div_eucl (Q * 2 ^ 24) 8388608 = (Q * 2, 0)).
  { pose proof (Z_div_mod (Q * 2 ^ 24) 8388608 ltac:(lia)) as Hdm.
    destruct (Z.div_eucl (Q * 2 ^ 24) 8388608) as [q r].
    destruct Hdm as [Heq Hr]. change (2 ^ 24) with 16777216 in Heq.
    f_equal; lia. }
  rewrite Hdiv. cbn [new_location Z.even new_location_even Z.eqb].
  rewrite xorb_false_r.
  change (Q * 2) with (Q * 2 ^ 1).
  replace (d + e - 24 - 2) with (d + (e - 1) - 24 - 1) by lia.
  apply binary_round_aux_exact; lia.
Qed.

(** *** Order and value of exact floats *)

Lemma mantissa_compare (A B e : Z) :
  0 < A < 2 ^ 24 -> 0 < B < 2 ^ 24 ->
  match Z.log2 A + 1 + e - 24 ?= Z.log2 B + 1 + e - 24 with
  | Lt => Lt
  | Gt => Gt
  | Eq => Pos.compare_cont Eq (Z.to_pos (A * 2 ^ (24 - (Z.log2 A + 1))))
                              (Z.to_pos (B * 2 ^ (24 - (Z.log2 B + 1))))
  end = (A ?= B).
Proof.
  intros HA HB.
  pose proof (mantissa_range A HA) as HQA.
  pose proof (mantissa_range B HB) as HQB.
  destruct (Z.compare_spec (Z.log2 A + 1 + e - 24) (Z.log2 B + 1 + e - 24))
    as [Heq|Hlt|Hgt].
  - assert (HL : Z.log2 A = Z.log2 B) by lia.
    change (Pos.compare_cont Eq ?x ?y) with (Pos.compare x y).
    rewrite Pos2Z.inj_compare, !Z2Pos.id by lia.
    rewrite HL. symmetry. apply Zmult_compare_compat_r.
    apply Z.lt_gt. apply Z.pow_pos_nonneg; [lia|].
    assert (Z.log2 B < 24) by (apply Z.log2_lt_pow2; lia). lia.
  - symmetry. apply Z.compare_lt_iff. apply Z.log2_lt_cancel. lia.
  - symmetry. apply Z.compare_gt_iff. apply Z.log2_lt_cancel. lia.
Qed.

Lemma canon_compare (a b e : Z) :
  Z.abs a < 2 ^ 24 -> Z.abs b < 2 ^ 24 ->
  SFcompare (canon a e) (canon b e) = Some (a ?= b).
Proof.
  intros Ha Hb.
  destruct (Z.eq_dec a 0) as [->|Ha0]; destruct (Z.eq_dec b 0) as [->|Hb0].
  - reflexivity.
  - unfold canon at 1. cbn [Z.eqb]. rewrite (canon_finite b) by assumption.
    cbn [SFcompare]. f_equal.
    destruct (Z.ltb_spec b 0); symmetry;
      [apply Z.compare_gt_iff | apply Z.compare_lt_iff]; lia.
  - unfold canon at 2. cbn [Z.eqb]. rewrite (canon_finite a) by assumption.
    cbn [SFcompare]. f_equal.
    destruct (Z.ltb_spec a 0); symmetry;
      [apply Z.compare_lt_iff | apply Z.compare_gt_iff]; lia.
  - rewrite (canon_finite a), (canon_finite b) by assumption.
    cbn [SFcompare]. f_equal.
    destruct (Z.ltb_spec a 0) as [Han|Hap]; destruct (Z.ltb_spec b 0) as [Hbn|Hbp].
    + pose proof (mantissa_compare (Z.abs a) (Z.abs b) e
                    ltac:(lia) ltac:(lia)) as Hc.
      assert (Hopp : CompOpp (Z.abs a ?= Z.abs b) = (a ?= b)).
      { rewrite !Z.abs_neq by lia. rewrite Z.compare_opp.
        symmetry. apply Z.compare_antisym. }
      rewrite <- Hopp, <- Hc.
      destruct (Z.log2 (Z.abs a) + 1 + e - 24 ?= Z.log2 (Z.abs b) + 1 + e - 24);
        reflexivity.
    + symmetry. apply Z.compare_lt_iff. lia.
    + symmetry. apply Z.compare_gt_iff. lia.
    + rewrite (mantissa_compare (Z.abs a) (Z.abs b) e) by lia.
      rewrite !Z.abs_eq by lia. reflexivity.
Qed.

Lemma canon_ltb (a b e : Z) :
  Z.abs a < 2 ^ 24 -> Z.abs b < 2 ^ 24 ->
  SFltb (canon a e) (canon b e) = (a <? b).
Proof.
  intros Ha Hb. unfold SFltb. rewrite canon_compare by assumption.
  unfold Z.ltb. destruct (a ?= b); reflexivity.
Qed.

Lemma round_half_even_exact (q k : Z) :
  0 <= k -> round_half_even (q * 2 ^ k) k = q.
Proof.
  intros Hk. unfold round_half_even.
  assert (Hpow : 0 < 2 ^ k) by (apply Z.pow_pos_nonneg; lia).
  rewrite Z.mod_mul, Z.div_mul by lia.
  change (2 * 0) with 0.
  destruct (Z.compare_spec 0 (2 ^ k)); lia.
Qed.

Lemma roundToInt_canon (n : Z) : Z.abs n < 2 ^ 24 -> roundToInt (canon n 0) = n.
Proof.
  intros Hn. destruct (Z.eq_dec n 0) as [->|Hn0]; [reflexivity|].
  pose proof (log2_abs_bound n Hn0 Hn) as Hd.
  rewrite canon_finite by assumption. cbn [roundToInt].
  rewrite canon_mantissa by assumption.
  set (d := Z.log2 (Z.abs n) + 1) in *.
  assert (Hsign : cond_Zopp (n <? 0) (Z.abs n) = n)
    by (destruct (Z.ltb_spec n 0); cbn [cond_Zopp]; lia).
  destruct (Z.leb_spec 0 (d + 0 - 24)) as [Hge|Hlt].
  - replace (d + 0 - 24) with 0 by lia. replace (24 - d) with 0 by lia.
    rewrite Z.pow_0_r, !Z.mul_1_r, Hsign. apply to_int32_small. lia.
  - replace (- (d + 0 - 24)) with (24 - d) by lia.
    rewrite round_half_even_exact by lia.
    rewrite Hsign. apply to_int32_small. lia.
Qed.

Lemma f32_one : f32_of_int 1 = canon 1 0.
Proof. reflexivity. Qed.

(** Scaling an [int] of at most 24 bits by [1.0f] and rounding gives it
    back. *)
Lemma scale_by_one (n : Z) :
  Z.abs n <= 2 ^ 24 ->
  roundToInt (f32_mul (f32_of_int n) (f32_of_int 1)) = n.
Proof.
  intros Hn.
  destruct (Z.eq_dec n 0) as [->|Hn0]; [reflexivity|].
  destruct (Z.eq_dec n (2 ^ 24)) as [->|Hhi]; [reflexivity|].
  destruct (Z.eq_dec n (- 2 ^ 24)) as [->|Hlo]; [reflexivity|].
  rewrite f32_of_int_exact, f32_one by lia.
  rewrite canon_mul by (try assumption; try (rewrite Z.mul_1_r); lia).
  rewrite Z.mul_1_r. apply roundToInt_canon. lia.
Qed.

(** A colour whose channels are bytes. *)
Lemma withMultipliedAlpha_one (c : Colour) :
  0 <= alpha c < 256 -> withMultipliedAlpha c (f32_of_int 1) = c.
Proof.
  intros Ha. unfold withMultipliedAlpha, setAlpha.
  assert (Hround : roundToInt (f32_mul (f32_of_int 1) (f32_of_int (alpha c)))
                   = alpha c).
  { destruct (Z.eq_dec (alpha c) 0) as [H0|H0]; [rewrite H0; reflexivity|].
    rewrite (f32_of_int_exact (alpha c)), f32_one by lia.
    rewrite canon_mul by (try assumption; try (rewrite Z.mul_1_l); lia).
    rewrite Z.mul_1_l. apply roundToInt_canon. lia. }
  rewrite Hround, jmin_int, Z.min_r by lia.
  rewrite to_uint8_small by lia. destruct c; reflexivity.
Qed.

(** ** C5: [applyEffect] at scale 1 and alpha 1 *)

(** An [int] offset of more than 24 bits does not survive the conversion
    to [float]: with a stored offset of 16777217 the shadow is drawn at
    16777216. *)
Lemma applyEffect_rounds_offset :
  let e := mkEffect (mkDropShadow white 1 (mkPoint 16777217 0)) in
  let g := mkGraphics (mkRect 0 0 100 100) [] in
  isValid (Some 0%nat) = true
  /\ (exists img,
        issued (applyEffect e (Some 0%nat) g (f32_of_int 1) (f32_of_int 1) dot_heap)
        = Some [SetColour white; DrawImageAt (Some img) 16777216 0 true;
                SetOpacity (f32_of_int 1); DrawImageAt (Some dot_image) 0 0 false]
        /\ issued (shadow_then_image (shadow e) (Some 0%nat) g dot_heap)
           = Some [SetColour white; DrawImageAt (Some img) 16777217 0 true;
                   SetOpacity (f32_of_int 1); DrawImageAt (Some dot_image) 0 0 false])
  /\ applyEffect e (Some 0%nat) g (f32_of_int 1) (f32_of_int 1) dot_heap
     <> shadow_then_image (shadow e) (Some 0%nat) g dot_heap.
Proof.
  cbv zeta. split; [reflexivity|]. split.
  - eexists. split; vm_compute; reflexivity.
  - intros Heq. apply (f_equal issued) in Heq. vm_compute in Heq. discriminate.
Qed.

(** C5 (amended).  Let the stored shadow have a radius and offsets of
    magnitude at most 2^24 = 16777216 (the integers that a [float] holds
    exactly) and a colour whose alpha is a byte.  Then [applyEffect] with
    [scaleFactor = 1.0f] and [alpha = 1.0f] is [drawForImage] with the
    stored shadow followed by [setOpacity (1.0f)] and
    [drawImageAt (image, 0, 0)], on every image, context and heap: the two
    return the same context, with the same calls, and the same heap, or
    fault alike. *)
Theorem applyEffect_unit_scale (e : DropShadowEffect) (image : Image)
    (g : Graphics) (hp : Heap) :
  Z.abs (radius (shadow e)) <= 2 ^ 24 ->
  Z.abs (pt_x (offset (shadow e))) <= 2 ^ 24 ->
  Z.abs (pt_y (offset (shadow e))) <= 2 ^ 24 ->
  0 <= alpha (colour (shadow e)) < 256 ->
  applyEffect e image g (f32_of_int 1) (f32_of_int 1) hp
  = shadow_then_image (shadow e) image g hp.
Proof.
  intros Hr Hx Hy Ha. unfold applyEffect, shadow_then_image.
  cbn [colour radius offset pt_x pt_y].
  rewrite !scale_by_one by assumption.
  rewrite withMultipliedAlpha_one by assumption.
  destruct e as [[c r [ox oy]]]. reflexivity.
Qed.

Lemma applyEffect_unit_scale_witness :
  applyEffect (mkEffect (mkDropShadow white 2 (mkPoint 3 (-4)))) (Some 0%nat)
    (mkGraphics (mkRect 0 0 100 100) []) (f32_of_int 1) (f32_of_int 1) dot_heap
  = shadow_then_image (mkDropShadow white 2 (mkPoint 3 (-4))) (Some 0%nat)
      (mkGraphics (mkRect 0 0 100 100) []) dot_heap.
Proof.
  apply (applyEffect_unit_scale
           (mkEffect (mkDropShadow white 2 (mkPoint 3 (-4)))) (Some 0%nat)
           (mkGraphics (mkRect 0 0 100 100) []) dot_heap).
  - vm_compute. discriminate.
  - vm_compute. discriminate.
  - vm_compute. discriminate.
  - split; [vm_compute; discriminate | reflexivity].
Defined.

(** *** Half-integers *)

Lemma half_of_int (n : Z) : Z.abs n < 2 ^ 23 -> f32_of_int n = half (2 * n).
Proof.
  intros Hn. rewrite f32_of_int_exact by lia. unfold half.
  replace (2 * n) with (n * 2 ^ 1) by lia. change (-1) with (0 - 1).
  symmetry. apply canon_shift; lia.
Qed.

Lemma half_add (a b : Z) :
  Z.abs a < 2 ^ 24 -> Z.abs b < 2 ^ 24 -> Z.abs (a + b) < 2 ^ 24 ->
  f32_add (half a) (half b) = half (a + b).
Proof. intros. apply canon_add; lia. Qed.

Lemma half_sub (a b : Z) :
  Z.abs a < 2 ^ 24 -> Z.abs b < 2 ^ 24 -> Z.abs (a - b) < 2 ^ 24 ->
  f32_sub (half a) (half b) = half (a - b).
Proof. intros. apply canon_sub; lia. Qed.

Lemma half_mul2 (a : Z) :
  a <> 0 -> Z.abs a < 2 ^ 23 -> f32_mul (half a) (f32_of_int 2) = half (a * 2).
Proof.
  intros Ha0 Ha. unfold half. rewrite (f32_of_int_exact 2) by (simpl; lia).
  change (-1) with (-1 + 0).
  apply canon_mul; try assumption; try lia; simpl; lia.
Qed.

Lemma half_opp (a : Z) : a <> 0 -> SFopp (half a) = half (- a).
Proof. apply canon_opp. Qed.

Lemma half_div2 (n : Z) :
  n <> 0 -> Z.abs n < 2 ^ 24 ->
  f32_div (f32_of_int n) (f32_of_int 2) = half n.
Proof.
  intros Hn0 Hn. rewrite (f32_of_int_exact n) by assumption.
  unfold half. change (-1) with (0 - 1). apply canon_div2; lia.
Qed.

Lemma half_ltb (a b : Z) :
  Z.abs a < 2 ^ 24 -> Z.abs b < 2 ^ 24 -> SFltb (half a) (half b) = (a <? b).
Proof. apply canon_ltb. Qed.

Lemma half_zero : f32_of_int 0 = half 0.
Proof. reflexivity. Qed.

Lemma F2Q_half (a : Z) :
  Z.abs a < 2 ^ 24 -> (F2Q (half a) == inject_Z a / 2)%Q.
Proof.
  intros Ha. unfold half.
  destruct (Z.eq_dec a 0) as [->|Ha0]; [reflexivity|].
  pose proof (log2_abs_bound a Ha0 Ha) as Hd.
  rewrite canon_finite by assumption. cbn [F2Q].
  rewrite canon_mantissa by assumption.
  set (d := Z.log2 (Z.abs a) + 1) in *.
  replace (0 <=? d + -1 - 24) with false by (symmetry; apply Z.leb_gt; lia).
  replace (- (d + -1 - 24)) with (1 + (24 - d)) by lia.
  rewrite Z.pow_add_r by lia. change (2 ^ 1) with 2.
  assert (Hc : 0 < 2 ^ (24 - d)) by (apply Z.pow_pos_nonneg; lia).
  assert (Hsign : cond_Zopp (a <? 0) (Z.abs a * 2 ^ (24 - d)) = a * 2 ^ (24 - d))
    by (destruct (Z.ltb_spec a 0); cbn [cond_Zopp]; nia).
  rewrite Hsign, !inject_Z_mult.
  field. intros H0. apply (Qeq_bool_neq (inject_Z (2 ^ (24 - d))) 0).
  - unfold Qeq_bool. simpl. apply Z.eqb_neq. lia.
  - assumption.
Qed.

(** ** C3: the nine areas of [drawForRectangle] *)

Lemma jmin_half (a b : Z) :
  Z.abs a < 2 ^ 24 -> Z.abs b < 2 ^ 24 -> jmin (half a) (half b) = half (Z.min a b).
Proof.
  intros Ha Hb. unfold jmin. cbn [num_ltb Num_float].
  rewrite half_ltb by assumption.
  destruct (Z.ltb_spec b a); f_equal; lia.
Qed.

Lemma jmax_half (a b : Z) :
  Z.abs a < 2 ^ 24 -> Z.abs b < 2 ^ 24 -> jmax (half a) (half b) = half (Z.max a b).
Proof.
  intros Ha Hb. unfold jmax. cbn [num_ltb Num_float].
  rewrite half_ltb by assumption.
  destruct (Z.ltb_spec a b); f_equal; lia.
Qed.

Lemma shadow_sections_exact (s : DropShadow) (t : Rectangle Z) :
  Z.abs (rx t) + Z.abs (pt_x (offset s)) + rw t + 2 * radius s < 2 ^ 23 ->
  Z.abs (ry t) + Z.abs (pt_y (offset s)) + rh t + 2 * radius s < 2 ^ 23 ->
  1 <= radius s ->
  3 * radius s < 2 * rw t -> 3 * radius s < 2 * rh t ->
  shadow_sections s t
  = sections_exact t (radius s) (pt_x (offset s)) (pt_y (offset s)).
Proof.
  intros Hx Hy Hr Hwr Hhr.
  destruct s as [c r [ox oy]]. destruct t as [x y w h].
  cbn [radius offset pt_x pt_y rx ry rw rh] in *.
  change (2 ^ 23) with 8388608 in *.
  unfold shadow_sections, sections_exact.
  cbn [radius offset pt_x pt_y rx ry rw rh].
  unfold rect_toFloat, point_toFloat, reduced, expanded, expanded2, translated.
  cbn [rx ry rw rh pt_x pt_y num_add num_sub num_mul num_opp num_of_int Num_float].
  rewrite (half_div2 r) by (change (2 ^ 24) with 16777216; lia).
  rewrite (half_of_int r), (half_of_int x), (half_of_int y), (half_of_int w),
    (half_of_int h), (half_of_int ox), (half_of_int oy), half_zero
    by lia.
  unfold removeFromTop, removeFromBottom, removeFromLeft, removeFromRight.
  cbn [rx ry rw rh fst snd num_add num_sub num_mul num_opp num_of_int Num_float].
  repeat first
    [ rewrite half_opp by lia
    | rewrite half_add by (change (2 ^ 24) with 16777216; lia)
    | rewrite half_sub by (change (2 ^ 24) with 16777216; lia)
    | rewrite half_mul2 by lia
    | rewrite jmin_half by (change (2 ^ 24) with 16777216; lia)
    | rewrite jmax_half by (change (2 ^ 24) with 16777216; lia) ].
  unfold hrect. cbn [rx ry rw rh].
  f_equal; f_equal; f_equal; lia.
Qed.

Lemma covers_hrect (a b c d : Z) (x y : Q) :
  Z.abs a < 2 ^ 24 -> Z.abs b < 2 ^ 24 -> Z.abs c < 2 ^ 24 -> Z.abs d < 2 ^ 24 ->
  covers (hrect (mkRect a b c d)) x y
  <-> (inject_Z a / 2 <= x /\ x < inject_Z a / 2 + inject_Z c / 2 /\
       inject_Z b / 2 <= y /\ y < inject_Z b / 2 + inject_Z d / 2)%Q.
Proof.
  intros Ha Hb Hc Hd. unfold covers, hrect. cbn [rx ry rw rh].
  rewrite !F2Q_half by assumption. reflexivity.
Qed.

Ltac push_inject H :=
  unfold Z.sub in H;
  repeat first [ rewrite inject_Z_plus in H
               | rewrite inject_Z_opp in H
               | rewrite inject_Z_mult in H ].

(** The partition in exact arithmetic: an outer rectangle at [(X0, Y0)] of
    extent [W0] by [H0] (half units), cut at distance [e] from each side. *)
Lemma tiles_exact (X0 Y0 W0 H0 e : Z) :
  0 < e -> 2 * e < W0 -> 2 * e < H0 ->
  Z.abs X0 < 2 ^ 24 -> W0 < 2 ^ 24 -> Z.abs (X0 + W0) < 2 ^ 24 ->
  Z.abs Y0 < 2 ^ 24 -> H0 < 2 ^ 24 -> Z.abs (Y0 + H0) < 2 ^ 24 ->
  tiles
    (mkSections
       (hrect (mkRect X0 Y0 e e))
       (hrect (mkRect (X0 + W0 - e) Y0 e e))
       (hrect (mkRect (X0 + e) Y0 (W0 - 2 * e) e))
       (hrect (mkRect X0 (Y0 + H0 - e) e e))
       (hrect (mkRect (X0 + W0 - e) (Y0 + H0 - e) e e))
       (hrect (mkRect (X0 + e) (Y0 + H0 - e) (W0 - 2 * e) e))
       (hrect (mkRect X0 (Y0 + e) e (H0 - 2 * e)))
       (hrect (mkRect (X0 + W0 - e) (Y0 + e) e (H0 - 2 * e)))
       (hrect (mkRect (X0 + e) (Y0 + e) (W0 - 2 * e) (H0 - 2 * e)))
       (hrect (mkRect X0 Y0 W0 H0))).
Proof.
  intros He HW HH HX HWb HXW HY HHb HYH x y.
  change (2 ^ 24) with 16777216 in *.
  assert (Hqe : (0 < inject_Z e)%Q)
    by (change 0%Q with (inject_Z 0); rewrite <- Zlt_Qlt; assumption).
  assert (HqW : (2 * inject_Z e < inject_Z W0)%Q).
  { change 2%Q with (inject_Z 2). rewrite <- inject_Z_mult, <- Zlt_Qlt. assumption. }
  assert (HqH : (2 * inject_Z e < inject_Z H0)%Q).
  { change 2%Q with (inject_Z 2). rewrite <- inject_Z_mult, <- Zlt_Qlt. assumption. }
  unfold tiles, regions.
  cbn [topLeft topRight topEdge bottomLeft bottomRight bottomEdge leftEdge
       rightEdge centre outer].
  assert (Hc : forall a b c d,
             Z.abs a < 16777216 -> Z.abs b < 16777216 ->
             Z.abs c < 16777216 -> Z.abs d < 16777216 ->
             covers (hrect (mkRect a b c d)) x y
             <-> (inject_Z a / 2 <= x /\ x < inject_Z a / 2 + inject_Z c / 2 /\
                  inject_Z b / 2 <= y /\ y < inject_Z b / 2 + inject_Z d / 2)%Q)
    by (intros; apply covers_hrect; assumption).
  rewrite (Hc X0 Y0 W0 H0) by lia.
  pose proof (Hc X0 Y0 e e ltac:(lia) ltac:(lia) ltac:(lia) ltac:(lia)) as C0.
  pose proof (Hc (X0 + W0 - e) Y0 e e ltac:(lia) ltac:(lia) ltac:(lia) ltac:(lia)) as C1.
  pose proof (Hc (X0 + e) Y0 (W0 - 2 * e) e ltac:(lia) ltac:(lia) ltac:(lia) ltac:(lia)) as C2.
  pose proof (Hc X0 (Y0 + H0 - e) e e ltac:(lia) ltac:(lia) ltac:(lia) ltac:(lia)) as C3.
  pose proof (Hc (X0 + W0 - e) (Y0 + H0 - e) e e ltac:(lia) ltac:(lia) ltac:(lia) ltac:(lia)) as C4.
  pose proof (Hc (X0 + e) (Y0 + H0 - e) (W0 - 2 * e) e ltac:(lia) ltac:(lia) ltac:(lia) ltac:(lia)) as C5.
  pose proof (Hc X0 (Y0 + e) e (H0 - 2 * e) ltac:(lia) ltac:(lia) ltac:(lia) ltac:(lia)) as C6.
  pose proof (Hc (X0 + W0 - e) (Y0 + e) e (H0 - 2 * e) ltac:(lia) ltac:(lia) ltac:(lia) ltac:(lia)) as C7.
  pose proof (Hc (X0 + e) (Y0 + e) (W0 - 2 * e) (H0 - 2 * e) ltac:(lia) ltac:(lia) ltac:(lia) ltac:(lia)) as C8.
  clear Hc.
  push_inject C0. push_inject C1. push_inject C2. push_inject C3. push_inject C4.
  push_inject C5. push_inject C6. push_inject C7. push_inject C8.
  change (inject_Z 2) with 2%Q in *.
  set (qX := inject_Z X0) in *. set (qY := inject_Z Y0) in *.
  set (qW := inject_Z W0) in *. set (qH := inject_Z H0) in *.
  set (qe := inject_Z e) in *.
  clearbody qX qY qW qH qe. unfold Qdiv in *.
  change (/ 2)%Q with (1 # 2)%Q in *.
  split.
  - split.
    + intros Hout.
      destruct (Qlt_le_dec x ((qX + qe) * (1 # 2))) as [Hx1|Hx1];
        [|destruct (Qlt_le_dec x ((qX + qW - qe) * (1 # 2))) as [Hx2|Hx2]];
        (destruct (Qlt_le_dec y ((qY + qe) * (1 # 2))) as [Hy1|Hy1];
         [|destruct (Qlt_le_dec y ((qY + qH - qe) * (1 # 2))) as [Hy2|Hy2]]).
      * exists 0%nat. eexists. split; [reflexivity|]. apply C0. lra.
      * exists 6%nat. eexists. split; [reflexivity|]. apply C6. lra.
      * exists 3%nat. eexists. split; [reflexivity|]. apply C3. lra.
      * exists 2%nat. eexists. split; [reflexivity|]. apply C2. lra.
      * exists 8%nat. eexists. split; [reflexivity|]. apply C8. lra.
      * exists 5%nat. eexists. split; [reflexivity|]. apply C5. lra.
      * exists 1%nat. eexists. split; [reflexivity|]. apply C1. lra.
      * exists 7%nat. eexists. split; [reflexivity|]. apply C7. lra.
      * exists 4%nat. eexists. split; [reflexivity|]. apply C4. lra.
    + intros (i & r & Hi & Hr).
      do 9 (destruct i as [|i];
            [injection Hi as <-;
             first [apply C0 in Hr | apply C1 in Hr | apply C2 in Hr
                   | apply C3 in Hr | apply C4 in Hr | apply C5 in Hr
                   | apply C6 in Hr | apply C7 in Hr | apply C8 in Hr]; lra|]).
      discriminate.
  - intros i j r1 r2 Hi Hj H1 H2.
    do 9 (destruct i as [|i];
          [injection Hi as <-;
           first [apply C0 in H1 | apply C1 in H1 | apply C2 in H1
                 | apply C3 in H1 | apply C4 in H1 | apply C5 in H1
                 | apply C6 in H1 | apply C7 in H1 | apply C8 in H1];
           do 9 (destruct j as [|j];
                 [injection Hj as <-;
                  first [apply C0 in H2 | apply C1 in H2 | apply C2 in H2
                        | apply C3 in H2 | apply C4 in H2 | apply C5 in H2
                        | apply C6 in H2 | apply C7 in H2 | apply C8 in H2];
                  first [reflexivity | exfalso; lra]|]);
           discriminate|]).
    discriminate.
Qed.

(** Where half-pixel coordinates exceed 2^23 they are rounded and the
    partition breaks: for a target area at x = 8388607 = 2^23 - 1 with
    radius 1, the top edge strip extends from 8388607.5 to 8388616.5 while
    the top right corner starts at 8388616 (8388616.5 is no [float]), so
    the point (8388616.25, 0) lies in both. *)
Lemma drawForRectangle_overlap :
  let s := mkDropShadow white 1 (mkPoint 0 0) in
  let t := mkRect 8388607 0 10 10 in
  1 <= radius s /\ 3 * radius s < rw t /\ 3 * radius s < rh t
  /\ topEdge (shadow_sections s t)
     = mkRect (half 16777215) (f32_of_int (-1)) (f32_of_int 9) (half 3)
  /\ topRight (shadow_sections s t)
     = mkRect (f32_of_int 8388616) (f32_of_int (-1)) (half 3) (half 3)
  /\ covers (topRight (shadow_sections s t)) (33554465 # 4) 0
  /\ covers (topEdge (shadow_sections s t)) (33554465 # 4) 0
  /\ ~ tiles (shadow_sections s t).
Proof.
  cbv zeta.
  assert (H1 : covers (topRight (shadow_sections
                         (mkDropShadow white 1 (mkPoint 0 0))
                         (mkRect 8388607 0 10 10))) (33554465 # 4) 0)
    by (repeat split; vm_compute; first [reflexivity | discriminate]).
  assert (H2 : covers (topEdge (shadow_sections
                         (mkDropShadow white 1 (mkPoint 0 0))
                         (mkRect 8388607 0 10 10))) (33554465 # 4) 0)
    by (repeat split; vm_compute; first [reflexivity | discriminate]).
  split; [cbn; lia|]. split; [cbn; lia|]. split; [cbn; lia|].
  split; [vm_compute; reflexivity|]. split; [vm_compute; reflexivity|].
  split; [exact H1|]. split; [exact H2|].
  intros Htiles. destruct (Htiles (33554465 # 4) 0%Q) as [_ Hdisj].
  specialize (Hdisj 1%nat 2%nat _ _ eq_refl eq_refl H1 H2). discriminate.
Qed.

Lemma sections_exact_tiles (t : Rectangle Z) (r ox oy : Z) :
  Z.abs (rx t) + Z.abs ox + rw t + 2 * r < 2 ^ 23 ->
  Z.abs (ry t) + Z.abs oy + rh t + 2 * r < 2 ^ 23 ->
  1 <= r -> 3 * r < rw t -> 3 * r < rh t ->
  tiles (sections_exact t r ox oy).
Proof.
  intros Hx Hy Hr Hwr Hhr.
  change (2 ^ 23) with 8388608 in *.
  unfold sections_exact. cbv zeta.
  apply tiles_exact; change (2 ^ 24) with 16777216; lia.
Qed.

(** C3 (amended).  Let the target area, the offset and the radius be
    small enough for every coordinate the function computes to be a
    half-integer that a [float] holds exactly: on each axis, the magnitudes
    of the target's position and of the offset, the target's extent and
    twice the radius add up to less than 2^23.  For [radius >= 1]
    and a target whose width and height exceed [2 * expandedRadius]
    (that is, [3 * radius]), the nine areas that [drawForRectangle] fills
    tile the inset-then-expanded rectangle: a point lies in it exactly when
    one of the nine covers it, and no point is covered by two.  The four
    corners are squares of side [expandedRadius]; [drawForRectangle]
    returns and the rectangles it fills are these nine, in order. *)
Theorem drawForRectangle_tiles (s : DropShadow) (g : Graphics)
    (targetArea : Rectangle Z) :
  Z.abs (rx targetArea) + Z.abs (pt_x (offset s)) + rw targetArea
    + 2 * radius s < 2 ^ 23 ->
  Z.abs (ry targetArea) + Z.abs (pt_y (offset s)) + rh targetArea
    + 2 * radius s < 2 ^ 23 ->
  1 <= radius s ->
  3 * radius s < rw targetArea -> 3 * radius s < rh targetArea ->
  let sec := shadow_sections s targetArea in
  tiles sec
  /\ Forall (fun corner => rw corner = half (3 * radius s)
                           /\ rh corner = half (3 * radius s))
       [topLeft sec; topRight sec; bottomLeft sec; bottomRight sec]
  /\ exists g',
       drawForRectangle s g targetArea = Ok g'
       /\ filled (calls g') = filled (calls g) ++ regions sec.
Proof.
  intros Hx Hy Hr Hwr Hhr. cbv zeta.
  rewrite (shadow_sections_exact s targetArea) by (try assumption; lia).
  split; [apply sections_exact_tiles; assumption|].
  split; [repeat constructor|].
  destruct (falloff_gradient_eq (colour s) 53) as (cg & Hcg & _).
  change (11 + 53)%nat with 64%nat in Hcg.
  unfold drawForRectangle. rewrite Hcg.
  rewrite (shadow_sections_exact s targetArea) by (try assumption; lia).
  eexists. split; [reflexivity|]. apply fill_sections_filled.
Qed.

Lemma drawForRectangle_tiles_witness :
  let s := mkDropShadow white 2 (mkPoint 1 (-1)) in
  let g := mkGraphics (mkRect 0 0 100 100) [] in
  let sec := shadow_sections s (mkRect 10 20 30 40) in
  tiles sec
  /\ exists g',
       drawForRectangle s g (mkRect 10 20 30 40) = Ok g'
       /\ filled (calls g') = filled (calls g) ++ regions sec.
Proof.
  cbv zeta.
  destruct (drawForRectangle_tiles (mkDropShadow white 2 (mkPoint 1 (-1)))
              (mkGraphics (mkRect 0 0 100 100) []) (mkRect 10 20 30 40))
    as (Htiles & _ & Hfill).
  - reflexivity.
  - reflexivity.
  - vm_compute. discriminate.
  - reflexivity.
  - reflexivity.
  - split; [exact Htiles | exact Hfill].
Defined.

Example shadow_sections_small :
  shadow_sections (mkDropShadow white 1 (mkPoint 0 0)) (mkRect 0 0 10 10)
  = sections_exact (mkRect 0 0 10 10) 1 0 0.
Proof. reflexivity. Qed.

(** Two roundings the bounds above keep out: an [int] of 25 bits, and a
    half-pixel position beyond 2^23. *)
Example float_has_24_bits : f32_of_int 16777217 = f32_of_int 16777216.
Proof. reflexivity. Qed.

Example float_loses_half_pixel :
  f32_sub (f32_of_int 8388618) (half 3) = f32_of_int 8388616.
Proof. reflexivity. Qed.

(** * Further properties *)

(** ** Short lines and absent repetitions *)

Lemma blur_loop_exit (fuel : nat) (d num delta last : Z) (m : mem) :
  num <= 1 ->
  blur_loop (S fuel) d num delta last m = blur_loop 1 d 1 delta last m.
Proof.
  intros Hnum. cbn [blur_loop]. unfold bind.
  destruct (load d m) as [[newLast m1]|f]; [|reflexivity].
  destruct (load d m1) as [[a m2]|f]; [|reflexivity].
  destruct (load (d + delta) m2) as [[b m3]|f]; [|reflexivity].
  destruct (store_u8 d _ m3) as [[[] m4]|f]; [|reflexivity].
  cbv zeta.
  replace (0 <? num - 1) with false by (symmetry; apply Z.ltb_ge; lia).
  reflexivity.
Qed.

Lemma blurDataTriplets_short (d num delta : Z) (m : mem) :
  num <= 3 -> blurDataTriplets d num delta m = blurDataTriplets d 3 delta m.
Proof.
  intros Hnum. unfold blurDataTriplets. unfold bind.
  destruct (load d m) as [[last m1]|f]; [|reflexivity].
  destruct (load d m1) as [[a m2]|f]; [|reflexivity].
  destruct (load (d + delta) m2) as [[b m3]|f]; [|reflexivity].
  destruct (store_u8 d _ m3) as [[[] m4]|f]; [|reflexivity].
  cbv zeta.
  rewrite (blur_loop_exit _ _ (num - 2)) by lia.
  change (Z.to_nat (3 - 2)) with 1%nat. change (3 - 2) with 1.
  rewrite (blur_loop_exit 1 _ 1) by lia.
  reflexivity.
Qed.

(** *** A run that returns keeps the length of the buffer *)

Lemma keeps_length_ret {A} (a : A) : keeps_length (ret a).
Proof. intros m a' m' H. injection H as _ <-. reflexivity. Qed.

Lemma keeps_length_bind {A B} (c : M A) (k : A -> M B) :
  keeps_length c -> (forall a, keeps_length (k a)) -> keeps_length (bind c k).
Proof.
  intros Hc Hk m b m' H. unfold bind in H.
  destruct (c m) as [[a m1]|f] eqn:E; [|discriminate].
  rewrite (Hk a m1 b m' H). exact (Hc m a m1 E).
Qed.

Lemma keeps_length_load (i : Z) : keeps_length (load i).
Proof.
  intros m a m' H. unfold load in H.
  destruct (in_bounds (bytes m) i); [|discriminate].
  injection H as _ <-. reflexivity.
Qed.

Lemma keeps_length_store (i v : Z) : keeps_length (store_u8 i v).
Proof.
  intros m a m' H. unfold store_u8 in H.
  destruct (in_bounds (bytes m) i); [|discriminate].
  injection H as _ <-. cbn [bytes]. apply length_insert.
Qed.

Lemma keeps_length_blur_loop (fuel : nat) (d num delta last : Z) :
  keeps_length (blur_loop fuel d num delta last).
Proof.
  revert d num last. induction fuel as [|fuel IH]; intros d num last.
  - intros m a m' H. discriminate.
  - cbn [blur_loop].
    apply keeps_length_bind; [apply keeps_length_load|]. intros newLast.
    apply keeps_length_bind; [apply keeps_length_load|]. intros a.
    apply keeps_length_bind; [apply keeps_length_load|]. intros b.
    apply keeps_length_bind; [apply keeps_length_store|]. intros _.
    cbv zeta. destruct (0 <? num - 1); [apply IH | apply keeps_length_ret].
Qed.

Lemma keeps_length_blurDataTriplets (d num delta : Z) :
  keeps_length (blurDataTriplets d num delta).
Proof.
  unfold blurDataTriplets.
  apply keeps_length_bind; [apply keeps_length_load|]. intros last.
  apply keeps_length_bind; [apply keeps_length_load|]. intros a.
  apply keeps_length_bind; [apply keeps_length_load|]. intros b.
  apply keeps_length_bind; [apply keeps_length_store|]. intros _.
  cbv zeta.
  apply keeps_length_bind; [apply keeps_length_blur_loop|]. intros [d' last'].
  apply keeps_length_bind; [apply keeps_length_load|]. intros a'.
  apply keeps_length_store.
Qed.

Lemma keeps_length_repeatM (k : nat) (c : M unit) :
  keeps_length c -> keeps_length (repeatM k c).
Proof.
  intros Hc. induction k as [|k IH]; cbn [repeatM].
  - apply keeps_length_ret.
  - apply keeps_length_bind; [exact Hc | intros _; exact IH].
Qed.

Lemma keeps_length_forM (l : list Z) (body : Z -> M unit) :
  (forall x, keeps_length (body x)) -> keeps_length (forM l body).
Proof.
  intros Hb. induction l as [|x l IH]; cbn [forM].
  - apply keeps_length_ret.
  - apply keeps_length_bind; [apply Hb | intros _; exact IH].
Qed.

(** A bind faults when its first part does, or when its second part
    faults on every state of the same length. *)
Lemma bind_faults {A B} (c : M A) (k : A -> M B) (m : mem) :
  keeps_length c ->
  (forall a m', length (bytes m') = length (bytes m) -> exists f, k a m' = Fault f) ->
  exists f, bind c k m = Fault f.
Proof.
  intros Hc Hk. unfold bind.
  destruct (c m) as [[a m1]|f] eqn:E; [|eexists; reflexivity].
  apply Hk. exact (Hc m a m1 E).
Qed.

Lemma load_faults (i : Z) (m : mem) :
  in_bounds (bytes m) i = false -> load i m = Fault (OutOfBounds i).
Proof. intros H. unfold load. rewrite H. reflexivity. Qed.

Lemma in_bounds_same (m m' : mem) (i : Z) :
  length (bytes m') = length (bytes m) ->
  in_bounds (bytes m') i = in_bounds (bytes m) i.
Proof. intros H. unfold in_bounds. rewrite H. reflexivity. Qed.

Lemma blurDataTriplets_third_sample (d num delta : Z) (m : mem) :
  num <= 3 -> in_bounds (bytes m) (d + 2 * delta) = false ->
  exists f, blurDataTriplets d num delta m = Fault f.
Proof.
  intros Hnum Hout. rewrite blurDataTriplets_short by assumption.
  unfold blurDataTriplets.
  apply bind_faults; [apply keeps_length_load|]. intros last m1 L1.
  apply bind_faults; [apply keeps_length_load|]. intros a m2 L2.
  apply bind_faults; [apply keeps_length_load|]. intros b m3 L3.
  apply bind_faults; [apply keeps_length_store|]. intros [] m4 L4.
  cbv zeta. change (Z.to_nat (3 - 2)) with 1%nat.
  assert (Hloop : exists f, blur_loop 2 (d + delta) (3 - 2) delta last m4 = Fault f).
  { cbn [blur_loop].
    apply bind_faults; [apply keeps_length_load|]. intros nl m5 L5.
    apply bind_faults; [apply keeps_length_load|]. intros a' m6 L6.
    unfold bind at 1.
    rewrite load_faults; [eexists; reflexivity|].
    replace (d + delta + delta) with (d + 2 * delta) by lia.
    rewrite <- Hout. unfold in_bounds. congruence. }
  destruct Hloop as [f Hloop]. exists f. unfold bind at 1. rewrite Hloop.
  reflexivity.
Qed.

Lemma forM_skip (l : list Z) (body : Z -> M unit) (m : mem) :
  (forall x, body x m = Ok (tt, m)) -> forM l body m = Ok (tt, m).
Proof.
  intros Hb. induction l as [|x l IH]; [reflexivity|].
  cbn [forM]. unfold bind. rewrite Hb. exact IH.
Qed.

Lemma seqZ_first (len : Z) : 0 < len -> seqZ 0 len = 0 :: seqZ 1 (len - 1).
Proof.
  intros Hlen. replace len with (Z.succ (len - 1)) at 1 by lia.
  rewrite seqZ_cons by lia. rewrite Z.pred_succ. reflexivity.
Qed.

Lemma bind_fault_now {A B} (c : M A) (k : A -> M B) (m : mem) :
  (exists f, c m = Fault f) -> exists f, bind c k m = Fault f.
Proof. intros [f H]. exists f. unfold bind. rewrite H. reflexivity. Qed.

(** X1.  [blurDataTriplets] has no check on [num]: the do-while loop runs
    at least once, so for every [num <= 3] (also 2, 1, 0 or a negative
    count) the call does what it does for [num = 3]; it reads and writes
    the three samples [d[0]], [d[delta]] and [d[2 * delta]].  When the
    third sample lies outside the buffer the call leaves the buffer.  The
    lower bound on [num] keeps [num - 2] and [--num] inside [int]. *)
Theorem blurDataTriplets_short_line (d num delta : Z) (m : mem) :
  - 2 ^ 31 + 3 <= num <= 3 ->
  blurDataTriplets d num delta m = blurDataTriplets d 3 delta m
  /\ (in_bounds (bytes m) (d + 2 * delta) = false ->
      exists f, blurDataTriplets d num delta m = Fault f).
Proof.
  intros [_ Hnum]. split.
  - apply blurDataTriplets_short. assumption.
  - apply blurDataTriplets_third_sample. assumption.
Qed.

Lemma blurDataTriplets_short_line_witness :
  blurDataTriplets 0 1 1 (Mem [30; 60; 90] false)
  = blurDataTriplets 0 3 1 (Mem [30; 60; 90] false)
  /\ exists f, blurDataTriplets 0 2 1 (Mem [30; 60] false) = Fault f.
Proof.
  split.
  - destruct (blurDataTriplets_short_line 0 1 1 (Mem [30; 60; 90] false))
      as [Heq _]; [lia | exact Heq].
  - destruct (blurDataTriplets_short_line 0 2 1 (Mem [30; 60] false))
      as [_ Hfault]; [lia | apply Hfault; reflexivity].
Defined.

Lemma blur_skipped (data w h stride reps : Z) (m : mem) :
  reps <= 0 -> blurSingleChannelImage data w h stride reps m = Ok (tt, m).
Proof.
  intros Hreps. unfold blurSingleChannelImage.
  replace (Z.to_nat reps) with 0%nat by lia. cbn [repeatM].
  unfold bind. rewrite forM_skip by reflexivity.
  apply forM_skip. reflexivity.
Qed.

(** X3.  With [repetitions <= 0] the loops [for (int i = repetitions;
    --i >= 0;)] have no iteration: [blurSingleChannelImage] returns with
    the memory as it was and touches no byte, whatever the width, the
    height, the stride and the buffer (also an empty one).  The lower
    bound keeps [--i] inside [int]. *)
Theorem blurSingleChannelImage_no_repetitions (data w h stride reps : Z)
    (m : mem) :
  - 2 ^ 31 < reps <= 0 ->
  blurSingleChannelImage data w h stride reps m = Ok (tt, m).
Proof. intros [_ Hreps]. apply blur_skipped. assumption. Qed.

Lemma blurSingleChannelImage_no_repetitions_witness :
  blurSingleChannelImage 0 5 5 8 0 (Mem [] false) = Ok (tt, Mem [] false).
Proof.
  apply (blurSingleChannelImage_no_repetitions 0 5 5 8 0 (Mem [] false)). lia.
Defined.

Lemma blur_thin_faults (data w h stride reps : Z) (m : mem) :
  0 < reps ->
  (0 < h /\ w <= 2 /\ in_bounds (bytes m) (data + 2) = false)
  \/ (0 < w /\ h <= 2 /\ in_bounds (bytes m) (data + 2 * stride) = false) ->
  exists f, blurSingleChannelImage data w h stride reps m = Fault f.
Proof.
  intros Hreps Hthin. unfold blurSingleChannelImage.
  destruct (Z.to_nat reps) as [|k] eqn:Hk; [lia|].
  destruct Hthin as [(Hh & Hw & Hout)|(Hw & Hh & Hout)].
  - apply bind_fault_now. rewrite seqZ_first by assumption.
    cbn [forM repeatM]. apply bind_fault_now, bind_fault_now.
    apply blurDataTriplets_third_sample; [lia|].
    rewrite Z.mul_0_r. change (to_int32 0) with 0.
    rewrite <- Hout. f_equal. lia.
  - apply bind_faults.
    { apply keeps_length_forM. intros y. apply keeps_length_repeatM.
      apply keeps_length_blurDataTriplets. }
    intros [] m1 L1. rewrite seqZ_first by assumption.
    cbn [forM repeatM]. apply bind_fault_now, bind_fault_now.
    apply blurDataTriplets_third_sample; [lia|].
    rewrite (in_bounds_same m m1) by assumption.
    rewrite <- Hout. f_equal. lia.
Qed.

(** X2.  The [jassert (width > 2 && height > 2)] is a real precondition.
    With at least one repetition, an image of at most two columns (and at
    least one row) makes the first row pass touch [data[2]], and an image
    of at most two rows (and at least one column) makes the first column
    pass touch [data[2 * lineStride]]: when that byte is outside the
    buffer, the blur leaves the buffer. *)
Theorem blurSingleChannelImage_thin (data w h stride reps : Z) (m : mem) :
  0 < reps ->
  (0 < h /\ 0 <= w <= 2 /\ in_bounds (bytes m) (data + 2) = false)
  \/ (0 < w /\ 0 <= h <= 2
      /\ in_bounds (bytes m) (data + 2 * stride) = false) ->
  exists f, blurSingleChannelImage data w h stride reps m = Fault f.
Proof.
  intros Hreps Hthin. apply blur_thin_faults; [assumption|].
  destruct Hthin as [(Hh & Hw & Hout)|(Hw & Hh & Hout)];
    [left | right]; (split; [lia|]); (split; [lia | assumption]).
Qed.

Lemma blurSingleChannelImage_thin_witness :
  exists f,
    blurSingleChannelImage 0 4 2 4 2 (Mem (replicate 8 0) false) = Fault f.
Proof.
  apply (blurSingleChannelImage_thin 0 4 2 4 2 (Mem (replicate 8 0) false)).
  - lia.
  - right. split; [lia|]. split; [lia | reflexivity].
Defined.

(** *** The pass is symmetric *)

Lemma tap3_mirror (n : Z) (f : Z -> Z) (i : Z) :
  tap3 n (fun j => f (n - 1 - j)) (n - 1 - i) = tap3 n f i.
Proof.
  unfold tap3.
  assert (Hg : forall j,
             (if (0 <=? n - 1 - j) && (n - 1 - j <? n)
              then f (n - 1 - (n - 1 - j)) else 0)
             = (if (0 <=? j) && (j <? n) then f j else 0)).
  { intros j. replace (n - 1 - (n - 1 - j)) with j by lia.
    replace ((0 <=? n - 1 - j) && (n - 1 - j <? n))
      with ((0 <=? j) && (j <? n)); [reflexivity|].
    destruct (Z.leb_spec 0 j), (Z.ltb_spec j n),
      (Z.leb_spec 0 (n - 1 - j)), (Z.ltb_spec (n - 1 - j) n);
      try reflexivity; lia. }
  replace (n - 1 - i - 1) with (n - 1 - (i + 1)) by lia.
  replace (n - 1 - i + 1) with (n - 1 - (i - 1)) by lia.
  rewrite (Hg (i + 1)), (Hg (i - 1)).
  replace ((0 <=? n - 1 - i) && (n - 1 - i <? n))
    with ((0 <=? i) && (i <? n)) at 1.
  2:{ destruct (Z.leb_spec 0 i), (Z.ltb_spec i n),
        (Z.leb_spec 0 (n - 1 - i)), (Z.ltb_spec (n - 1 - i) n);
        try reflexivity; lia. }
  pose proof (Hg i) as Hi. 
  destruct ((0 <=? i) && (i <? n)) eqn:E; [|reflexivity].
  f_equal.
  replace ((0 <=? n - 1 - i) && (n - 1 - i <? n)) with true in *.
  2:{ apply andb_true_iff in E as [E1 E2].
      apply Z.leb_le in E1. apply Z.ltb_lt in E2.
      symmetry. apply andb_true_iff. split; [apply Z.leb_le | apply Z.ltb_lt]; lia. }
  rewrite Hi. lia.
Qed.

Lemma list_eq_peek (m1 m2 : list Z) :
  length m1 = length m2 -> (forall j, peek m1 j = peek m2 j) -> m1 = m2.
Proof.
  intros Hlen Hpeek. apply list_eq. intros i.
  destruct (decide (i < length m1)%nat) as [Hi|Hi].
  - destruct (lookup_lt_is_Some_2 m1 i Hi) as [a Ha].
    destruct (lookup_lt_is_Some_2 m2 i ltac:(lia)) as [b Hb].
    specialize (Hpeek (Z.of_nat i)). unfold peek in Hpeek.
    rewrite (proj2 (in_bounds_spec m1 (Z.of_nat i))) in Hpeek by lia.
    rewrite (proj2 (in_bounds_spec m2 (Z.of_nat i))) in Hpeek by lia.
    rewrite Nat2Z.id, Ha, Hb in Hpeek. simpl in Hpeek. congruence.
  - rewrite (lookup_ge_None_2 m1 i) by lia.
    rewrite (lookup_ge_None_2 m2 i) by lia. reflexivity.
Qed.

Lemma on_line_dec (d n delta p : Z) :
  delta <> 0 ->
  (exists i, 0 <= i < n /\ p = d + i * delta)
  \/ (forall i, 0 <= i < n -> p <> d + i * delta).
Proof.
  intros Hdelta.
  destruct (Z.eq_dec p (d + (p - d) / delta * delta)) as [Heq|Hne].
  - destruct (Z_lt_le_dec ((p - d) / delta) 0) as [Hlo|Hlo];
      [|destruct (Z_lt_le_dec ((p - d) / delta) n) as [Hhi|Hhi]].
    + right. intros i Hi ->. replace (d + i * delta - d) with (i * delta) in Hlo by lia.
      rewrite Z.div_mul in Hlo by assumption. lia.
    + left. exists ((p - d) / delta). split; [lia | assumption].
    + right. intros i Hi ->. replace (d + i * delta - d) with (i * delta) in Hhi by lia.
      rewrite Z.div_mul in Hhi by assumption. lia.
  - right. intros i Hi ->. apply Hne.
    replace (d + i * delta - d) with (i * delta) by lia.
    rewrite Z.div_mul by assumption. reflexivity.
Qed.

(** X4.  A pass has no direction: on a line of [n >= 3] samples inside a
    buffer of bytes, [blurDataTriplets] started at the last sample with
    step [- delta] returns the same memory as started at the first sample
    with step [delta], although each call overwrites the samples it has
    passed. *)
Theorem blurDataTriplets_either_direction (m : list Z) (l : bool)
    (d n delta : Z) :
  3 <= n -> delta <> 0 ->
  in_bounds m d = true -> in_bounds m (d + (n - 1) * delta) = true ->
  bytes_ok m ->
  blurDataTriplets (d + (n - 1) * delta) n (- delta) (Mem m l)
  = blurDataTriplets d n delta (Mem m l).
Proof.
  intros Hn Hdelta Hfirst Hlast Hm.
  pose proof (line_in_bounds m d n delta Hfirst Hlast) as Hin.
  destruct (blurDataTriplets_line m l d n delta Hn Hdelta Hin Hm)
    as (m1 & Hrun1 & (Hlen1 & Hon1 & Hoff1) & _).
  assert (Hin' : forall i, 0 <= i < n ->
             in_bounds m (d + (n - 1) * delta + i * - delta) = true).
  { intros i Hi. replace (d + (n - 1) * delta + i * - delta)
      with (d + (n - 1 - i) * delta) by lia. apply Hin. lia. }
  destruct (blurDataTriplets_line m l (d + (n - 1) * delta) n (- delta)
              Hn ltac:(lia) Hin' Hm)
    as (m2 & Hrun2 & (Hlen2 & Hon2 & Hoff2) & _).
  rewrite Hrun1, Hrun2. do 3 f_equal. apply list_eq_peek; [congruence|].
  intros p. destruct (on_line_dec d n delta p Hdelta) as [(i & Hi & ->)|Hoff].
  - rewrite Hon1 by assumption.
    replace (d + i * delta) with (d + (n - 1) * delta + (n - 1 - i) * - delta) by lia.
    rewrite Hon2 by lia.
    rewrite <- (tap3_mirror n (fun j => peek m (d + j * delta)) i).
    apply tap3_ext. intros j Hj. f_equal. lia.
  - rewrite Hoff1 by assumption. apply Hoff2.
    intros i Hi Heq. apply (Hoff (n - 1 - i)); lia.
Qed.

Lemma blurDataTriplets_either_direction_witness :
  blurDataTriplets 4 5 (-1) (Mem [10; 200; 30; 0; 255] false)
  = blurDataTriplets 0 5 1 (Mem [10; 200; 30; 0; 255] false).
Proof.
  apply (blurDataTriplets_either_direction [10; 200; 30; 0; 255] false 0 5 1).
  - lia.
  - lia.
  - reflexivity.
  - reflexivity.
  - repeat constructor; lia.
Defined.

(** ** Properties of the blurred image *)

Lemma blur_runs (m : list Z) (data w h stride reps : Z) :
  image_in_buffer m data w h stride ->
  exists m',
    blurSingleChannelImage data w h stride reps (Mem m false)
    = Ok (tt, Mem m' false)
    /\ (forall x y, 0 <= x < w -> 0 <= y < h ->
          pixels m' data stride x y
          = blur_reference w h (Z.to_nat reps) (pixels m data stride) x y).
Proof.
  intros (Hw & Hh & Hs & Hd & Ho & Hl & Hb).
  destruct (blurSingleChannelImage_spec m false data w h stride reps
              ltac:(lia) ltac:(lia) Hs Hd Ho Hl Hb) as (m' & Hrun & _ & Hpix & _).
  exists m'. split; assumption.
Qed.

Lemma passes_S (k : nat) (n : Z) (f : Z -> Z) :
  passes (S k) n f = tap3 n (passes k n f).
Proof. reflexivity. Qed.

Lemma blur_reference_lines (w h : Z) (k : nat) (img : image) (x y : Z) :
  blur_reference w h k img x y
  = passes k h (fun y' => passes k w (fun x' => img x' y') x) y.
Proof.
  unfold blur_reference. rewrite vpass_iter.
  destruct (Z_lt_le_dec y 0) as [Hy|Hy]; [|destruct (Z_lt_le_dec y h) as [Hy'|Hy']].
  - destruct k as [|k]; [apply hpass_iter|].
    rewrite !passes_S. unfold tap3.
    replace ((0 <=? y) && (y <? h)) with false; [reflexivity|].
    symmetry. apply andb_false_iff. left. apply Z.leb_gt. assumption.
  - apply passes_ext; [lia|]. intros j _. apply hpass_iter.
  - destruct k as [|k]; [apply hpass_iter|].
    rewrite !passes_S. unfold tap3.
    replace ((0 <=? y) && (y <? h)) with false; [reflexivity|].
    symmetry. apply andb_false_iff. right. apply Z.ltb_ge. assumption.
Qed.

(** *** Bounds *)

Lemma tap3_le (n : Z) (f : Z -> Z) (M : Z) (i : Z) :
  0 <= M -> (forall j, 0 <= j < n -> 0 <= f j <= M) -> 0 <= tap3 n f i <= M.
Proof.
  intros HM Hf. unfold tap3.
  assert (Hg : forall j, 0 <= (if (0 <=? j) && (j <? n) then f j else 0) <= M).
  { intros j. destruct ((0 <=? j) && (j <? n)) eqn:Hj; [|lia].
    apply andb_true_iff in Hj as [H1 H2].
    apply Z.leb_le in H1. apply Z.ltb_lt in H2. apply Hf; lia. }
  assert (Hdiv : forall a b c, 0 <= a <= M -> 0 <= b <= M -> 0 <= c <= M ->
                               0 <= (a + b + c + 1) / 3 <= M).
  { intros a b c Ha Hb Hc. split; [apply Z.div_pos; lia|].
    assert ((a + b + c + 1) / 3 < M + 1); [|lia].
    apply Z.div_lt_upper_bound; lia. }
  pose proof (Hdiv _ _ _ (Hg (i - 1)) (Hg i) (Hg (i + 1))) as H.
  revert H. destruct ((0 <=? i) && (i <? n)); [tauto | lia].
Qed.

Lemma passes_le (k : nat) (n : Z) (f : Z -> Z) (M : Z) :
  0 <= M -> (forall j, 0 <= j < n -> 0 <= f j <= M) ->
  forall i, 0 <= i < n -> 0 <= passes k n f i <= M.
Proof.
  intros HM Hf. induction k as [|k IH]; intros i Hi.
  - apply Hf; assumption.
  - rewrite passes_S. apply tap3_le; assumption.
Qed.

Lemma blur_reference_le (w h : Z) (k : nat) (img : image) (M : Z) :
  0 <= M ->
  (forall x y, 0 <= x < w -> 0 <= y < h -> 0 <= img x y <= M) ->
  forall x y, 0 <= x < w -> 0 <= y < h ->
    0 <= blur_reference w h k img x y <= M.
Proof.
  intros HM Himg x y Hx Hy. rewrite blur_reference_lines.
  apply passes_le; [assumption| |assumption].
  intros y' Hy'. apply passes_le; [assumption| |assumption].
  intros x' Hx'. apply Himg; assumption.
Qed.

(** *** Order *)

Lemma tap3_mono (n : Z) (f f' : Z -> Z) (i : Z) :
  (forall j, 0 <= j < n -> f j <= f' j) -> tap3 n f i <= tap3 n f' i.
Proof.
  intros Hf. unfold tap3.
  assert (Hg : forall j, (if (0 <=? j) && (j <? n) then f j else 0)
                         <= (if (0 <=? j) && (j <? n) then f' j else 0)).
  { intros j. destruct ((0 <=? j) && (j <? n)) eqn:Hj; [|lia].
    apply andb_true_iff in Hj as [H1 H2].
    apply Z.leb_le in H1. apply Z.ltb_lt in H2. apply Hf; lia. }
  assert (H : ((if (0 <=? i - 1) && (i - 1 <? n) then f (i - 1) else 0)
               + (if (0 <=? i) && (i <? n) then f i else 0)
               + (if (0 <=? i + 1) && (i + 1 <? n) then f (i + 1) else 0) + 1) / 3
              <= ((if (0 <=? i - 1) && (i - 1 <? n) then f' (i - 1) else 0)
                  + (if (0 <=? i) && (i <? n) then f' i else 0)
                  + (if (0 <=? i + 1) && (i + 1 <? n) then f' (i + 1) else 0) + 1) / 3).
  { pose proof (Hg (i - 1)) as Ha. pose proof (Hg i) as Hb.
    pose proof (Hg (i + 1)) as Hc. apply Z.div_le_mono; lia. }
  revert H. destruct ((0 <=? i) && (i <? n)); [tauto | lia].
Qed.

Lemma passes_mono (k : nat) (n : Z) (f f' : Z -> Z) :
  (forall j, 0 <= j < n -> f j <= f' j) ->
  forall i, 0 <= i < n -> passes k n f i <= passes k n f' i.
Proof.
  intros Hf. induction k as [|k IH]; intros i Hi.
  - apply Hf; assumption.
  - rewrite !passes_S. apply tap3_mono. assumption.
Qed.

Lemma blur_reference_mono (w h : Z) (k : nat) (img img' : image) :
  (forall x y, 0 <= x < w -> 0 <= y < h -> img x y <= img' x y) ->
  forall x y, 0 <= x < w -> 0 <= y < h ->
    blur_reference w h k img x y <= blur_reference w h k img' x y.
Proof.
  intros Himg x y Hx Hy. rewrite !blur_reference_lines.
  apply passes_mono; [|assumption].
  intros y' Hy'. apply passes_mono; [|assumption].
  intros x' Hx'. apply Himg; assumption.
Qed.

(** *** Support *)

Lemma tap3_local (n : Z) (f f' : Z -> Z) (i : Z) :
  (forall j, 0 <= j < n -> i - 1 <= j <= i + 1 -> f j = f' j) ->
  tap3 n f i = tap3 n f' i.
Proof.
  intros Hf. unfold tap3.
  assert (Hg : forall j, i - 1 <= j <= i + 1 ->
                 (if (0 <=? j) && (j <? n) then f j else 0)
                 = (if (0 <=? j) && (j <? n) then f' j else 0)).
  { intros j Hij. destruct ((0 <=? j) && (j <? n)) eqn:Hj; [|reflexivity].
    apply andb_true_iff in Hj as [H1 H2].
    apply Z.leb_le in H1. apply Z.ltb_lt in H2. apply Hf; lia. }
  rewrite (Hg (i - 1)), (Hg i), (Hg (i + 1)) by lia. reflexivity.
Qed.

Lemma passes_local (k : nat) (n : Z) (f f' : Z -> Z) :
  forall i,
    (forall j, 0 <= j < n -> i - Z.of_nat k <= j <= i + Z.of_nat k ->
               f j = f' j) ->
    0 <= i < n ->
    passes k n f i = passes k n f' i.
Proof.
  induction k as [|k IH]; intros i Hf Hi.
  - apply Hf; lia.
  - rewrite !passes_S. apply tap3_local. intros j Hj Hij.
    apply IH; [|assumption]. intros j' Hj' Hij'. apply Hf; lia.
Qed.

Lemma blur_reference_local (w h : Z) (k : nat) (img img' : image) (x y : Z) :
  0 <= x < w -> 0 <= y < h ->
  (forall x' y', 0 <= x' < w -> 0 <= y' < h ->
     x - Z.of_nat k <= x' <= x + Z.of_nat k ->
     y - Z.of_nat k <= y' <= y + Z.of_nat k -> img x' y' = img' x' y') ->
  blur_reference w h k img x y = blur_reference w h k img' x y.
Proof.
  intros Hx Hy Himg. rewrite !blur_reference_lines.
  apply passes_local; [|assumption]. intros y' Hy' Hwy.
  apply passes_local; [|assumption]. intros x' Hx' Hwx.
  apply Himg; assumption.
Qed.

(** *** Uniform regions *)

Lemma passes_uniform (k : nat) (n : Z) (f : Z -> Z) (c : Z) :
  forall i,
    (forall j, i - Z.of_nat k <= j <= i + Z.of_nat k -> f j = c) ->
    Z.of_nat k <= i < n - Z.of_nat k ->
    passes k n f i = c.
Proof.
  induction k as [|k IH]; intros i Hf Hi.
  - apply Hf; lia.
  - rewrite passes_S, tap3_interior by lia.
    rewrite !IH by (try lia; intros j Hj; apply Hf; lia).
    replace (c + c + c + 1) with (1 + c * 3) by lia.
    rewrite Z.div_add by lia. reflexivity.
Qed.

Lemma blur_reference_uniform (w h : Z) (k : nat) (img : image) (x y c : Z) :
  Z.of_nat k <= x < w - Z.of_nat k -> Z.of_nat k <= y < h - Z.of_nat k ->
  (forall x' y', x - Z.of_nat k <= x' <= x + Z.of_nat k ->
                 y - Z.of_nat k <= y' <= y + Z.of_nat k -> img x' y' = c) ->
  blur_reference w h k img x y = c.
Proof.
  intros Hx Hy Himg. rewrite blur_reference_lines.
  apply passes_uniform; [|assumption]. intros y' Hy'.
  apply passes_uniform; [|assumption]. intros x' Hx'.
  apply Himg; assumption.
Qed.

Lemma withData_same (pd : ImagePixelData) : withData pd (imageData pd) = pd.
Proof. destruct pd. reflexivity. Qed.

(** *** A radius whose double is no [int] *)

Lemma dot_one_row_pass (x y : Z) :
  0 <= x < 3 -> 0 <= y < 3 ->
  0 <= hpass 3 (pixels (imageData dot_image) 0 4) x y <= 30.
Proof.
  intros Hx Hy.
  assert (Ex : x = 0 \/ x = 1 \/ x = 2) by lia.
  assert (Ey : y = 0 \/ y = 1 \/ y = 2) by lia.
  destruct Ex as [-> | [-> | ->]]; destruct Ey as [-> | [-> | ->]];
    split; vm_compute; discriminate.
Qed.

Lemma dot_blurred (k : nat) :
  (1 <= k)%nat ->
  Nat.iter k (vpass 3) (Nat.iter k (hpass 3) (pixels (imageData dot_image) 0 4))
    1 1 <= 30.
Proof.
  intros Hk. destruct k as [|k]; [lia|].
  rewrite vpass_iter, (Nat.iter_succ_r k).
  apply (passes_le (S k) 3 _ 30); [lia| |lia].
  intros y Hy. rewrite hpass_iter.
  apply (passes_le k 3 _ 30); [lia| |lia].
  intros x Hx. apply dot_one_row_pass; assumption.
Qed.

(** With the radius 2^30 + 1 the product [2 * radius] is no [int]: as an
    [int] it is negative, the loops of [blurSingleChannelImage] have no
    iteration and the image is left as it was, with its centre at 90,
    where [2 * radius] passes along the rows and the columns would have
    brought the centre down to 30 or less. *)
Lemma blur_radius_wraps :
  0 < 2 ^ 30 + 1
  /\ blurSingleChannelImage_Image (Some 0%nat) (2 ^ 30 + 1) dot_heap
     = Ok (tt, dot_heap)
  /\ pixels (imageData dot_image) 0 4 1 1 = 90
  /\ Nat.iter (2 * Z.to_nat (2 ^ 30 + 1)) (vpass 3)
       (Nat.iter (2 * Z.to_nat (2 ^ 30 + 1)) (hpass 3)
          (pixels (imageData dot_image) 0 4)) 1 1 <> 90.
Proof.
  split; [lia|]. split; [|split; [reflexivity|]].
  - unfold blurSingleChannelImage_Image.
    replace (dot_heap !! 0%nat) with (Some (dot_image, 2%nat)) by reflexivity.
    change (to_int32 (2 * (2 ^ 30 + 1))) with (-2147483646).
    rewrite blur_skipped by lia. cbn [bytes].
    rewrite withData_same. rewrite insert_id by reflexivity. reflexivity.
  - pose proof (dot_blurred (2 * Z.to_nat (2 ^ 30 + 1)) ltac:(lia)). lia.
Qed.

(** X5.  The blur never brightens: when no pixel of the image exceeds
    [M], no pixel of the blurred image does, for any number of
    repetitions.  With [M = 0]: a fully transparent image stays fully
    transparent. *)
Theorem blur_never_brightens (m : list Z) (data w h stride reps M : Z) :
  image_in_buffer m data w h stride ->
  (forall x y, 0 <= x < w -> 0 <= y < h -> pixels m data stride x y <= M) ->
  exists m',
    blurSingleChannelImage data w h stride reps (Mem m false)
    = Ok (tt, Mem m' false)
    /\ forall x y, 0 <= x < w -> 0 <= y < h ->
         0 <= pixels m' data stride x y <= M.
Proof.
  intros Himg HM.
  destruct (blur_runs m data w h stride reps Himg) as (m' & Hrun & Hpix).
  destruct Himg as (Hw & Hh & _ & _ & _ & _ & Hb).
  assert (H0 : 0 <= M).
  { pose proof (HM 0 0 ltac:(lia) ltac:(lia)) as H.
    pose proof (peek_range m (data + stride * 0 + 0) Hb). unfold pixels in H. lia. }
  exists m'. split; [assumption|]. intros x y Hx Hy. rewrite Hpix by assumption.
  apply blur_reference_le; try assumption.
  intros x' y' Hx' Hy'. split; [|apply HM; assumption].
  unfold pixels. apply peek_range. assumption.
Qed.

Lemma blur_never_brightens_witness :
  exists m',
    blurSingleChannelImage 0 3 3 4 2
      (Mem [0; 0; 0; 0;  0; 90; 0; 0;  0; 0; 0; 0] false)
    = Ok (tt, Mem m' false)
    /\ forall x y, 0 <= x < 3 -> 0 <= y < 3 -> 0 <= pixels m' 0 4 x y <= 90.
Proof.
  apply (blur_never_brightens [0; 0; 0; 0;  0; 90; 0; 0;  0; 0; 0; 0] 0 3 3 4 2 90).
  - unfold image_in_buffer. repeat split; try lia.
    + simpl. lia.
    + repeat constructor; lia.
  - intros x y Hx Hy.
    assert (Ex : x = 0 \/ x = 1 \/ x = 2) by lia.
    assert (Ey : y = 0 \/ y = 1 \/ y = 2) by lia.
    destruct Ex as [-> | [-> | ->]]; destruct Ey as [-> | [-> | ->]];
      vm_compute; discriminate.
Defined.

(** X6.  The blur keeps the order of two images of the same geometry:
    when every pixel of the first is at most the pixel of the second, the
    same holds after the blur. *)
Theorem blur_monotone (m1 m2 : list Z) (data w h stride reps : Z) :
  image_in_buffer m1 data w h stride ->
  image_in_buffer m2 data w h stride ->
  (forall x y, 0 <= x < w -> 0 <= y < h ->
     pixels m1 data stride x y <= pixels m2 data stride x y) ->
  exists m1' m2',
    blurSingleChannelImage data w h stride reps (Mem m1 false)
    = Ok (tt, Mem m1' false)
    /\ blurSingleChannelImage data w h stride reps (Mem m2 false)
       = Ok (tt, Mem m2' false)
    /\ forall x y, 0 <= x < w -> 0 <= y < h ->
         pixels m1' data stride x y <= pixels m2' data stride x y.
Proof.
  intros H1 H2 Hle.
  destruct (blur_runs m1 data w h stride reps H1) as (m1' & Hrun1 & Hpix1).
  destruct (blur_runs m2 data w h stride reps H2) as (m2' & Hrun2 & Hpix2).
  exists m1', m2'. split; [assumption|]. split; [assumption|].
  intros x y Hx Hy. rewrite Hpix1, Hpix2 by assumption.
  apply blur_reference_mono; assumption.
Qed.

Lemma blur_monotone_witness :
  exists m1' m2',
    blurSingleChannelImage 0 3 3 4 2
      (Mem [0; 0; 0; 0;  0; 90; 0; 0;  0; 0; 0; 0] false)
    = Ok (tt, Mem m1' false)
    /\ blurSingleChannelImage 0 3 3 4 2
         (Mem [9; 0; 0; 0;  0; 99; 0; 0;  0; 0; 200; 0] false)
       = Ok (tt, Mem m2' false)
    /\ forall x y, 0 <= x < 3 -> 0 <= y < 3 ->
         pixels m1' 0 4 x y <= pixels m2' 0 4 x y.
Proof.
  apply (blur_monotone [0; 0; 0; 0;  0; 90; 0; 0;  0; 0; 0; 0]
           [9; 0; 0; 0;  0; 99; 0; 0;  0; 0; 200; 0] 0 3 3 4 2).
  - unfold image_in_buffer. repeat split; try lia.
    + simpl. lia.
    + repeat constructor; lia.
  - unfold image_in_buffer. repeat split; try lia.
    + simpl. lia.
    + repeat constructor; lia.
  - intros x y Hx Hy.
    assert (Ex : x = 0 \/ x = 1 \/ x = 2) by lia.
    assert (Ey : y = 0 \/ y = 1 \/ y = 2) by lia.
    destruct Ex as [-> | [-> | ->]]; destruct Ey as [-> | [-> | ->]];
      vm_compute; discriminate.
Defined.

(** X7.  A pixel of the blurred image depends only on the pixels at most
    [repetitions] columns and [repetitions] rows away: two images of the
    same geometry that agree there give the same blurred pixel.  The
    painters blur with [2 * radius] repetitions, so the reach is twice the
    radius. *)
Theorem blur_support (m1 m2 : list Z) (data w h stride reps x y : Z) :
  image_in_buffer m1 data w h stride ->
  image_in_buffer m2 data w h stride ->
  0 <= reps -> 0 <= x < w -> 0 <= y < h ->
  (forall x' y', 0 <= x' < w -> 0 <= y' < h ->
     x - reps <= x' <= x + reps -> y - reps <= y' <= y + reps ->
     pixels m1 data stride x' y' = pixels m2 data stride x' y') ->
  exists m1' m2',
    blurSingleChannelImage data w h stride reps (Mem m1 false)
    = Ok (tt, Mem m1' false)
    /\ blurSingleChannelImage data w h stride reps (Mem m2 false)
       = Ok (tt, Mem m2' false)
    /\ pixels m1' data stride x y = pixels m2' data stride x y.
Proof.
  intros H1 H2 Hreps Hx Hy Hsame.
  destruct (blur_runs m1 data w h stride reps H1) as (m1' & Hrun1 & Hpix1).
  destruct (blur_runs m2 data w h stride reps H2) as (m2' & Hrun2 & Hpix2).
  exists m1', m2'. split; [assumption|]. split; [assumption|].
  rewrite Hpix1, Hpix2 by assumption.
  apply blur_reference_local; try assumption.
  intros x' y' Hx' Hy' Hwx Hwy. apply Hsame; try assumption; lia.
Qed.

(** X8.  A pixel keeps its value [c] when every pixel at most
    [repetitions] columns and rows away has the value [c] and that square
    lies inside the image: only pixels near an edge of a uniform region,
    or near the border of the image, are changed. *)
Theorem blur_keeps_uniform_interior (m : list Z)
    (data w h stride reps x y c : Z) :
  image_in_buffer m data w h stride ->
  0 <= reps -> reps <= x < w - reps -> reps <= y < h - reps ->
  (forall x' y', x - reps <= x' <= x + reps -> y - reps <= y' <= y + reps ->
     pixels m data stride x' y' = c) ->
  exists m',
    blurSingleChannelImage data w h stride reps (Mem m false)
    = Ok (tt, Mem m' false)
    /\ pixels m' data stride x y = c.
Proof.
  intros Himg Hreps Hx Hy Hc.
  destruct (blur_runs m data w h stride reps Himg) as (m' & Hrun & Hpix).
  exists m'. split; [assumption|]. rewrite Hpix by lia.
  apply blur_reference_uniform; try lia.
  intros x' y' Hx' Hy'. apply Hc; lia.
Qed.

Lemma blur_support_witness :
  exists m1' m2',
    blurSingleChannelImage 0 3 3 4 1
      (Mem [1; 2; 3; 0;  4; 5; 6; 0;  7; 8; 9; 0] false)
    = Ok (tt, Mem m1' false)
    /\ blurSingleChannelImage 0 3 3 4 1
         (Mem [1; 2; 30; 0;  4; 5; 60; 0;  70; 80; 90; 0] false)
       = Ok (tt, Mem m2' false)
    /\ pixels m1' 0 4 0 0 = pixels m2' 0 4 0 0.
Proof.
  apply (blur_support [1; 2; 3; 0;  4; 5; 6; 0;  7; 8; 9; 0]
           [1; 2; 30; 0;  4; 5; 60; 0;  70; 80; 90; 0] 0 3 3 4 1 0 0).
  - unfold image_in_buffer. repeat split; try lia.
    + simpl. lia.
    + repeat constructor; lia.
  - unfold image_in_buffer. repeat split; try lia.
    + simpl. lia.
    + repeat constructor; lia.
  - lia.
  - lia.
  - lia.
  - intros x y Hx Hy Hwx Hwy.
    assert (Ex : x = 0 \/ x = 1) by lia.
    assert (Ey : y = 0 \/ y = 1) by lia.
    destruct Ex as [-> | ->]; destruct Ey as [-> | ->]; reflexivity.
Defined.

Lemma blur_keeps_uniform_interior_witness :
  exists m',
    blurSingleChannelImage 0 5 5 8 1 (Mem (replicate 40 7) false)
    = Ok (tt, Mem m' false)
    /\ pixels m' 0 8 2 2 = 7.
Proof.
  apply (blur_keeps_uniform_interior (replicate 40 7) 0 5 5 8 1 2 2 7).
  - unfold image_in_buffer. repeat split; try lia.
    + simpl. lia.
    + apply Forall_replicate. lia.
  - lia.
  - lia.
  - lia.
  - intros x y Hx Hy.
    assert (Ex : x = 1 \/ x = 2 \/ x = 3) by lia.
    assert (Ey : y = 1 \/ y = 2 \/ y = 3) by lia.
    destruct Ex as [-> | [-> | ->]]; destruct Ey as [-> | [-> | ->]];
      reflexivity.
Defined.

(** ** The painters on images *)

Lemma raster_pixels (w h ls : Z) (f : Z -> Z -> Z) (x y : Z) :
  0 <= x < w -> 0 <= y < h -> w <= ls ->
  pixels (raster w h ls f) 0 ls x y = to_uint8 (f x y).
Proof.
  intros Hx Hy Hls. unfold pixels, peek.
  assert (Hk : 0 <= ls * y + x < ls * Z.max 1 h) by nia.
  rewrite (proj2 (in_bounds_spec _ _))
    by (rewrite raster_length; lia).
  unfold raster. rewrite list_lookup_fmap.
  rewrite (lookup_seqZ_lt 0 _ (Z.to_nat (0 + ls * y + x))) by lia.
  cbn [fmap option_fmap option_map default].
  replace (0 + Z.of_nat (Z.to_nat (0 + ls * y + x))) with (x + y * ls) by lia.
  rewrite Z.mod_add, Z.div_add by lia.
  rewrite Z.mod_small, Z.div_small by lia.
  replace (x <? w) with true by (symmetry; apply Z.ltb_lt; lia).
  f_equal.
Qed.

Lemma blur_reference_ext (w h : Z) (k : nat) (img img' : image) (x y : Z) :
  0 <= x < w -> 0 <= y < h ->
  (forall x' y', 0 <= x' < w -> 0 <= y' < h -> img x' y' = img' x' y') ->
  blur_reference w h k img x y = blur_reference w h k img' x y.
Proof.
  intros Hx Hy Himg. apply blur_reference_local; try assumption.
  intros x' y' Hx' Hy' _ _. apply Himg; assumption.
Qed.

Lemma createPixelData_last_row (w h : Z) :
  1 <= w -> 1 <= h -> (w + 3) * (h - 1) < 2 ^ 31 ->
  lineStride (createPixelData SingleChannel w h) * (h - 1) < 2 ^ 31.
Proof.
  intros Hw Hh Hlast. cbn [createPixelData lineStride].
  rewrite Z.max_r by lia. rewrite land_lnot_3 by lia.
  pose proof (Z.div_mod (1 * w + 3) 4 ltac:(lia)).
  pose proof (Z.mod_pos_bound (1 * w + 3) 4 ltac:(lia)). nia.
Qed.



(** X10.  With [radius <= 0] (the [jassert] is no check in a release
    build, and [applyEffect] rounds a small scaled radius to 0) the blur
    has no repetition: [drawForImage] returns on every valid image, of any
    size and format, and draws the single-channel form of the source
    unblurred. *)
Theorem drawForImage_no_radius (s : DropShadow) (g : Graphics) (hp : Heap)
    (h : nat) (pd : ImagePixelData) (rc : nat) :
  hp !! h = Some (pd, rc) -> (1 <= rc)%nat -> - 2 ^ 30 < radius s <= 0 ->
  drawForImage s g (Some h) hp
  = Ok (mkGraphics (clipBounds g)
          (calls g ++ [SetColour (colour s);
                       DrawImageAt (Some (toSingleChannel pd))
                         (pt_x (offset s)) (pt_y (offset s)) true]), hp).
Proof.
  intros Hh Hrc Hr.
  rewrite (drawForImage_run s g hp h pd rc Hh Hrc).
  rewrite to_int32_small by lia.
  rewrite blur_skipped by lia.
  cbn [bytes]. rewrite withData_same.
  unfold setColour, issue. cbn [calls clipBounds].
  rewrite <- app_assoc. reflexivity.
Qed.

Lemma drawForImage_no_radius_witness :
  drawForImage (mkDropShadow white 0 (mkPoint 5 6))
    (mkGraphics (mkRect 0 0 10 10) []) (Some 0%nat) two_by_two
  = Ok (mkGraphics (mkRect 0 0 10 10)
          [SetColour white;
           DrawImageAt (Some (createPixelData SingleChannel 2 2)) 5 6 true],
        two_by_two).
Proof.
  apply (drawForImage_no_radius (mkDropShadow white 0 (mkPoint 5 6))
           (mkGraphics (mkRect 0 0 10 10) []) two_by_two 0%nat
           (createPixelData SingleChannel 2 2) 1%nat).
  - reflexivity.
  - lia.
  - split; [reflexivity | vm_compute; discriminate].
Defined.

(** X11.  [drawForImage] checks the validity of the image and nothing
    else: for [0 < radius < 2^30] and a valid RGB or ARGB image of one or
    two rows (and at least one column) the first column pass of the blur
    reads the third row of the single-channel copy, which has only as many
    rows as the source, and the call leaves the buffer. *)
Theorem drawForImage_two_rows_fault (s : DropShadow) (g : Graphics)
    (hp : Heap) (h : nat) (pd : ImagePixelData) (rc : nat) :
  hp !! h = Some (pd, rc) -> (1 <= rc)%nat ->
  pixelFormat pd <> SingleChannel ->
  0 < radius s < 2 ^ 30 -> 0 < width pd -> 0 < height pd <= 2 ->
  exists f, drawForImage s g (Some h) hp = Fault f.
Proof.
  intros Hh Hrc Hfmt Hr Hw Hht.
  rewrite (drawForImage_run s g hp h pd rc Hh Hrc).
  destruct (createPixelData_stride (width pd) (height pd) ltac:(lia)) as [Hs Hs0].
  destruct (blur_thin_faults 0 (width (toSingleChannel pd))
              (height (toSingleChannel pd)) (lineStride (toSingleChannel pd))
              (to_int32 (2 * radius s))
              (Mem (imageData (toSingleChannel pd)) false))
    as [f Hf].
  - rewrite to_int32_small by lia. lia.
  - right. unfold toSingleChannel.
    destruct (pixelFormat pd) eqn:E; [| |congruence];
      cbn [withData width height lineStride imageData bytes];
      (split; [cbn [createPixelData width]; lia|]);
      (split; [cbn [createPixelData height]; lia|]);
      apply not_true_is_false; intros Hin; apply in_bounds_spec in Hin;
      rewrite raster_length in Hin;
      cbn [createPixelData lineStride height] in *; nia.
  - exists f. rewrite Hf. reflexivity.
Qed.

Lemma drawForImage_two_rows_fault_witness :
  exists f,
    drawForImage (mkDropShadow white 1 (mkPoint 0 0))
      (mkGraphics (mkRect 0 0 10 10) []) (Some 0%nat)
      {[ 0%nat := (createPixelData ARGB 5 2, 1%nat) ]}
    = Fault f.
Proof.
  apply (drawForImage_two_rows_fault (mkDropShadow white 1 (mkPoint 0 0))
           (mkGraphics (mkRect 0 0 10 10) []) _ 0%nat
           (createPixelData ARGB 5 2) 1%nat).
  - reflexivity.
  - lia.
  - discriminate.
  - split; reflexivity.
  - reflexivity.
  - split; [reflexivity | vm_compute; discriminate].
Defined.

(** ** [drawForPath] *)

Section PathShadow.
Context {Path : Type}.
Variable pathIntegerBounds : Path -> Rectangle Z.
Variable rasterise : Path -> float -> float -> Z -> Z -> Z.

Lemma drawForPath_run (s : DropShadow) (g : Graphics) (path : Path) (hp : Heap) :
  let area := drawForPath_area pathIntegerBounds s g path in
  let blank := createPixelData SingleChannel (getWidth area) (getHeight area) in
  2 < getWidth area -> 2 < getHeight area ->
  drawForPath pathIntegerBounds rasterise s g path hp
  = match blurSingleChannelImage 0 (getWidth area) (getHeight area)
            (lineStride blank) (to_int32 (2 * radius s))
            (Mem (raster (getWidth area) (getHeight area) (lineStride blank)
                    (rasterise path
                       (f32_of_int (pt_x (offset s) - getX area))
                       (f32_of_int (pt_y (offset s) - getY area)))) false) with
    | Ok (_, m') =>
        Ok (issue (setColour g (colour s))
              (DrawImageAt (Some (withData blank (bytes m')))
                 (getX area) (getY area) true), hp)
    | Fault f => Fault f
    end.
Proof.
  intros area blank Hw Hh. unfold drawForPath. fold area.
  replace ((2 <? getWidth area) && (2 <? getHeight area)) with true
    by (symmetry; apply andb_true_iff; split; apply Z.ltb_lt; assumption).
  fold blank.
  unfold bind at 1. unfold newImage at 1. set (h2 := fresh (dom hp)).
  pose proof (fresh_not_live hp) as Hfresh. fold h2 in Hfresh.
  unfold bind at 1. unfold blurSingleChannelImage_Image.
  rewrite lookup_insert_eq.
  cbn [withData width height lineStride imageData].
  change (width blank) with (getWidth area).
  change (height blank) with (getHeight area).
  destruct (blurSingleChannelImage _ _ _ _ _ _) as [[[] m']|f]; [|reflexivity].
  unfold bind at 1. unfold drawImageAt. rewrite lookup_insert_eq.
  unfold bind at 1. unfold release. rewrite lookup_insert_eq.
  unfold ret. rewrite scratch_gone by assumption. reflexivity.
Qed.

Lemma drawForPath_blur (s : DropShadow) (g : Graphics) (path : Path) :
  let area := drawForPath_area pathIntegerBounds s g path in
  let blank := createPixelData SingleChannel (getWidth area) (getHeight area) in
  let f := rasterise path (f32_of_int (pt_x (offset s) - getX area))
             (f32_of_int (pt_y (offset s) - getY area)) in
  2 < getWidth area -> 2 < getHeight area ->
  (getWidth area + 3) * (getHeight area - 1) < 2 ^ 31 ->
  exists m',
    blurSingleChannelImage 0 (getWidth area) (getHeight area)
      (lineStride blank) (to_int32 (2 * radius s))
      (Mem (raster (getWidth area) (getHeight area) (lineStride blank) f) false)
    = Ok (tt, Mem m' false)
    /\ forall x y, 0 <= x < getWidth area -> 0 <= y < getHeight area ->
         pixels m' 0 (lineStride blank) x y
         = blur_reference (getWidth area) (getHeight area)
             (Z.to_nat (to_int32 (2 * radius s)))
             (fun x' y' => to_uint8 (f x' y')) x y.
Proof.
  intros area blank f Hw Hh Hlast.
  set (data := raster (getWidth area) (getHeight area) (lineStride blank) f).
  destruct (createPixelData_stride (getWidth area) (getHeight area) ltac:(lia))
    as [Hs Hs0]. fold blank in Hs, Hs0.
  pose proof (createPixelData_last_row (getWidth area) (getHeight area)
                ltac:(lia) ltac:(lia) Hlast) as Hoff. fold blank in Hoff.
  assert (Hlen : 0 + lineStride blank * (getHeight area - 1) + getWidth area
                 <= Z.of_nat (length data)).
  { unfold data. rewrite raster_length, Z2Nat.id by nia. nia. }
  destruct (blurSingleChannelImage_spec data false 0 (getWidth area)
              (getHeight area) (lineStride blank) (to_int32 (2 * radius s))
              ltac:(lia) ltac:(lia) Hs ltac:(lia) Hoff Hlen
              (raster_bytes_ok _ _ _ _))
    as (m' & Hrun & _ & Hpix & _).
  exists m'. split; [assumption|].
  intros x y Hx Hy. rewrite Hpix by assumption.
  apply blur_reference_ext; try assumption.
  intros x' y' Hx' Hy'. unfold data. apply raster_pixels; assumption.
Qed.

(** X12.  [drawForPath] returns whenever the last row of the scratch image
    starts at an offset that is an [int]: the guard
    [area.getWidth() > 2 && area.getHeight() > 2] is what the blur needs on
    the image that was just created, so no access leaves its buffer,
    whatever the path, the radius and the offset.  The heap of images is
    left as it was (the scratch image is gone), the clip is unchanged, and
    the context has received either nothing or [setColour (colour)] and
    one [drawImageAt] at the origin of the scratch area. *)
Theorem drawForPath_always_returns (s : DropShadow) (g : Graphics)
    (path : Path) (hp : Heap) :
  let area := drawForPath_area pathIntegerBounds s g path in
  (getWidth area + 3) * (getHeight area - 1) < 2 ^ 31 ->
  exists g',
    drawForPath pathIntegerBounds rasterise s g path hp = Ok (g', hp)
    /\ clipBounds g' = clipBounds g
    /\ (calls g' = calls g
        \/ exists img,
             calls g' = calls g ++ [SetColour (colour s);
                                    DrawImageAt (Some img) (getX area)
                                      (getY area) true]).
Proof.
  intros area Hlast.
  destruct (Z_lt_le_dec 2 (getWidth area)) as [Hw|Hw];
    [destruct (Z_lt_le_dec 2 (getHeight area)) as [Hh|Hh]|].
  - pose proof (drawForPath_run s g path hp Hw Hh) as Hdraw.
    destruct (drawForPath_blur s g path Hw Hh Hlast) as (m' & Hrun & _).
    cbv zeta in Hdraw, Hrun. rewrite Hrun in Hdraw. rewrite Hdraw. eexists.
    split; [reflexivity|]. split; [reflexivity|]. right. eexists.
    unfold setColour, issue. cbn [calls]. rewrite <- app_assoc. reflexivity.
  - exists g. unfold drawForPath. fold area.
    replace ((2 <? getWidth area) && (2 <? getHeight area)) with false
      by (symmetry; apply andb_false_iff; right; apply Z.ltb_ge; assumption).
    auto.
  - exists g. unfold drawForPath. fold area.
    replace ((2 <? getWidth area) && (2 <? getHeight area)) with false
      by (symmetry; apply andb_false_iff; left; apply Z.ltb_ge; assumption).
    auto.
Qed.

End PathShadow.

Lemma drawForPath_always_returns_witness :
  exists g',
    drawForPath (fun p : Rectangle Z => p) (fun _ _ _ x y => 10 * x + y)
      (mkDropShadow white 1 (mkPoint 0 0))
      (mkGraphics (mkRect 0 0 10 10) []) (mkRect 3 3 1 1) dot_heap
    = Ok (g', dot_heap)
    /\ clipBounds g' = mkRect 0 0 10 10
    /\ (calls g' = []
        \/ exists img,
             calls g' = [] ++ [SetColour white;
                               DrawImageAt (Some img) 1 1 true]).
Proof.
  apply (drawForPath_always_returns (fun p : Rectangle Z => p)
           (fun _ _ _ x y => 10 * x + y)
           (mkDropShadow white 1 (mkPoint 0 0))
           (mkGraphics (mkRect 0 0 10 10) []) (mkRect 3 3 1 1) dot_heap).
  reflexivity.
Defined.


(** ** [applyEffect] *)

Lemma drawForImage_returns (s : DropShadow) (g : Graphics) (hp : Heap)
    (h : nat) (pd : ImagePixelData) (rc : nat) :
  hp !! h = Some (pd, rc) -> (1 <= rc)%nat ->
  2 < width pd -> 2 < height pd ->
  lineStride (toSingleChannel pd) * (height pd - 1) < 2 ^ 31 ->
  (pixelFormat pd = SingleChannel ->
     width pd <= lineStride pd
     /\ lineStride pd * (height pd - 1) + width pd
        <= Z.of_nat (length (imageData pd))
     /\ bytes_ok (imageData pd)) ->
  exists shadowImage,
    drawForImage s g (Some h) hp
    = Ok (mkGraphics (clipBounds g)
            (calls g ++ [SetColour (colour s);
                         DrawImageAt (Some shadowImage) (pt_x (offset s))
                           (pt_y (offset s)) true]), hp).
Proof.
  intros Hh Hrc Hw Hht Hoff Hsc.
  rewrite (drawForImage_run s g hp h pd rc Hh Hrc).
  destruct (toSingleChannel_ready pd Hw Hht Hsc) as (Ew & Eh & Hs & Hl & Hb).
  destruct (blurSingleChannelImage_spec (imageData (toSingleChannel pd)) false 0
              (width (toSingleChannel pd)) (height (toSingleChannel pd))
              (lineStride (toSingleChannel pd)) (to_int32 (2 * radius s))
              ltac:(lia) ltac:(lia) Hs ltac:(lia) ltac:(rewrite Eh; exact Hoff)
              ltac:(lia) Hb)
    as (m' & Hrun & _).
  rewrite Hrun. eexists. unfold setColour, issue. cbn [calls clipBounds].
  rewrite <- app_assoc. reflexivity.
Qed.

(** X14.  For every scale factor and alpha (unit or not), and a valid
    image of more than two rows and columns whose single-channel form has
    its last row at an offset that is an [int], [applyEffect] returns with
    the heap of images as it was, after exactly four calls: [setColour]
    with the shadow colour whose alpha was multiplied by [alpha],
    [drawImageAt] of the shadow at the scaled and rounded offset,
    [setOpacity (alpha)], and [drawImageAt (image, 0, 0)] of the source
    with the pixel data it came with.  On an invalid image the shadow is
    skipped and the last two calls are still made. *)
Theorem applyEffect_draws_image_last (e : DropShadowEffect) (g : Graphics)
    (scaleFactor a : float) (hp : Heap) (h : nat) (pd : ImagePixelData)
    (rc : nat) :
  hp !! h = Some (pd, rc) -> (1 <= rc)%nat ->
  2 < width pd -> 2 < height pd ->
  lineStride (toSingleChannel pd) * (height pd - 1) < 2 ^ 31 ->
  (pixelFormat pd = SingleChannel ->
     width pd <= lineStride pd
     /\ lineStride pd * (height pd - 1) + width pd
        <= Z.of_nat (length (imageData pd))
     /\ bytes_ok (imageData pd)) ->
  (exists shadowImage,
     applyEffect e (Some h) g scaleFactor a hp
     = Ok (mkGraphics (clipBounds g)
             (calls g
              ++ [SetColour (withMultipliedAlpha (colour (shadow e)) a);
                  DrawImageAt (Some shadowImage)
                    (roundToInt (f32_mul (f32_of_int (pt_x (offset (shadow e))))
                                   scaleFactor))
                    (roundToInt (f32_mul (f32_of_int (pt_y (offset (shadow e))))
                                   scaleFactor))
                    true;
                  SetOpacity a;
                  DrawImageAt (Some pd) 0 0 false]), hp))
  /\ applyEffect e None g scaleFactor a hp
     = Ok (mkGraphics (clipBounds g)
             (calls g ++ [SetOpacity a; DrawImageAt None 0 0 false]), hp).
Proof.
  intros Hh Hrc Hw Hht Hoff Hsc. split.
  - unfold applyEffect. cbn [colour radius offset pt_x pt_y].
    set (s' := mkDropShadow _ _ _).
    destruct (drawForImage_returns s' g hp h pd rc Hh Hrc Hw Hht Hoff Hsc)
      as (img & Hrun).
    exists img. unfold bind. rewrite Hrun.
    unfold drawImageAt, setOpacity, issue. rewrite Hh.
    cbn [calls clipBounds colour offset pt_x pt_y s'].
    rewrite <- !app_assoc. reflexivity.
  - unfold applyEffect, bind, drawForImage. cbn [isValid]. unfold ret.
    unfold drawImageAt, setOpacity, issue. cbn [calls clipBounds].
    rewrite <- app_assoc. reflexivity.
Qed.

Lemma applyEffect_draws_image_last_witness :
  (exists shadowImage,
     applyEffect (mkEffect (mkDropShadow white 2 (mkPoint 3 (-4))))
       (Some 0%nat) (mkGraphics (mkRect 0 0 10 10) [])
       (f32_lit 5 2) (f32_lit 1 2) dot_heap
     = Ok (mkGraphics (mkRect 0 0 10 10)
             [SetColour (mkColour 128 255 255 255);
              DrawImageAt (Some shadowImage) 8 (-10) true;
              SetOpacity (f32_lit 1 2);
              DrawImageAt (Some dot_image) 0 0 false], dot_heap))
  /\ applyEffect (mkEffect (mkDropShadow white 2 (mkPoint 3 (-4))))
       None (mkGraphics (mkRect 0 0 10 10) [])
       (f32_lit 5 2) (f32_lit 1 2) dot_heap
     = Ok (mkGraphics (mkRect 0 0 10 10)
             [SetOpacity (f32_lit 1 2); DrawImageAt None 0 0 false], dot_heap).
Proof.
  apply (applyEffect_draws_image_last
           (mkEffect (mkDropShadow white 2 (mkPoint 3 (-4))))
           (mkGraphics (mkRect 0 0 10 10) []) (f32_lit 5 2) (f32_lit 1 2)
           dot_heap 0%nat dot_image 2%nat).
  - reflexivity.
  - lia.
  - reflexivity.
  - reflexivity.
  - reflexivity.
  - intros _. split; [vm_compute; discriminate|].
    split; [vm_compute; discriminate|]. repeat constructor; lia.
Defined.

Lemma scale_by_int (n k : Z) :
  0 < k < 2 ^ 24 -> Z.abs (n * k) < 2 ^ 24 ->
  roundToInt (f32_mul (f32_of_int n) (f32_of_int k)) = n * k.
Proof.
  intros Hk Hnk.
  destruct (Z.eq_dec n 0) as [->|Hn0].
  - rewrite (f32_of_int_exact k) by lia.
    rewrite canon_finite by lia. reflexivity.
  - assert (Hn24 : Z.abs n < 2 ^ 24) by nia.
    rewrite !f32_of_int_exact by lia.
    rewrite canon_mul by (try assumption; lia).
    apply roundToInt_canon. assumption.
Qed.

(** X15.  At a whole scale factor [k >= 1] (a display scale of 2, say)
    nothing is rounded: when [radius * k] and the scaled offsets stay
    below 2^24 in magnitude, [applyEffect] is [drawForImage] with the
    radius [radius * k], the offset [offset * k] and the colour's alpha
    multiplied by [alpha], followed by [setOpacity (alpha)] and
    [drawImageAt (image, 0, 0)]. *)
Theorem applyEffect_integer_scale (e : DropShadowEffect) (image : Image)
    (g : Graphics) (k : Z) (a : float) (hp : Heap) :
  0 < k < 2 ^ 24 ->
  Z.abs (radius (shadow e) * k) < 2 ^ 24 ->
  Z.abs (pt_x (offset (shadow e)) * k) < 2 ^ 24 ->
  Z.abs (pt_y (offset (shadow e)) * k) < 2 ^ 24 ->
  applyEffect e image g (f32_of_int k) a hp
  = (let* g' := drawForImage
                  (mkDropShadow (withMultipliedAlpha (colour (shadow e)) a)
                     (radius (shadow e) * k)
                     (mkPoint (pt_x (offset (shadow e)) * k)
                              (pt_y (offset (shadow e)) * k)))
                  g image in
     drawImageAt (setOpacity g' a) image 0 0 false) hp.
Proof.
  intros Hk Hr Hx Hy. unfold applyEffect.
  cbn [colour radius offset pt_x pt_y].
  rewrite !scale_by_int by assumption. reflexivity.
Qed.

Lemma applyEffect_integer_scale_witness :
  applyEffect (mkEffect (mkDropShadow white 2 (mkPoint 3 (-4)))) (Some 0%nat)
    (mkGraphics (mkRect 0 0 100 100) []) (f32_of_int 2) (f32_lit 1 2) dot_heap
  = (let* g' := drawForImage
                  (mkDropShadow (withMultipliedAlpha white (f32_lit 1 2))
                     (2 * 2) (mkPoint (3 * 2) (-4 * 2)))
                  (mkGraphics (mkRect 0 0 100 100) []) (Some 0%nat) in
     drawImageAt (setOpacity g' (f32_lit 1 2)) (Some 0%nat) 0 0 false) dot_heap.
Proof.
  apply (applyEffect_integer_scale
           (mkEffect (mkDropShadow white 2 (mkPoint 3 (-4)))) (Some 0%nat)
           (mkGraphics (mkRect 0 0 100 100) []) 2 (f32_lit 1 2) dot_heap).
  - split; reflexivity.
  - reflexivity.
  - reflexivity.
  - reflexivity.
Defined.

(** ** [drawForRectangle] *)

Lemma drawShadowSection_eq (g : Graphics) (cg : ColourGradient)
    (area : Rectangle float) (isCorner : bool) (x1 y1 x2 y2 : float) :
  drawShadowSection g cg area isCorner x1 y1 x2 y2
  = (mkGraphics (clipBounds g)
       (calls g
        ++ [SetGradientFill (mkGradient (getRelativePoint area x1 y1)
                               (getRelativePoint area x2 y2) isCorner
                               (colours cg));
            FillRect area]),
     mkGradient (getRelativePoint area x1 y1) (getRelativePoint area x2 y2)
       isCorner (colours cg)).
Proof.
  unfold drawShadowSection, setGradientFill, fillRect, issue.
  cbn [calls clipBounds]. rewrite <- app_assoc. reflexivity.
Qed.

Lemma fill_sections_eq (g : Graphics) (cg : ColourGradient)
    (sec : ShadowSections) (c : Colour) :
  let zero := f32_of_int 0 in
  let one := f32_of_int 1 in
  let grad area isCorner x1 y1 x2 y2 :=
    mkGradient (getRelativePoint area x1 y1) (getRelativePoint area x2 y2)
      isCorner (colours cg) in
  fill_sections g cg sec c
  = mkGraphics (clipBounds g)
      (calls g
       ++ [SetGradientFill (grad (topLeft sec) true one one zero one);
           FillRect (topLeft sec);
           SetGradientFill (grad (topRight sec) true zero one one one);
           FillRect (topRight sec);
           SetGradientFill (grad (topEdge sec) false zero one zero zero);
           FillRect (topEdge sec);
           SetGradientFill (grad (bottomLeft sec) true one zero zero zero);
           FillRect (bottomLeft sec);
           SetGradientFill (grad (bottomRight sec) true zero zero one zero);
           FillRect (bottomRight sec);
           SetGradientFill (grad (bottomEdge sec) false zero zero zero one);
           FillRect (bottomEdge sec);
           SetGradientFill (grad (leftEdge sec) false one zero zero zero);
           FillRect (leftEdge sec);
           SetGradientFill (grad (rightEdge sec) false zero zero one zero);
           FillRect (rightEdge sec);
           SetColour c;
           FillRect (centre sec)]).
Proof.
  intros zero one grad. unfold fill_sections. fold zero one.
  rewrite drawShadowSection_eq. cbv beta iota. cbn [colours calls clipBounds].
  rewrite drawShadowSection_eq. cbv beta iota. cbn [colours calls clipBounds].
  rewrite drawShadowSection_eq. cbv beta iota. cbn [colours calls clipBounds].
  rewrite drawShadowSection_eq. cbv beta iota. cbn [colours calls clipBounds].
  rewrite drawShadowSection_eq. cbv beta iota. cbn [colours calls clipBounds].
  rewrite drawShadowSection_eq. cbv beta iota. cbn [colours calls clipBounds].
  rewrite drawShadowSection_eq. cbv beta iota. cbn [colours calls clipBounds].
  rewrite drawShadowSection_eq. cbv beta iota. cbn [colours calls clipBounds].
  unfold fillRect, setColour, issue. cbn [calls clipBounds].
  rewrite <- !app_assoc. reflexivity.
Qed.

(** X16.  [drawForRectangle] returns on every input and checks nothing:
    whatever the target area (also an empty one), the radius and the
    offset, the context keeps its clip and receives exactly eighteen
    calls: eight times [setGradientFill] and [fillRect] (top left, top
    right, top, bottom left, bottom right, bottom, left, right), the
    gradient radial for the four corners and linear for the four edges and
    always with the stops of the falloff, then [setColour (colour)] and
    [fillRect] of the centre. *)
Theorem drawForRectangle_always_fills (s : DropShadow) (g : Graphics)
    (targetArea : Rectangle Z) :
  let sec := shadow_sections s targetArea in
  exists g' c1 c2 c3 c4 c5 c6 c7 c8,
    drawForRectangle s g targetArea = Ok g'
    /\ clipBounds g' = clipBounds g
    /\ calls g'
       = calls g
         ++ [SetGradientFill c1; FillRect (topLeft sec);
             SetGradientFill c2; FillRect (topRight sec);
             SetGradientFill c3; FillRect (topEdge sec);
             SetGradientFill c4; FillRect (bottomLeft sec);
             SetGradientFill c5; FillRect (bottomRight sec);
             SetGradientFill c6; FillRect (bottomEdge sec);
             SetGradientFill c7; FillRect (leftEdge sec);
             SetGradientFill c8; FillRect (rightEdge sec);
             SetColour (colour s); FillRect (centre sec)]
    /\ map isRadial [c1; c2; c3; c4; c5; c6; c7; c8]
       = [true; true; false; true; true; false; false; false]
    /\ Forall (fun c => colours c = falloff_stops (colour s))
         [c1; c2; c3; c4; c5; c6; c7; c8].
Proof.
  intros sec.
  destruct (falloff_gradient_eq (colour s) 53) as (cg & Hcg & Hstops).
  change (11 + 53)%nat with 64%nat in Hcg.
  unfold drawForRectangle. rewrite Hcg. fold sec.
  pose proof (fill_sections_eq g cg sec (colour s)) as Hfill.
  cbv zeta in Hfill. rewrite Hfill, Hstops.
  do 9 eexists. split; [reflexivity|]. split; [reflexivity|].
  split; [reflexivity|]. split; [reflexivity|].
  repeat constructor.
Qed.

Lemma half_mul_one (a : Z) :
  Z.abs a < 2 ^ 24 -> f32_mul (half a) (f32_of_int 1) = half a.
Proof.
  intros Ha. destruct (Z.eq_dec a 0) as [->|Ha0]; [reflexivity|].
  unfold half. rewrite f32_one.
  rewrite canon_mul by (try assumption; lia).
  rewrite Z.mul_1_r. reflexivity.
Qed.

Lemma half_mul_zero (a : Z) :
  0 <= a -> f32_mul (half a) (f32_of_int 0) = half 0.
Proof.
  intros Ha. destruct (Z.eq_dec a 0) as [->|Ha0]; [reflexivity|].
  unfold half. rewrite canon_finite by assumption.
  replace (a <? 0) with false by (symmetry; apply Z.ltb_ge; lia).
  reflexivity.
Qed.

Lemma hrect_relative_point (X Y W H i j : Z) :
  i = 0 \/ i = 1 -> j = 0 \/ j = 1 ->
  0 <= W < 2 ^ 24 -> 0 <= H < 2 ^ 24 ->
  Z.abs X < 2 ^ 24 -> Z.abs Y < 2 ^ 24 ->
  Z.abs (X + W) < 2 ^ 24 -> Z.abs (Y + H) < 2 ^ 24 ->
  getRelativePoint (hrect (mkRect X Y W H)) (f32_of_int i) (f32_of_int j)
  = mkPoint (half (X + W * i)) (half (Y + H * j)).
Proof.
  intros Hi Hj HW HH HX HY HXW HYH.
  unfold getRelativePoint, hrect. cbn [rx ry rw rh num_add num_mul Num_float].
  f_equal.
  - destruct Hi as [-> | ->].
    + rewrite half_mul_zero, half_add by lia. f_equal. lia.
    + rewrite half_mul_one, half_add by lia. f_equal. lia.
  - destruct Hj as [-> | ->].
    + rewrite half_mul_zero, half_add by lia. f_equal. lia.
    + rewrite half_mul_one, half_add by lia. f_equal. lia.
Qed.

Ltac pick_side :=
  lazymatch goal with
  | |- _ /\ _ => split; pick_side
  | |- _ \/ _ => first [left; solve [pick_side] | right; solve [pick_side]]
  | |- _ => lra
  end.

Lemma Zeq_Qeq (u v : Z) : u = v -> (inject_Z u == inject_Z v)%Q.
Proof. intros ->. reflexivity. Qed.

Ltac to_Q H := apply Zeq_Qeq in H; push_inject H.

Lemma runs_outwards_half (A B W H a1 b1 a2 b2 e : Z) (radial : bool)
    (stops : list (double * Colour)) :
  (a1 = A \/ a1 = A + W) -> (b1 = B \/ b1 = B + H) ->
  (b2 = b1 /\ (a1 = A /\ a2 = A - e \/ a1 = A + W /\ a2 = A + W + e))
  \/ (a2 = a1 /\ (b1 = B /\ b2 = B - e \/ b1 = B + H /\ b2 = B + H + e)) ->
  Z.abs A < 2 ^ 24 -> Z.abs B < 2 ^ 24 -> Z.abs W < 2 ^ 24 -> Z.abs H < 2 ^ 24 ->
  Z.abs a1 < 2 ^ 24 -> Z.abs b1 < 2 ^ 24 ->
  Z.abs a2 < 2 ^ 24 -> Z.abs b2 < 2 ^ 24 ->
  runs_outwards (hrect (mkRect A B W H)) (inject_Z e / 2)
    (mkGradient (mkPoint (half a1) (half b1)) (mkPoint (half a2) (half b2))
       radial stops).
Proof.
  intros Ha Hb Hrun HA HB HW HH Ha1 Hb1 Ha2 Hb2.
  unfold runs_outwards, hrect. cbn [point1 point2 pt_x pt_y rx ry rw rh].
  rewrite !F2Q_half by assumption.
  clear HA HB HW HH Ha1 Hb1 Ha2 Hb2.
  unfold Qdiv. change (/ 2)%Q with (1 # 2)%Q.
  destruct Ha as [Ha|Ha], Hb as [Hb|Hb],
    Hrun as [[H1 [[H2 H3]|[H2 H3]]]|[H1 [[H2 H3]|[H2 H3]]]];
    to_Q Ha; to_Q Hb; to_Q H1; to_Q H2; to_Q H3; pick_side.
Qed.

(** X17.  Under the bounds that keep the [float] arithmetic exact (those
    of the nine areas), each of the eight gradients that
    [drawForRectangle] sets starts ([point1], the shadow colour) on a
    corner of the solid centre and ends ([point2], transparent)
    [expandedRadius], one and a half radii, further out, straight to the
    left, to the right, up or down. *)
Theorem drawForRectangle_gradients_run_outwards (s : DropShadow)
    (g : Graphics) (targetArea : Rectangle Z) :
  Z.abs (rx targetArea) + Z.abs (pt_x (offset s)) + rw targetArea
    + 2 * radius s < 2 ^ 23 ->
  Z.abs (ry targetArea) + Z.abs (pt_y (offset s)) + rh targetArea
    + 2 * radius s < 2 ^ 23 ->
  1 <= radius s ->
  3 * radius s < rw targetArea -> 3 * radius s < rh targetArea ->
  exists g' gs,
    drawForRectangle s g targetArea = Ok g'
    /\ gradient_fills (calls g') = gradient_fills (calls g) ++ gs
    /\ length gs = 8%nat
    /\ Forall (runs_outwards (centre (shadow_sections s targetArea))
                 (inject_Z (3 * radius s) / 2)) gs.
Proof.
  intros Hx Hy Hr Hwr Hhr.
  destruct (falloff_gradient_eq (colour s) 53) as (cg & Hcg & _).
  change (11 + 53)%nat with 64%nat in Hcg.
  unfold drawForRectangle. rewrite Hcg.
  pose proof (fill_sections_eq g cg (shadow_sections s targetArea) (colour s))
    as Hfill.
  cbv zeta in Hfill. rewrite Hfill. clear Hfill.
  rewrite (shadow_sections_exact s targetArea) by (try assumption; lia).
  eexists. eexists. split; [reflexivity|]. cbn [calls].
  split; [unfold gradient_fills; rewrite omap_app; reflexivity|].
  split; [reflexivity|].
  cbv [omap list_omap].
  unfold sections_exact.
  cbn [topLeft topRight topEdge bottomLeft bottomRight bottomEdge leftEdge
       rightEdge centre].
  change (2 ^ 23) with 8388608 in *.
  rewrite !hrect_relative_point by (change (2 ^ 24) with 16777216; lia).
  repeat (constructor;
          [apply runs_outwards_half; change (2 ^ 24) with 16777216; lia|]).
  constructor.
Qed.

Lemma drawForRectangle_gradients_run_outwards_witness :
  exists g' gs,
    drawForRectangle (mkDropShadow white 2 (mkPoint 1 (-1)))
      (mkGraphics (mkRect 0 0 100 100) []) (mkRect 10 20 30 40) = Ok g'
    /\ gradient_fills (calls g') = gradient_fills [] ++ gs
    /\ length gs = 8%nat
    /\ Forall (runs_outwards
                 (centre (shadow_sections (mkDropShadow white 2 (mkPoint 1 (-1)))
                            (mkRect 10 20 30 40)))
                 (inject_Z (3 * 2) / 2)) gs.
Proof.
  apply (drawForRectangle_gradients_run_outwards
           (mkDropShadow white 2 (mkPoint 1 (-1)))
           (mkGraphics (mkRect 0 0 100 100) []) (mkRect 10 20 30 40)).
  - reflexivity.
  - reflexivity.
  - vm_compute. discriminate.
  - reflexivity.
  - reflexivity.
Defined.

(** X18.  Under the same bounds, the rectangle that [drawForRectangle]
    covers is the target area moved by [offset] and expanded by [radius]
    on each side, and the solid centre is the target area moved by
    [offset] and made smaller by half the radius on each side. *)
Theorem drawForRectangle_extent (s : DropShadow) (targetArea : Rectangle Z) :
  Z.abs (rx targetArea) + Z.abs (pt_x (offset s)) + rw targetArea
    + 2 * radius s < 2 ^ 23 ->
  Z.abs (ry targetArea) + Z.abs (pt_y (offset s)) + rh targetArea
    + 2 * radius s < 2 ^ 23 ->
  1 <= radius s ->
  3 * radius s < rw targetArea -> 3 * radius s < rh targetArea ->
  outer (shadow_sections s targetArea)
  = rect_toFloat (expanded (translated targetArea (offset s)) (radius s))
  /\ forall x y : Q,
       covers (centre (shadow_sections s targetArea)) x y
       <-> (inject_Z (rx targetArea + pt_x (offset s)) + inject_Z (radius s) / 2
              <= x
            /\ x < inject_Z (rx targetArea + pt_x (offset s) + rw targetArea)
                   - inject_Z (radius s) / 2
            /\ inject_Z (ry targetArea + pt_y (offset s)) + inject_Z (radius s) / 2
                 <= y
            /\ y < inject_Z (ry targetArea + pt_y (offset s) + rh targetArea)
                   - inject_Z (radius s) / 2)%Q.
Proof.
  intros Hx Hy Hr Hwr Hhr.
  rewrite (shadow_sections_exact s targetArea) by (try assumption; lia).
  unfold sections_exact. cbn [outer centre].
  change (2 ^ 23) with 8388608 in *.
  split.
  - unfold expanded, expanded2, translated, rect_toFloat, hrect.
    cbn [rx ry rw rh num_add num_sub num_mul num_of_int Num_int].
    rewrite !jmax_int, !Z.max_r by lia.
    rewrite !half_of_int by (change (2 ^ 23) with 8388608; lia).
    f_equal; f_equal; lia.
  - intros x y.
    rewrite covers_hrect by (change (2 ^ 24) with 16777216; lia).
    unfold Z.sub.
    rewrite !inject_Z_plus, ?inject_Z_opp, !inject_Z_mult.
    rewrite ?inject_Z_plus, ?inject_Z_opp, ?inject_Z_mult.
    change (inject_Z 2) with 2%Q. change (inject_Z 3) with 3%Q.
    change (inject_Z 4) with 4%Q.
    unfold Qdiv. change (/ 2)%Q with (1 # 2)%Q.
    split; intros (H1 & H2 & H3 & H4); repeat split; lra.
Qed.

Lemma drawForRectangle_extent_witness :
  outer (shadow_sections (mkDropShadow white 2 (mkPoint 1 (-1)))
           (mkRect 10 20 30 40))
  = rect_toFloat (mkRect 9 17 34 44)
  /\ forall x y : Q,
       covers (centre (shadow_sections (mkDropShadow white 2 (mkPoint 1 (-1)))
                         (mkRect 10 20 30 40))) x y
       <-> (inject_Z (10 + 1) + inject_Z 2 / 2 <= x
            /\ x < inject_Z (10 + 1 + 30) - inject_Z 2 / 2
            /\ inject_Z (20 + -1) + inject_Z 2 / 2 <= y
            /\ y < inject_Z (20 + -1 + 40) - inject_Z 2 / 2)%Q.
Proof.
  apply (drawForRectangle_extent (mkDropShadow white 2 (mkPoint 1 (-1)))
           (mkRect 10 20 30 40)).
  - reflexivity.
  - reflexivity.
  - vm_compute. discriminate.
  - reflexivity.
  - reflexivity.
Defined.

(** ** The falloff *)

Lemma pairwiseb_lookup {A} (R : A -> A -> bool) (l : list A) :
  pairwiseb R l = true ->
  forall (i j : nat) p q, (i < j)%nat -> l !! i = Some p -> l !! j = Some q ->
    R p q = true.
Proof.
  induction l as [|x l IH]; intros Hl i j p q Hij Hp Hq.
  - rewrite lookup_nil in Hp. discriminate.
  - cbn [pairwiseb] in Hl. apply andb_true_iff in Hl as [Hx Hl].
    destruct j as [|j]; [lia|]. cbn in Hq.
    destruct i as [|i].
    + cbn in Hp. injection Hp as <-.
      rewrite forallb_forall in Hx. apply Hx.
      apply list_elem_of_In. eapply list_elem_of_lookup_2. exact Hq.
    + cbn in Hp. apply (IH Hl i j); [lia | assumption | assumption].
Qed.

Lemma all_bytes (P : Z -> bool) :
  forallb P (seqZ 0 256) = true -> forall a, 0 <= a < 256 -> P a = true.
Proof.
  intros H a Ha. rewrite forallb_forall in H. apply H.
  apply list_elem_of_In, elem_of_seqZ. lia.
Qed.

Lemma falloff_checked :
  let weights := falloff_weights in
  forallb (fun a => pairwiseb fadesb (stop_profile weights a)
                    && forallb (fun km => quadraticb a (fst km) (snd km))
                         (imap (fun k m => (k, m)) weights))
    (seqZ 0 256) = true.
Proof. vm_compute. reflexivity. Qed.

Lemma stop_profile_eq (c : Colour) :
  map (fun st => (fst st, alpha (snd st))) (falloff_stops c)
  = stop_profile falloff_weights (alpha c).
Proof. reflexivity. Qed.

Lemma falloff_profile_ok (a : Z) :
  0 <= a < 256 ->
  pairwiseb fadesb (stop_profile falloff_weights a) = true
  /\ forallb (fun km => quadraticb a (fst km) (snd km))
       (imap (fun k m => (k, m)) falloff_weights) = true.
Proof.
  intros Ha. apply andb_true_iff.
  apply (all_bytes _ falloff_checked a Ha).
Qed.

Lemma falloff_stops_rgb (c : Colour) :
  Forall (fun st => red (snd st) = red c /\ green (snd st) = green c
                    /\ blue (snd st) = blue c) (falloff_stops c).
Proof.
  unfold falloff_stops. cbn [map app].
  repeat (constructor; [repeat split|]). constructor.
Qed.

Lemma falloff_gradient_stops (c : Colour) (cg : ColourGradient) :
  falloff_gradient 64 c = Some cg -> colours cg = falloff_stops c.
Proof.
  intros Hcg. destruct (falloff_gradient_eq c 53) as (cg' & Hcg' & Hstops).
  change (11 + 53)%nat with 64%nat in Hcg'. congruence.
Qed.

(** X19.  For a shadow colour whose alpha is a byte, the stops of the
    gradient that the loop of [drawForRectangle] builds are in order: of
    two stops, the later one lies strictly further along the gradient and
    is at most as opaque, and it has the red, green and blue of the shadow
    colour.  The loop adds its stops from the far end inwards; they end up
    sorted, from the shadow colour at position 0 to transparent at
    position 1. *)
Theorem falloff_gradient_fades (c : Colour) (cg : ColourGradient) (i j : nat)
    (p q : double * Colour) :
  falloff_gradient 64 c = Some cg ->
  0 <= alpha c < 256 -> (i < j)%nat ->
  colours cg !! i = Some p -> colours cg !! j = Some q ->
  (F2Q (fst p) < F2Q (fst q))%Q
  /\ alpha (snd q) <= alpha (snd p)
  /\ red (snd q) = red c /\ green (snd q) = green c /\ blue (snd q) = blue c.
Proof.
  intros Hcg Ha Hij Hp Hq.
  rewrite (falloff_gradient_stops c cg Hcg) in Hp, Hq.
  destruct (falloff_profile_ok (alpha c) Ha) as [Hpairs _].
  rewrite <- stop_profile_eq in Hpairs.
  pose proof (pairwiseb_lookup fadesb _ Hpairs i j
                (fst p, alpha (snd p)) (fst q, alpha (snd q)) Hij) as Hfade.
  rewrite !list_lookup_fmap, Hp, Hq in Hfade.
  specialize (Hfade eq_refl eq_refl). unfold fadesb in Hfade.
  cbn [fst snd] in Hfade.
  destruct (Qcompare (F2Q (fst p)) (F2Q (fst q))) eqn:Hcmp;
    try discriminate Hfade.
  split; [apply Qlt_alt; assumption|].
  split; [apply Z.leb_le; assumption|].
  pose proof (falloff_stops_rgb c) as Hrgb.
  rewrite Forall_lookup in Hrgb. exact (Hrgb j q Hq).
Qed.

Lemma falloff_gradient_fades_witness :
  exists cg,
    falloff_gradient 64 white = Some cg
    /\ (F2Q (f64_of_int 0) < F2Q (f64_of_int 1))%Q
    /\ alpha (withAlpha white (f32_of_int 0)) <= alpha white
    /\ red (withAlpha white (f32_of_int 0)) = red white
    /\ green (withAlpha white (f32_of_int 0)) = green white
    /\ blue (withAlpha white (f32_of_int 0)) = blue white.
Proof.
  destruct (falloff_gradient_eq white 53) as (cg & Hcg & Hstops).
  exists cg. split; [exact Hcg|].
  apply (falloff_gradient_fades white cg 0 11
           (f64_of_int 0, white)
           (f64_of_int 1, withAlpha white (f32_of_int 0))).
  - exact Hcg.
  - split; [vm_compute; discriminate | reflexivity].
  - lia.
  - rewrite Hstops. reflexivity.
  - rewrite Hstops. reflexivity.
Defined.

(** X20.  The falloff is quadratic: for a shadow colour whose alpha is a
    byte, pass [k] of the loop ([i = 0.05 + 0.1 k], [k] from 0 to 9) leaves
    the stop at position [1 - i], the stop number [10 - k] of the gradient,
    and its alpha is [i * i * alpha] to within half a unit. *)
Theorem falloff_alpha_quadratic (c : Colour) (cg : ColourGradient) (k : nat) :
  falloff_gradient 64 c = Some cg ->
  0 <= alpha c < 256 -> (k < 10)%nat ->
  colours cg !! (10 - k)%nat
  = Some (f64_sub (f64_of_int 1) (f64_of_f32 (falloff_step k)),
          withMultipliedAlpha c (f32_mul (falloff_step k) (falloff_step k)))
  /\ Z.abs (10000 * alpha (withMultipliedAlpha c
                             (f32_mul (falloff_step k) (falloff_step k)))
            - (5 + 10 * Z.of_nat k) ^ 2 * alpha c) <= 5000.
Proof.
  intros Hcg Ha Hk. rewrite (falloff_gradient_stops c cg Hcg). split.
  - do 10 (destruct k as [|k]; [reflexivity|]). lia.
  - destruct (falloff_profile_ok (alpha c) Ha) as [_ Hquad].
    rewrite forallb_forall in Hquad.
    specialize (Hquad (k, f32_mul (falloff_step k) (falloff_step k))).
    unfold quadraticb in Hquad. cbn [fst snd] in Hquad.
    apply Z.leb_le. apply Hquad.
    apply list_elem_of_In. apply (list_elem_of_lookup_2 _ k).
    rewrite list_lookup_imap. unfold falloff_weights.
    rewrite list_lookup_fmap, lookup_seq_lt by assumption. reflexivity.
Qed.

Lemma falloff_alpha_quadratic_witness :
  exists cg,
    falloff_gradient 64 white = Some cg
    /\ colours cg !! 7%nat
       = Some (f64_sub (f64_of_int 1) (f64_of_f32 (falloff_step 3)),
               withMultipliedAlpha white
                 (f32_mul (falloff_step 3) (falloff_step 3)))
    /\ Z.abs (10000 * alpha (withMultipliedAlpha white
                               (f32_mul (falloff_step 3) (falloff_step 3)))
              - (5 + 10 * 3) ^ 2 * 255) <= 5000.
Proof.
  destruct (falloff_gradient_eq white 53) as (cg & Hcg & Hstops).
  exists cg. split; [exact Hcg|].
  apply (falloff_alpha_quadratic white cg 3).
  - exact Hcg.
  - split; [vm_compute; discriminate | reflexivity].
  - lia.
Defined.
